(** * loglm_collector: rule resolution, line classification, log discovery
      and hit aggregation

    A shallow embedding of the classification core of the collector:
    [templates/store.py] (instruction rules and the template store),
    [log_formatter.py] (the instruction attached to an entry), the level
    classifier shared by [collectors/general.py], [collectors/gpu.py] and
    [collectors/nas.py], the journal and log-file collectors of
    [collectors/general.py], [collectors/gpu.py] and [collectors/custom.py],
    and the real-time scout of [collectors/scout.py].

    Environment.  The output of a command, the lines of a file, the paths
    matching a glob and the readings of a watcher are arguments of the
    functions that use them.

    Text.  A Python [str] is a [string]; each character stands for the code
    point of the same number, so the texts covered are those whose code
    points are below 256.  Case mapping, the word class of the pattern
    language and the white-space class are the interpreter's tables
    restricted to that range.  The level classifier and the noteworthy
    check are embedded a second time, in module [wide], on lines of any
    code points and with the interpreter's tables behind an interface;
    what is claimed of every text line is proved there, and on lines below
    256 the two embeddings agree.

    Patterns.  The patterns compiled by the repository itself are read by
    [re.compile] below, a reader and backtracking matcher for the part of the
    pattern language they are written in.  Patterns typed by the user go
    through the interface [RegexLibrary]: a search answers or raises.  The
    library raises [re.error] for most strings that are not patterns and
    exceptions of other classes for some, such as [OverflowError] for a
    repetition count beyond its limit. *)

From Stdlib Require Import Ascii String NArith List Lia Permutation.
From stdpp Require Import base decidable option list strings gmap.

Set Default Proof Using "Type".

(* ===================================================================== *)
(** ** Python values: exceptions, results, strings                        *)
(* ===================================================================== *)

Module py.

(** The exception classes that occur in the modelled code. *)
Inductive exn : Type :=
| re_error
| OSError
| UnicodeDecodeError
| AttributeError
| OverflowError
| ValueError.

#[global] Instance exn_eq_dec : EqDecision exn.
Proof. solve_decision. Defined.

(** The outcome of evaluating an expression: a value or a raised exception. *)
Inductive res (A : Type) : Type :=
| Ret (a : A)
| Raise (e : exn).
Arguments Ret {A} a.
Arguments Raise {A} e.

#[global] Instance res_eq_dec {A} `{EqDecision A} : EqDecision (res A).
Proof. solve_decision. Defined.

#[global] Instance res_ret : MRet res := @Ret.
#[global] Instance res_bind : MBind res := fun A B f m =>
  match m with
  | Ret a => f a
  | Raise e => Raise e
  end.

#[global] Instance res_fmap : FMap res := fun A B f m =>
  match m with
  | Ret a => Ret (f a)
  | Raise e => Raise e
  end.

(** [try: body except classes: handler] *)
Definition try_except {A} (body : res A) (classes : list exn) (handler : res A) : res A :=
  match body with
  | Ret a => Ret a
  | Raise e => if bool_decide (e ∈ classes) then handler else Raise e
  end.

(** Code points. *)
Definition code (c : ascii) : N := N_of_ascii c.

Definition between (lo hi : N) (c : ascii) : bool :=
  ((lo <=? code c) && (code c <=? hi))%N.

(** Characters that [str.lower] changes: A-Z and the accented capitals. *)
Definition is_upper (c : ascii) : bool :=
  between 65 90 c || between 192 214 c || between 216 222 c.

Definition lower_char (c : ascii) : ascii :=
  if is_upper c then ascii_of_N (code c + 32) else c.

(** The class [\w]: letters, digits and the underscore. *)
Definition is_word_char (c : ascii) : bool :=
  between 48 57 c || between 65 90 c || (code c =? 95)%N || between 97 122 c
  || (code c =? 170)%N || between 178 179 c || (code c =? 181)%N
  || between 185 186 c || between 188 190 c
  || between 192 214 c || between 216 246 c || between 248 255 c.

(** White space, as removed by [str.strip]. *)
Definition is_space_char (c : ascii) : bool :=
  between 9 13 c || between 28 32 c || (code c =? 133)%N || (code c =? 160)%N.

Definition chars (s : string) : list ascii := list_ascii_of_string s.
Definition str (l : list ascii) : string := string_of_list_ascii l.

(** [s.lower()] *)
Definition lower_chars (l : list ascii) : list ascii := lower_char <$> l.
Definition lower (s : string) : string := str (lower_chars (chars s)).

(** [bool(s)] for a string and for a list: non-empty. *)
Definition truthy (s : string) : bool :=
  match s with EmptyString => false | String _ _ => true end.
Definition truthy_list {A} (l : list A) : bool :=
  match l with [] => false | _ :: _ => true end.

(** [l.startswith(p)] on character lists. *)
Fixpoint starts_with (p l : list ascii) : bool :=
  match p, l with
  | [], _ => true
  | _ :: _, [] => false
  | a :: p', b :: l' => if Ascii.eqb a b then starts_with p' l' else false
  end.

(** [sub in s]: substring search, left to right. *)
Fixpoint contains_chars (sub l : list ascii) : bool :=
  if starts_with sub l then true
  else match l with
       | [] => false
       | _ :: l' => contains_chars sub l'
       end.
Definition contains (sub s : string) : bool := contains_chars (chars sub) (chars s).

(** [s.endswith(suffix)] *)
Definition endswith (s suffix : string) : bool :=
  starts_with (rev (chars suffix)) (rev (chars s)).

(** [x in l] for a list of strings. *)
Definition in_list (x : string) (l : list string) : bool :=
  existsb (String.eqb x) l.

(** [s.strip()] *)
Fixpoint lstrip_chars (l : list ascii) : list ascii :=
  match l with
  | c :: l' => if is_space_char c then lstrip_chars l' else l
  | [] => []
  end.
Definition strip (s : string) : string :=
  str (rev (lstrip_chars (rev (lstrip_chars (chars s))))).

(** The characters at which [str.splitlines] breaks a text. *)
Definition is_line_break (c : ascii) : bool :=
  between 10 13 c || between 28 30 c || (code c =? 133)%N.

(** [s.splitlines()]: [cur] holds, in reverse, the line being read.  A
    carriage return followed by a line feed is one break; no empty line is
    reported after the last break. *)
Fixpoint splitlines_chars (cur l : list ascii) : list (list ascii) :=
  match l with
  | [] => match cur with [] => [] | _ :: _ => [rev cur] end
  | c :: l' =>
      if is_line_break c then
        rev cur ::
        match l' with
        | d :: l'' =>
            if ((code c =? 13) && (code d =? 10))%N
            then splitlines_chars [] l''
            else splitlines_chars [] l'
        | [] => splitlines_chars [] l'
        end
      else splitlines_chars (c :: cur) l'
  end.
Definition splitlines (s : string) : list string :=
  str <$> splitlines_chars [] (chars s).

(** [s.startswith(prefix)] *)
Definition startswith (s prefix : string) : bool :=
  starts_with (chars prefix) (chars s).

(** [l[start:]] for an integer [start], negative counting from the end. *)
Definition slice_from {A} (start : Z) (l : list A) : list A :=
  let len := Z.of_nat (length l) in
  let first := if (start <? 0)%Z then Z.max (len + start) 0 else Z.min start len in
  drop (Z.to_nat first) l.

(** [any(kw in text for kw in keywords)] *)
Definition any_in (keywords : list string) (text : string) : bool :=
  existsb (fun kw => contains kw text) keywords.

End py.
Import py.

(* ===================================================================== *)
(** ** The pattern language                                               *)
(* ===================================================================== *)

Module re.

(** Compiled patterns.  [Group n r] is the n-th capturing group; a
    non-capturing group [(?:r)] leaves no node. *)
Inductive regex : Type :=
| Empty
| Lit (c : ascii)
| AnyChar
| WordBoundary
| Cat (r1 r2 : regex)
| Alt (r1 r2 : regex)
| Opt (r : regex)
| Group (n : nat) (r : regex).

(** Flags: only [re.IGNORECASE] is used. *)
Definition flags := bool.
Definition IGNORECASE : flags := true.
Definition NOFLAGS : flags := false.

Record Pattern : Type := { pat_regex : regex; pat_flags : flags }.

(** *** Reading a pattern string *)

Definition is_char (x : string) (c : ascii) : bool :=
  match x with
  | String d EmptyString => Ascii.eqb c d
  | _ => false
  end.

(** Characters with a meaning of their own in a pattern. *)
Definition is_special (c : ascii) : bool :=
  existsb (Ascii.eqb c) (chars ".^$*+?{}[]\|()").

Definition is_ascii_alnum (c : ascii) : bool :=
  between 48 57 c || between 65 90 c || between 97 122 c.

Definition cat_list (items : list regex) : regex := foldr Cat Empty items.

(** A position test such as [\b] cannot be followed by a quantifier. *)
Definition repeatable (r : regex) : bool :=
  match r with
  | WordBoundary => false
  | _ => true
  end.

(** Recursive descent with fuel.  The third component counts the
    capturing groups opened so far.  [None] rejects the string. *)
Fixpoint parse_alt (fuel : nat) (s : list ascii) (ng : nat)
  : option (regex * list ascii * nat) :=
  match fuel with
  | O => None
  | S fuel' =>
      match parse_seq fuel' s ng with
      | None => None
      | Some (items, s1, ng1) =>
          match s1 with
          | c :: s2 =>
              if is_char "|" c then
                match parse_alt fuel' s2 ng1 with
                | None => None
                | Some (r2, s3, ng2) => Some (Alt (cat_list items) r2, s3, ng2)
                end
              else Some (cat_list items, s1, ng1)
          | [] => Some (cat_list items, s1, ng1)
          end
      end
  end

with parse_seq (fuel : nat) (s : list ascii) (ng : nat)
  : option (list regex * list ascii * nat) :=
  match fuel with
  | O => None
  | S fuel' =>
      match s with
      | [] => Some ([], s, ng)
      | c :: _ =>
          if is_char "|" c || is_char ")" c then Some ([], s, ng)
          else
            match parse_atom fuel' s ng with
            | None => None
            | Some (a, s1, ng1) =>
                let quantified :=
                  match s1 with
                  | q :: s2 =>
                      if is_char "?" q
                      then if repeatable a then Some (Opt a, s2) else None
                      else Some (a, s1)
                  | [] => Some (a, s1)
                  end in
                match quantified with
                | None => None
                | Some (a', s1') =>
                    match parse_seq fuel' s1' ng1 with
                    | None => None
                    | Some (items, s3, ng3) => Some (a' :: items, s3, ng3)
                    end
                end
            end
      end
  end

with parse_atom (fuel : nat) (s : list ascii) (ng : nat)
  : option (regex * list ascii * nat) :=
  match fuel with
  | O => None
  | S fuel' =>
      match s with
      | [] => None
      | c :: s1 =>
          if is_char "(" c then
            match s1 with
            | q :: s2 =>
                if is_char "?" q then
                  match s2 with
                  | k :: s3 =>
                      if is_char ":" k then
                        match parse_alt fuel' s3 ng with
                        | Some (r, d :: s4, ng1) =>
                            if is_char ")" d then Some (r, s4, ng1) else None
                        | _ => None
                        end
                      else None
                  | [] => None
                  end
                else
                  match parse_alt fuel' s1 (S ng) with
                  | Some (r, d :: s4, ng1) =>
                      if is_char ")" d then Some (Group (S ng) r, s4, ng1) else None
                  | _ => None
                  end
            | [] => None
            end
          else if is_char "\" c then
            match s1 with
            | e :: s2 =>
                if is_char "b" e then Some (WordBoundary, s2, ng)
                else if is_ascii_alnum e then None
                else Some (Lit e, s2, ng)
            | [] => None
            end
          else if is_char "." c then Some (AnyChar, s1, ng)
          else if is_special c then None
          else Some (Lit c, s1, ng)
      end
  end.

(** [re.compile(pattern, flags)]; [None] stands for the raised [re.error]. *)
Definition compile (pattern : string) (f : flags) : option Pattern :=
  let s := chars pattern in
  match parse_alt (3 * length s + 3) s 0 with
  | Some (r, [], _) => Some {| pat_regex := r; pat_flags := f |}
  | _ => None
  end.

(** *** Matching *)

(** The matcher's position in the text: the character just before it, the
    text still to read, and the groups captured on the current path
    (latest first). *)
Record mstate : Type := MState {
  ms_prev : option ascii;
  ms_rest : list ascii;
  ms_groups : list (nat * list ascii)
}.

Definition is_word_opt (o : option ascii) : bool :=
  match o with Some c => is_word_char c | None => false end.

(** [\b]: exactly one side of the position is a word character. *)
Definition at_boundary (st : mstate) : bool :=
  xorb (is_word_opt (ms_prev st)) (is_word_opt (head (ms_rest st))).

Definition chr_eq (f : flags) (p c : ascii) : bool :=
  if f then Ascii.eqb (lower_char p) (lower_char c) else Ascii.eqb p c.

Definition advance (c : ascii) (cs : list ascii) (st : mstate) : mstate :=
  {| ms_prev := Some c; ms_rest := cs; ms_groups := ms_groups st |}.

(** The text read between two positions of one run. *)
Definition consumed (st st' : mstate) : list ascii :=
  take (length (ms_rest st) - length (ms_rest st')) (ms_rest st).

Definition set_group (n : nat) (w : list ascii) (st : mstate) : mstate :=
  {| ms_prev := ms_prev st; ms_rest := ms_rest st;
     ms_groups := (n, w) :: ms_groups st |}.

(** Backtracking in continuation-passing style: alternatives are tried
    left to right, [?] is greedy, and the first path on which the
    continuation succeeds is the answer. *)
Fixpoint exec (f : flags) (r : regex) (st : mstate)
    (k : mstate -> option mstate) : option mstate :=
  match r with
  | Empty => k st
  | Lit p =>
      match ms_rest st with
      | c :: cs => if chr_eq f p c then k (advance c cs st) else None
      | [] => None
      end
  | AnyChar =>
      match ms_rest st with
      | c :: cs => if (code c =? 10)%N then None else k (advance c cs st)
      | [] => None
      end
  | WordBoundary => if at_boundary st then k st else None
  | Cat r1 r2 => exec f r1 st (fun st1 => exec f r2 st1 k)
  | Alt r1 r2 =>
      match exec f r1 st k with
      | Some m => Some m
      | None => exec f r2 st k
      end
  | Opt r1 =>
      match exec f r1 st k with
      | Some m => Some m
      | None => k st
      end
  | Group n r1 => exec f r1 st (fun st1 => k (set_group n (consumed st st1) st1))
  end.

(** A match object: where the match starts and ends, and its groups. *)
Record Match : Type := {
  m_start : nat;
  m_end : nat;
  m_groups : list (nat * list ascii)
}.

Definition match_here (p : Pattern) (prev : option ascii) (rest : list ascii)
  : option mstate :=
  exec (pat_flags p) (pat_regex p) (MState prev rest []) Some.

(** Start positions are tried from left to right. *)
Fixpoint search_from (p : Pattern) (prev : option ascii) (rest : list ascii)
    (start : nat) : option Match :=
  match match_here p prev rest with
  | Some st =>
      Some {| m_start := start;
              m_end := start + (length rest - length (ms_rest st));
              m_groups := ms_groups st |}
  | None =>
      match rest with
      | [] => None
      | c :: rest' => search_from p (Some c) rest' (S start)
      end
  end.

(** [pattern.search(text)] *)
Definition search (p : Pattern) (text : string) : option Match :=
  search_from p None (chars text) 0.

(** [m.group(n)]; [None] when the group took no part in the match. *)
Fixpoint assoc (n : nat) (l : list (nat * list ascii)) : option (list ascii) :=
  match l with
  | [] => None
  | (i, w) :: l' => if Nat.eqb i n then Some w else assoc n l'
  end.
Definition group (m : Match) (n : nat) : option string :=
  str <$> assoc n (m_groups m).

(** [m.group(n).lower()]: [None] has no method [lower]. *)
Definition group_lower (m : Match) (n : nat) : res string :=
  match group m n with
  | Some g => Ret (lower g)
  | None => Raise AttributeError
  end.

(** The module-level patterns are compiled when the module is loaded; a
    pattern that does not compile would abort the load, so the model
    takes the compiled value. *)
Definition compiled (o : option Pattern) : Pattern :=
  default {| pat_regex := Empty; pat_flags := NOFLAGS |} o.

(** *** What a pattern denotes

    [den f r st st'] : read from position [st], the pattern [r] can stop
    at position [st'].  The matcher explores these runs in priority
    order. *)
Inductive den (f : flags) : regex -> mstate -> mstate -> Prop :=
| den_empty st : den f Empty st st
| den_lit p c cs st :
    ms_rest st = c :: cs -> chr_eq f p c = true ->
    den f (Lit p) st (advance c cs st)
| den_any c cs st :
    ms_rest st = c :: cs -> (code c =? 10)%N = false ->
    den f AnyChar st (advance c cs st)
| den_boundary st : at_boundary st = true -> den f WordBoundary st st
| den_cat r1 r2 st st1 st2 :
    den f r1 st st1 -> den f r2 st1 st2 -> den f (Cat r1 r2) st st2
| den_alt_l r1 r2 st st' : den f r1 st st' -> den f (Alt r1 r2) st st'
| den_alt_r r1 r2 st st' : den f r2 st st' -> den f (Alt r1 r2) st st'
| den_opt_some r st st' : den f r st st' -> den f (Opt r) st st'
| den_opt_none r st : den f (Opt r) st st
| den_group n r st st1 :
    den f r st st1 -> den f (Group n r) st (set_group n (consumed st st1) st1).

(** Patterns made of literals, sequence, alternation and [?] only. *)
Fixpoint plain (r : regex) : bool :=
  match r with
  | Empty | Lit _ => true
  | Cat r1 r2 | Alt r1 r2 => plain r1 && plain r2
  | Opt r1 => plain r1
  | AnyChar | WordBoundary | Group _ _ => false
  end.

(** The words of a plain pattern under [IGNORECASE], in lower case and in
    the order the matcher tries them. *)
Fixpoint words (r : regex) : list (list ascii) :=
  match r with
  | Empty => [[]]
  | Lit p => [[lower_char p]]
  | Cat r1 r2 => w1 ← words r1; w2 ← words r2; [w1 ++ w2]
  | Alt r1 r2 => words r1 ++ words r2
  | Opt r1 => words r1 ++ [[]]
  | AnyChar | WordBoundary | Group _ _ => []
  end.

(** The shape [\b(g)\b]. *)
Definition whole_word (g : regex) : regex :=
  Cat WordBoundary (Cat (Group 1 g) (Cat WordBoundary Empty)).

Definition body_of (p : Pattern) : regex :=
  match pat_regex p with
  | Cat WordBoundary (Cat (Group 1 g) (Cat WordBoundary Empty)) => g
  | _ => Empty
  end.

(** The character before the position reached after reading [w]. *)
Definition prev_after (prev : option ascii) (w : list ascii) : option ascii :=
  match last w with
  | Some c => Some c
  | None => prev
  end.

(** [w] is a whole-word token of the text at offset [i]: its lower-case
    form is one of [kws], and the characters around it, if any, are not
    word characters. *)
Definition occurs (kws : list (list ascii)) (text : list ascii)
    (i : nat) (w : list ascii) : Prop :=
  exists pre post,
    text = pre ++ w ++ post /\ length pre = i /\
    lower_chars w ∈ kws /\
    is_word_opt (last pre) = false /\ is_word_opt (head post) = false.

(** The same on strings. *)
Definition token_at (kws : list string) (line : string) (i : nat) (w : string) : Prop :=
  occurs (chars <$> kws) (chars line) i (chars w).

(** Lower-case ASCII letters; every keyword of the repository's patterns
    is made of them. *)
Definition is_lower_letter (c : ascii) : bool := between 97 122 c.
Definition keyword_like (w : list ascii) : bool :=
  truthy_list w && forallb is_lower_letter w.

(** *** The library interface for patterns supplied at run time

    [re_search pattern text flags] is the outcome of
    [re.search(pattern, text, flags)] as a truth value.  The library
    raises [re.error] for most strings that are not patterns, and
    exceptions of other classes for some. *)
Class RegexLibrary : Type := {
  re_search : string -> string -> flags -> res bool
}.

(** An invalid pattern in the sense of the handler of [matches]: every
    search with it raises [re.error]. *)
Definition invalid_pattern `{L : RegexLibrary} (pattern : string) : Prop :=
  forall text f, re_search pattern text f = Raise re_error.

(** A pattern with which a search raises nothing but [re.error]. *)
Definition raises_only_re_error `{L : RegexLibrary} (pattern : string) : Prop :=
  forall text f e, re_search pattern text f = Raise e -> e = re_error.

(** The reader and matcher of this module as a library: an instance of the
    interface that answers for the patterns they cover and rejects every
    other string. *)
Definition fragment_search (pattern text : string) (f : flags) : res bool :=
  match compile pattern f with
  | Some p =>
      match search p text with
      | Some _ => Ret true
      | None => Ret false
      end
  | None => Raise re_error
  end.

Definition fragment_library : RegexLibrary := {| re_search := fragment_search |}.

(** The library's limit on a repetition count: reading a pattern with a
    count of [MAXREPEAT] or more raises [OverflowError]. *)
Definition MAXREPEAT : N := 4294967295.

Definition digit_value (c : ascii) : option N :=
  if between 48 57 c then Some (code c - 48)%N else None.

Fixpoint decimal (acc : N) (digits : list ascii) : option N :=
  match digits with
  | [] => Some acc
  | d :: digits' =>
      match digit_value d with
      | Some v => decimal (10 * acc + v)%N digits'
      | None => None
      end
  end.

(** A pattern of the shape [c{n}]: a letter or digit with a repetition
    count. *)
Definition counted_literal (pattern : string) : option (ascii * N) :=
  match chars pattern with
  | c :: o :: rest =>
      if is_ascii_alnum c && is_char "{" o then
        match rev rest with
        | close :: digits =>
            if is_char "}" close && truthy_list digits
            then match decimal 0 (rev digits) with
                 | Some n => Some (c, n)
                 | None => None
                 end
            else None
        | [] => None
        end
      else None
  | _ => None
  end.

(** The library extended to these patterns: the count is checked, then
    the text is searched for a run of [n] such characters, which a text
    shorter than [n] cannot hold. *)
Definition counted_search (pattern text : string) (f : flags) : res bool :=
  match counted_literal pattern with
  | Some (c, n) =>
      if (MAXREPEAT <=? n)%N then Raise OverflowError
      else
        let fold := if f then lower_char else id in
        let body := fold <$> chars text in
        if (N.of_nat (length body) <? n)%N then Ret false
        else Ret (contains_chars (replicate (N.to_nat n) (fold c)) body)
  | None => fragment_search pattern text f
  end.

Definition counted_library : RegexLibrary := {| re_search := counted_search |}.

End re.

(* ===================================================================== *)
(** ** collectors/base.py                                                 *)
(* ===================================================================== *)

Module base.

Record LogEntry : Type := {
  source : string;
  message : string;
  raw : string;
  timestamp : option Z;
  level : string;
  extra : gmap string string
}.

End base.

(* ===================================================================== *)
(** ** collectors/general.py, collectors/gpu.py, collectors/nas.py        *)
(* ===================================================================== *)

Module general.

Definition _LEVEL_RE_source : string :=
  "\b(emerg|alert|crit|err|warning|notice|info|debug)\b".

Definition _LEVEL_RE : re.Pattern :=
  Eval vm_compute in re.compiled (re.compile _LEVEL_RE_source re.IGNORECASE).

Definition _parse_level (line : string) : res string :=
  match re.search _LEVEL_RE line with
  | Some m => re.group_lower m 1
  | None => Ret "info"
  end.

Definition _OOM_RE_source : string := "oom|killed process|panic|oops".

Definition _OOM_RE : re.Pattern :=
  Eval vm_compute in re.compiled (re.compile _OOM_RE_source re.IGNORECASE).

Section collector.

(** [run_command(cmd, timeout)]: the standard output of the command, or
    the empty string when it cannot be run. *)
Variable run_command : list string -> Z -> string.

(** [open(path, encoding="utf-8")] followed by [fh.readlines()]. *)
Variable readlines : string -> res (list string).

(** The loop of [_collect_errors]. *)
Fixpoint errors_loop (lines : list string) (entries : list base.LogEntry)
  : res (list base.LogEntry) :=
  match lines with
  | [] => Ret entries
  | line :: lines' =>
      let line := strip line in
      if negb (truthy line) || startswith line "--"
      then errors_loop lines' entries
      else
        level ← _parse_level line;
        errors_loop lines'
          (entries ++ [{| base.source := "journalctl:errors"; base.message := line;
                          base.raw := line; base.timestamp := None;
                          base.level := level; base.extra := ∅ |}])
  end.

(** [GeneralCollector._collect_errors] *)
Definition _collect_errors (since : string) : res (list base.LogEntry) :=
  let output :=
    run_command ["journalctl"; "-p"; "err..emerg"; "--since"; since;
                 "--no-pager"; "-o"; "short-iso"] 30 in
  errors_loop (splitlines output) [].

(** The loop of [_collect_oom]. *)
Fixpoint oom_loop (lines : list string) (entries : list base.LogEntry)
  : list base.LogEntry :=
  match lines with
  | [] => entries
  | line :: lines' =>
      match re.search _OOM_RE line with
      | Some _ =>
          oom_loop lines'
            (entries ++ [{| base.source := "journalctl:oom"; base.message := strip line;
                            base.raw := strip line; base.timestamp := None;
                            base.level := "crit"; base.extra := ∅ |}])
      | None => oom_loop lines' entries
      end
  end.

(** [GeneralCollector._collect_oom] *)
Definition _collect_oom (since : string) : list base.LogEntry :=
  let output :=
    run_command ["journalctl"; "-k"; "--since"; since;
                 "--no-pager"; "-o"; "short-iso"] 30 in
  oom_loop (splitlines output) [].

(** The inner loop of [_collect_auth]. *)
Fixpoint auth_lines_loop (auth_path : string) (lines : list string)
    (entries : list base.LogEntry) : list base.LogEntry :=
  match lines with
  | [] => entries
  | line :: lines' =>
      let lowered := lower line in
      if any_in ["failed"; "failure"; "invalid"; "error"; "refused"] lowered
      then auth_lines_loop auth_path lines'
             (entries ++ [{| base.source := auth_path; base.message := strip line;
                             base.raw := strip line; base.timestamp := None;
                             base.level := "warning"; base.extra := ∅ |}])
      else auth_lines_loop auth_path lines' entries
  end.

(** The loop over the candidate files: the first that can be read decides
    the result. *)
Fixpoint auth_paths_loop (paths : list string) (line_count : Z)
  : res (list base.LogEntry) :=
  match paths with
  | [] => Ret []
  | auth_path :: paths' =>
      match readlines auth_path with
      | Ret lines =>
          Ret (auth_lines_loop auth_path (slice_from (- line_count) lines) [])
      | Raise e =>
          if bool_decide (e ∈ [OSError]) then auth_paths_loop paths' line_count
          else Raise e
      end
  end.

(** [GeneralCollector._collect_auth] *)
Definition _collect_auth (hours : Z) : res (list base.LogEntry) :=
  let line_count := Z.max 200 (hours * 50) in
  auth_paths_loop ["/var/log/auth.log"; "/var/log/secure"] line_count.

(** The loop of [_collect_kern_log]. *)
Fixpoint kern_lines_loop (lines : list string) (entries : list base.LogEntry)
  : res (list base.LogEntry) :=
  match lines with
  | [] => Ret entries
  | line :: lines' =>
      let lowered := lower line in
      if any_in ["critical"; "error"; "err]"; "crit"] lowered
      then
        level ← _parse_level line;
        kern_lines_loop lines'
          (entries ++ [{| base.source := "/var/log/kern.log";
                          base.message := strip line; base.raw := strip line;
                          base.timestamp := None; base.level := level;
                          base.extra := ∅ |}])
      else kern_lines_loop lines' entries
  end.

(** [GeneralCollector._collect_kern_log] *)
Definition _collect_kern_log (hours : Z) : res (list base.LogEntry) :=
  let line_count := Z.max 500 (hours * 100) in
  try_except
    (lines ← readlines "/var/log/kern.log";
     kern_lines_loop (slice_from (- line_count) lines) [])
    [OSError]
    (Ret []).

End collector.

End general.

Module gpu.

Definition _LEVEL_RE_source : string :=
  "\b(emerg|alert|crit|err|warning|notice|info|debug)\b".

Definition _LEVEL_RE : re.Pattern :=
  Eval vm_compute in re.compiled (re.compile _LEVEL_RE_source re.IGNORECASE).

Definition _parse_level (line : string) : res string :=
  match re.search _LEVEL_RE line with
  | Some m => re.group_lower m 1
  | None => Ret "info"
  end.

Section collector.

Variable run_command : list string -> Z -> string.

(** The inner loop of [_collect_workload_journal]: the entries so far and
    the set [seen] of the lines already taken. *)
Fixpoint workload_lines (lines : list string)
    (state : list base.LogEntry * gset string)
  : res (list base.LogEntry * gset string) :=
  match lines with
  | [] => Ret state
  | line :: lines' =>
      let line := strip line in
      if negb (truthy line) || startswith line "--"
      then workload_lines lines' state
      else if bool_decide (line ∉ state.2) then
        level ← _parse_level line;
        workload_lines lines'
          (state.1 ++ [{| base.source := "journalctl:workload"; base.message := line;
                          base.raw := line; base.timestamp := None;
                          base.level := level; base.extra := ∅ |}],
           {[line]} ∪ state.2)
      else workload_lines lines' state
  end.

(** The outer loop, over the patterns handed to [journalctl --grep]. *)
Fixpoint workload_patterns (since : string) (patterns : list string)
    (state : list base.LogEntry * gset string)
  : res (list base.LogEntry * gset string) :=
  match patterns with
  | [] => Ret state
  | pattern :: patterns' =>
      let output :=
        run_command ["journalctl"; "--since"; since; "--no-pager";
                     "-o"; "short-iso"; "--grep"; pattern;
                     "--case-sensitive=false"] 20 in
      state' ← workload_lines (splitlines output) state;
      workload_patterns since patterns' state'
  end.

Definition grep_patterns : list string :=
  ["cuda|hip|rocm|nccl";
   "ollama|vllm|llama|triton|tensorrt";
   "fwi|devito|seismic|gromacs|namd|openmm";
   "gpu.hang|gpu.reset|throttl|oom.kill";
   "stable.diffusion|comfyui|steam.*error|dxvk|vkd3d"].

(** [GpuCollector._collect_workload_journal] *)
Definition _collect_workload_journal (since : string) : res (list base.LogEntry) :=
  state ← workload_patterns since grep_patterns ([], ∅);
  Ret state.1.

End collector.

End gpu.

Module nas.

Definition _LEVEL_RE_source : string :=
  "\b(emerg|alert|crit|err|warning|notice|info|debug)\b".

Definition _LEVEL_RE : re.Pattern :=
  Eval vm_compute in re.compiled (re.compile _LEVEL_RE_source re.IGNORECASE).

Definition _parse_level (line : string) : res string :=
  match re.search _LEVEL_RE line with
  | Some m => re.group_lower m 1
  | None => Ret "info"
  end.

End nas.

(* ===================================================================== *)
(** ** templates/store.py                                                 *)
(* ===================================================================== *)

Module store.

Record InstructionRule : Type := {
  instruction : string;
  match_source : string;          (* substring match on LogEntry.source *)
  match_pattern : string;         (* regex match on LogEntry.raw *)
  match_levels : list string      (* e.g. ["err", "crit"] *)
}.

Record CustomSource : Type := {
  cs_name : string;
  path_glob : string;
  filter_pattern : string;
  default_level : string
}.

Record Template : Type := {
  name : string;
  description : string;
  instruction_rules : list InstructionRule;
  custom_sources : list CustomSource
}.

Section with_library.
Context `{L : re.RegexLibrary}.

(** [InstructionRule.matches] *)
Definition matches (self : InstructionRule) (source raw level : string) : res bool :=
  if truthy (match_source self)
     && negb (contains (lower (match_source self)) (lower source))
  then Ret false
  else if truthy_list (match_levels self)
          && negb (in_list (lower level) (lower <$> match_levels self))
  then Ret false
  else if truthy (match_pattern self) then
    try_except
      (m ← re.re_search (match_pattern self) raw re.IGNORECASE;
       if negb m then Ret false else Ret true)
      [re_error]
      (Ret false)
  else Ret true.

(** The loop of [Template.resolve_instruction]. *)
Fixpoint resolve_rules (rules : list InstructionRule) (source raw level : string)
  : res string :=
  match rules with
  | [] => Ret ""
  | rule :: rules' =>
      b ← matches rule source raw level;
      if b : bool then Ret (instruction rule)
      else resolve_rules rules' source raw level
  end.

(** [Template.resolve_instruction] *)
Definition resolve_instruction (self : Template) (source raw level : string)
  : res string :=
  resolve_rules (instruction_rules self) source raw level.

End with_library.

(** *** The template store

    The documents the store writes: the part of JSON that [asdict] of a
    template produces.  A dictionary keeps its keys in order. *)
#[warnings="-register-all"]
Inductive json : Type :=
| JStr (s : string)
| JList (items : list json)
| JDict (fields : list (string * json)).

Definition asdict_rule (r : InstructionRule) : json :=
  JDict [("instruction", JStr (instruction r));
         ("match_source", JStr (match_source r));
         ("match_pattern", JStr (match_pattern r));
         ("match_levels", JList (JStr <$> match_levels r))].

Definition asdict_source (c : CustomSource) : json :=
  JDict [("name", JStr (cs_name c));
         ("path_glob", JStr (path_glob c));
         ("filter_pattern", JStr (filter_pattern c));
         ("default_level", JStr (default_level c))].

(** [asdict(t)] *)
Definition asdict (t : Template) : json :=
  JDict [("name", JStr (name t));
         ("description", JStr (description t));
         ("instruction_rules", JList (asdict_rule <$> instruction_rules t));
         ("custom_sources", JList (asdict_source <$> custom_sources t))].

(** The files on disk, by path, and the paths that can be written. *)
Record Disk : Type := {
  files : gmap string json;
  writable : string -> bool
}.

Record TemplateStore : Type := {
  _path : string;
  _templates : list Template
}.

(** [TemplateStore.all] *)
Definition all (self : TemplateStore) : list Template := _templates self.

(** The loop of [TemplateStore.get]. *)
Fixpoint get_loop (templates : list Template) (n : string) : option Template :=
  match templates with
  | [] => None
  | t :: templates' => if String.eqb (name t) n then Some t else get_loop templates' n
  end.

(** [TemplateStore.get] *)
Definition get (self : TemplateStore) (n : string) : option Template :=
  get_loop (_templates self) n.

(** [TemplateStore._persist]: the whole list is written to the store's
    path; opening the file for writing can fail. *)
Definition _persist (self : TemplateStore) (disk : Disk) : res Disk :=
  if writable disk (_path self)
  then Ret {| files := <[_path self := JList (asdict <$> _templates self)]> (files disk);
              writable := writable disk |}
  else Raise OSError.

(** [TemplateStore.save_template]: the store as the call leaves it, and the
    disk or the exception of the write. *)
Definition save_template (self : TemplateStore) (disk : Disk) (template : Template)
  : TemplateStore * res Disk :=
  let self1 :=
    {| _path := _path self;
       _templates := filter (fun t => name t <> name template) (_templates self) |} in
  let self2 :=
    {| _path := _path self1; _templates := _templates self1 ++ [template] |} in
  (self2, _persist self2 disk).

(** [TemplateStore.delete] *)
Definition delete (self : TemplateStore) (disk : Disk) (n : string)
  : TemplateStore * res (bool * Disk) :=
  let before := length (_templates self) in
  let self1 :=
    {| _path := _path self;
       _templates := filter (fun t => name t <> n) (_templates self) |} in
  if length (_templates self1) <? before
  then (self1, disk' ← _persist self1 disk; Ret (true, disk'))
  else (self1, Ret (false, disk)).

End store.


(* ===================================================================== *)
(** ** collectors/custom.py                                               *)
(* ===================================================================== *)

Module custom.

Section with_library.

(** The library's compiled patterns: [re.compile(pattern, flags)], which
    may raise, and the truth value of [compiled.search(text)]. *)
Variable Compiled : Type.
Variable re_compile : string -> re.flags -> res Compiled.
Variable compiled_search : Compiled -> string -> bool.

(** [sorted(globmod.glob(path_glob))] *)
Variable sorted_glob : string -> list string.

(** [open(path, encoding="utf-8", errors="replace")] followed by
    [fh.readlines()]. *)
Variable readlines : string -> res (list string).

(** Lines 32-37: the filter of a source, [None] when it has none or when
    its pattern is not a valid one. *)
Definition compile_filter (src : store.CustomSource) : res (option Compiled) :=
  if truthy (store.filter_pattern src) then
    try_except
      (pattern ← re_compile (store.filter_pattern src) re.IGNORECASE;
       Ret (Some pattern))
      [re_error]
      (Ret None)
  else Ret None.

(** The loop over the lines of one file. *)
Fixpoint lines_loop (src : store.CustomSource) (pattern : option Compiled)
    (lines : list string) (entries : list base.LogEntry) : list base.LogEntry :=
  match lines with
  | [] => entries
  | line :: lines' =>
      let line := strip line in
      if negb (truthy line) then lines_loop src pattern lines' entries
      else if match pattern with
              | Some compiled => negb (compiled_search compiled line)
              | None => false
              end
      then lines_loop src pattern lines' entries
      else lines_loop src pattern lines'
             (entries ++ [{| base.source := "custom:" +:+ store.cs_name src;
                             base.message := line; base.raw := line;
                             base.timestamp := None;
                             base.level := store.default_level src;
                             base.extra := ∅ |}])
  end.

(** The loop over the files of a source: a file that cannot be read is
    passed over. *)
Fixpoint paths_loop (src : store.CustomSource) (pattern : option Compiled)
    (line_count : Z) (paths : list string) (entries : list base.LogEntry)
  : res (list base.LogEntry) :=
  match paths with
  | [] => Ret entries
  | path :: paths' =>
      match readlines path with
      | Ret lines =>
          paths_loop src pattern line_count paths'
            (lines_loop src pattern (slice_from (- line_count) lines) entries)
      | Raise e =>
          if bool_decide (e ∈ [OSError])
          then paths_loop src pattern line_count paths' entries
          else Raise e
      end
  end.

(** [CustomSourceCollector._collect_source] *)
Definition _collect_source (src : store.CustomSource) (line_count : Z)
  : res (list base.LogEntry) :=
  pattern ← compile_filter src;
  paths_loop src pattern line_count (sorted_glob (store.path_glob src)) [].

(** The loop of [collect]. *)
Fixpoint collect_loop (sources : list store.CustomSource) (line_count : Z)
    (entries : list base.LogEntry) : res (list base.LogEntry) :=
  match sources with
  | [] => Ret entries
  | src :: sources' =>
      found ← _collect_source src line_count;
      collect_loop sources' line_count (entries ++ found)
  end.

(** [CustomSourceCollector.collect] *)
Definition collect (sources : list store.CustomSource) (hours : Z)
  : res (list base.LogEntry) :=
  let line_count := Z.max 500 (hours * 100) in
  collect_loop sources line_count [].

End with_library.

End custom.

(* ===================================================================== *)
(** ** log_formatter.py                                                   *)
(* ===================================================================== *)

Module log_formatter.

Definition INSTRUCTION_MAP : gmap string string :=
  list_to_map [
    ("error", "Interpret the error message in the given log.");
    ("err", "Interpret the error message in the given log.");
    ("crit", "Interpret the error message in the given log.");
    ("alert", "Interpret the error message in the given log.");
    ("emerg", "Interpret the error message in the given log.");
    ("warning", "Analyze the potential issue described in this log entry.");
    ("warn", "Analyze the potential issue described in this log entry.")
  ].

Definition _DEFAULT_INSTRUCTION : string :=
  "Parse and summarize the information in this log entry.".

(** [d.get(key, default)] *)
Definition dict_get (d : gmap string string) (key dflt : string) : string :=
  default dflt (d !! key).

Section with_library.
Context `{L : re.RegexLibrary}.

Definition entry_to_loglm (entry : base.LogEntry) (template : option store.Template)
  : res (gmap string string) :=
  let instruction := "" in
  instruction ←
    match template with
    | Some t =>
        store.resolve_instruction t
          (base.source entry) (base.raw entry) (base.level entry)
    | None => Ret instruction
    end;
  let instruction :=
    if negb (truthy instruction)
    then dict_get INSTRUCTION_MAP (lower (base.level entry)) _DEFAULT_INSTRUCTION
    else instruction in
  Ret (<["Instruction" := instruction]>
         (<["Input" := base.raw entry]> (<["Response" := ""]> ∅))).

End with_library.

Section format_with_library.
Context `{L : re.RegexLibrary}.

(** [format_entries] *)
Definition format_entries (entries : list base.LogEntry)
    (template : option store.Template) : res (list (gmap string string)) :=
  mapM (fun e => entry_to_loglm e template) entries.

End format_with_library.

End log_formatter.

(* ===================================================================== *)
(** ** collectors/scout.py                                                *)
(* ===================================================================== *)

Module scout.

Definition _ERROR_RE_source : string :=
  "\b(emerg|alert|crit(?:ical)?|err(?:or)?|fail(?:ed|ure)?|panic|oops|oom|segfault|timeout|refused|denied)\b".

Definition _ERROR_RE : re.Pattern :=
  Eval vm_compute in re.compiled (re.compile _ERROR_RE_source re.IGNORECASE).

Definition _SKIP_SUFFIXES : gset string :=
  {[ ".gz"; ".xz"; ".bz2"; ".zst"; ".1"; ".2"; ".3"; ".4" ]}.
Definition _SKIP_NAMES : gset string :=
  {[ "btmp"; "wtmp"; "lastlog"; "faillog" ]}.

Record ScoutHit : Type := {
  source : string;
  line : string;
  keyword : string;
  timestamp : Z
}.

(** The words of [_ERROR_RE], in the order the matcher tries them. *)
Definition keywords : list string :=
  Eval vm_compute in str <$> re.words (re.body_of _ERROR_RE).

(** [LogScout._matches] *)
Definition _matches (line : string) : res (option string) :=
  match re.search _ERROR_RE line with
  | Some m => Some <$> re.group_lower m 1
  | None => Ret None
  end.

(** *** The directory as the operating system shows it *)

Record DirEntry : Type := {
  name : string;
  path : string;
  is_file : res bool
}.

(** What iterating [os.scandir(dir)] yields: entries, then the end of the
    directory or an exception. *)
Inductive scan : Type :=
| ScanEnd
| ScanEntry (entry : DirEntry) (rest : scan)
| ScanRaise (e : exn).

Record FileSystem : Type := {
  scandir : string -> scan;
  access_R_OK : string -> bool;
  (** [open(path, "r", encoding="utf-8")] followed by [fh.read(256)] *)
  read_prefix : string -> res unit
}.

(** The body of the [for] loop.  The list [results] is updated in place,
    so what was appended before an exception is still there afterwards:
    the loop returns the list together with the exception that left it. *)
Fixpoint discover_loop (fs : FileSystem) (it : scan) (results : list string)
  : list string * option exn :=
  match it with
  | ScanEnd => (results, None)
  | ScanRaise e => (results, Some e)
  | ScanEntry entry rest =>
      match is_file entry with
      | Raise e => (results, Some e)
      | Ret false => discover_loop fs rest results
      | Ret true =>
          if bool_decide (name entry ∈ _SKIP_NAMES) then discover_loop fs rest results
          else if existsb (endswith (name entry)) (elements _SKIP_SUFFIXES)
          then discover_loop fs rest results
          else if access_R_OK fs (path entry) then
            match read_prefix fs (path entry) with
            | Ret _ => discover_loop fs rest (results ++ [path entry])
            | Raise e =>
                if bool_decide (e ∈ [UnicodeDecodeError; OSError])
                then discover_loop fs rest results
                else (results, Some e)
            end
          else discover_loop fs rest results
      end
  end.

(** [LogScout._discover_log_files] *)
Definition _discover_log_files (fs : FileSystem) (log_dir : string)
  : res (list string) :=
  let '(results, raised) := discover_loop fs (scandir fs log_dir) [] in
  match raised with
  | None => Ret results
  | Some e => if bool_decide (e ∈ [OSError]) then Ret results else Raise e
  end.

(** The entries an iteration yields. *)
Fixpoint scan_entries (it : scan) : list DirEntry :=
  match it with
  | ScanEntry entry rest => entry :: scan_entries rest
  | ScanEnd | ScanRaise _ => []
  end.

(** An entry that passes every test of the loop. *)
Definition eligible (fs : FileSystem) (entry : DirEntry) : Prop :=
  is_file entry = Ret true /\
  (name entry ∉ _SKIP_NAMES) /\
  (forall suffix, suffix ∈ _SKIP_SUFFIXES -> endswith (name entry) suffix = false) /\
  access_R_OK fs (path entry) = true /\
  read_prefix fs (path entry) = Ret tt.

(** *** Watchers recording hits

    A watcher is a thread that calls [_record] for each noteworthy line it
    reads.  Its program is the list of those calls, each with the clock
    reading that becomes the hit's timestamp. *)
Record call : Type := {
  c_source : string;
  c_line : string;
  c_keyword : string;
  c_now : Z
}.

(** Line 109: the hit built from the arguments. *)
Definition make_hit (c : call) : ScoutHit :=
  {| source := c_source c; line := strip (c_line c);
     keyword := c_keyword c; timestamp := c_now c |}.

(** Where a thread stands inside [_record].  The append is split into
    reading the list and writing the extended list back, so that the
    interleavings include those of an append that is not atomic. *)
Inductive pc : Type :=
| Idle
| Built (hit : ScoutHit)
| Locked (hit : ScoutHit)
| Loaded (hit : ScoutHit) (seen : list ScoutHit)
| Stored (hit : ScoutHit)
| Released (hit : ScoutHit).

Record thread : Type := Thread {
  pending : list call;
  at_pc : pc
}.

Record state : Type := State {
  _hits : list ScoutHit;
  _lock : option nat;
  threads : list thread
}.

Definition set_thread (i : nat) (th : thread) (s : state) : state :=
  State (_hits s) (_lock s) (<[i := th]> (threads s)).

Inductive step : state -> state -> Prop :=
| step_build s i c rest :
    threads s !! i = Some (Thread (c :: rest) Idle) ->
    step s (set_thread i (Thread rest (Built (make_hit c))) s)
| step_acquire s i rest hit :
    threads s !! i = Some (Thread rest (Built hit)) ->
    _lock s = None ->
    step s (State (_hits s) (Some i) (<[i := Thread rest (Locked hit)]> (threads s)))
| step_load s i rest hit :
    threads s !! i = Some (Thread rest (Locked hit)) ->
    step s (set_thread i (Thread rest (Loaded hit (_hits s))) s)
| step_store s i rest hit seen :
    threads s !! i = Some (Thread rest (Loaded hit seen)) ->
    step s (State (seen ++ [hit]) (_lock s) (<[i := Thread rest (Stored hit)]> (threads s)))
| step_release s i rest hit :
    threads s !! i = Some (Thread rest (Stored hit)) ->
    step s (State (_hits s) None (<[i := Thread rest (Released hit)]> (threads s)))
| step_callback s i rest hit :
    threads s !! i = Some (Thread rest (Released hit)) ->
    step s (set_thread i (Thread rest Idle) s).

(** [run] clears the hit list and starts the threads. *)
Definition start (programs : list (list call)) : state :=
  State [] None (map (fun p => Thread p Idle) programs).

Definition finished (s : state) : Prop :=
  Forall (fun th => th = Thread [] Idle) (threads s).

(** [out] is a merge of the lists [D]: it is built by appending, one at a
    time, the next element of one of them. *)
Inductive merge_of {A : Type} : list (list A) -> list A -> Prop :=
| merge_nil D : Forall (fun d => d = []) D -> merge_of D []
| merge_snoc D i d x out :
    D !! i = Some d -> merge_of D out ->
    merge_of (<[i := d ++ [x]]> D) (out ++ [x]).

(** The hits a watcher emits, in the order it emits them. *)
Definition hits_of (program : list call) : list ScoutHit := make_hit <$> program.

(** The hit a thread has built and not yet written to the list. *)
Definition in_flight (p : pc) : list ScoutHit :=
  match p with
  | Built hit | Locked hit | Loaded hit _ => [hit]
  | Idle | Stored _ | Released _ => []
  end.

(** The hits a thread has still to add. *)
Definition remaining (th : thread) : list ScoutHit :=
  in_flight (at_pc th) ++ (make_hit <$> pending th).

(** The thread is inside the [with self._lock] block. *)
Definition holds_lock (p : pc) : bool :=
  match p with
  | Locked _ | Loaded _ _ | Stored _ => true
  | Idle | Built _ | Released _ => false
  end.

(** The number of steps a thread has still to take. *)
Definition steps_left (th : thread) : nat :=
  6 * length (pending th) +
  match at_pc th with
  | Idle => 0
  | Built _ => 5
  | Locked _ => 4
  | Loaded _ _ => 3
  | Stored _ => 2
  | Released _ => 1
  end.

Definition work_left (s : state) : nat := sum_list (steps_left <$> threads s).

(** Each thread's hits are those already in the list, as [D] records them
    per thread, followed by those the thread has still to add. *)
Definition accounted (programs : list (list call)) (D : list (list ScoutHit))
    (ts : list thread) : Prop :=
  length D = length programs /\ length ts = length programs /\
  forall i p d th,
    programs !! i = Some p -> D !! i = Some d -> ts !! i = Some th ->
    make_hit <$> p = d ++ remaining th.

(** What holds of every state that a run from [start programs] reaches. *)
Definition invariant (programs : list (list call)) (s : state) : Prop :=
  exists D : list (list ScoutHit),
    merge_of D (_hits s) /\
    accounted programs D (threads s) /\
    (forall i th, threads s !! i = Some th ->
                  holds_lock (at_pc th) = true -> _lock s = Some i) /\
    (forall i, _lock s = Some i ->
               exists th, threads s !! i = Some th /\ holds_lock (at_pc th) = true) /\
    (forall i rest hit seen,
       threads s !! i = Some (Thread rest (Loaded hit seen)) -> seen = _hits s).

(** *** The result of a session *)

Record ScoutResult : Type := {
  duration_seconds : Z;
  hits : list ScoutHit
}.

(** [grouped.setdefault(key, []).append(hit)] on a dictionary that keeps
    its keys in insertion order. *)
Fixpoint setdefault_append (key : string) (hit : ScoutHit)
    (grouped : list (string * list ScoutHit)) : list (string * list ScoutHit) :=
  match grouped with
  | [] => [(key, [hit])]
  | (k, group) :: grouped' =>
      if String.eqb k key then (k, group ++ [hit]) :: grouped'
      else (k, group) :: setdefault_append key hit grouped'
  end.

(** [ScoutResult.sources] *)
Definition sources (self : ScoutResult) : list (string * list ScoutHit) :=
  foldl (fun grouped hit => setdefault_append (source hit) hit grouped) [] (hits self).

(** [ScoutResult.total] *)
Definition total (self : ScoutResult) : nat := length (hits self).

(** [d.get(key)] on such a dictionary. *)
Fixpoint dict_lookup (key : string) (d : list (string * list ScoutHit))
  : option (list ScoutHit) :=
  match d with
  | [] => None
  | (k, group) :: d' => if String.eqb k key then Some group else dict_lookup key d'
  end.

(** *** The watchers' loops

    What one [readline()] gives a watcher: a line, empty at the end of the
    data, together with the clock reading that a hit for it would carry, or
    an exception. *)
Inductive reading : Type :=
| ReadLine (text : string) (now : Z)
| ReadRaise (e : exn).

(** The loop of [_tail_file] over the readings made before the stop flag is
    found set: the calls of [_record] made so far, and the exception that
    left the loop, if any.  An empty reading is followed by a short sleep. *)
Fixpoint tail_loop (path : string) (readings : list reading) (calls : list call)
  : list call * option exn :=
  match readings with
  | [] => (calls, None)
  | ReadRaise e :: _ => (calls, Some e)
  | ReadLine text now :: readings' =>
      if truthy text then
        match _matches text with
        | Raise e => (calls, Some e)
        | Ret (Some kw) =>
            if truthy kw
            then tail_loop path readings'
                   (calls ++ [{| c_source := path; c_line := text;
                                 c_keyword := kw; c_now := now |}])
            else tail_loop path readings' calls
        | Ret None => tail_loop path readings' calls
        end
      else tail_loop path readings' calls
  end.

(** [LogScout._tail_file]: [opened] is the outcome of opening the file and
    seeking to its end.  The calls made before an exception stay made. *)
Definition _tail_file (opened : res unit) (path : string) (readings : list reading)
  : list call * res unit :=
  match opened with
  | Raise e => ([], if bool_decide (e ∈ [OSError]) then Ret tt else Raise e)
  | Ret _ =>
      let '(calls, raised) := tail_loop path readings [] in
      (calls,
       match raised with
       | None => Ret tt
       | Some e => if bool_decide (e ∈ [OSError]) then Ret tt else Raise e
       end)
  end.

(** The loop of [_watch_journal]: it ends at the first empty reading. *)
Fixpoint journal_loop (readings : list reading) (calls : list call)
  : list call * option exn :=
  match readings with
  | [] => (calls, None)
  | ReadRaise e :: _ => (calls, Some e)
  | ReadLine text now :: readings' =>
      if negb (truthy text) then (calls, None)
      else
        match _matches text with
        | Raise e => (calls, Some e)
        | Ret (Some kw) =>
            if truthy kw
            then journal_loop readings'
                   (calls ++ [{| c_source := "journalctl"; c_line := text;
                                 c_keyword := kw; c_now := now |}])
            else journal_loop readings' calls
        | Ret None => journal_loop readings' calls
        end
  end.

End scout.


(* ===================================================================== *)
(** ** The classifiers on text of any code points                         *)
(* ===================================================================== *)

(** The two classifiers once more, on lines given by their code points, so
    that a line may hold characters beyond code point 255.  The patterns
    are the compiled patterns of the modules above. *)
Module wide.

Definition text : Type := list N.

(** The text of a literal. *)
Definition of_string (s : string) : text := code <$> chars s.

(** The lower-case code point below 256 that a code point stands for when a
    [str] pattern ignores case, and the code point itself when there is
    none: the simple lower-case mapping of the interpreter together with its
    table of code points that share an upper case (the dotless i, the long
    s, the Greek mu). *)
Definition fold_case (c : N) : N :=
  if ((65 <=? c) && (c <=? 90) || (192 <=? c) && (c <=? 214)
      || (216 <=? c) && (c <=? 222))%N then (c + 32)%N
  else if ((c =? 304) || (c =? 305))%N then 105%N
  else if (c =? 383)%N then 115%N
  else if (c =? 8490)%N then 107%N
  else if (c =? 8491)%N then 229%N
  else if (c =? 7838)%N then 223%N
  else if (c =? 376)%N then 255%N
  else if ((c =? 924) || (c =? 956))%N then 181%N
  else c.

(** Whether the pattern character [p] matches the code point [c]. *)
Definition lit_matches (f : re.flags) (p : ascii) (c : N) : bool :=
  if f then (fold_case c =? fold_case (code p))%N else (c =? code p)%N.

(** The code points beyond 255 that match [p] when case is ignored. *)
Definition beyond (p : ascii) : list N :=
  filter (fun c => lit_matches re.IGNORECASE p c = true)
         [304; 305; 383; 8490; 8491; 7838; 376; 924; 956]%N.

(** The interpreter's character tables: the class [\w] of [str] patterns
    and [str.lower].  Of the tables themselves three facts are used: on
    the code points below 256 they are the tables of module [py]; and the
    four letters beyond them that match an ASCII letter when case is
    ignored (the dotted capital I, the dotless i, the long s and the
    Kelvin sign) are word characters. *)
Class Tables : Type := {
  is_word : N -> bool;
  str_lower : text -> text;
  is_word_below_256 : forall a : ascii, is_word (code a) = is_word_char a;
  is_word_beyond :
    Forall (fun c => is_word c = true) [304; 305; 383; 8490]%N;
  str_lower_below_256 :
    forall w : list ascii, str_lower (code <$> w) = code <$> lower_chars w
}.

Section with_tables.
Context `{T : Tables}.

(** The matcher's position in the text, as in module [re]. *)
Record mstate : Type := MState {
  ms_prev : option N;
  ms_rest : text;
  ms_groups : list (nat * text)
}.

Definition is_word_opt (o : option N) : bool :=
  match o with Some c => is_word c | None => false end.

Definition at_boundary (st : mstate) : bool :=
  xorb (is_word_opt (ms_prev st)) (is_word_opt (head (ms_rest st))).

Definition advance (c : N) (cs : text) (st : mstate) : mstate :=
  {| ms_prev := Some c; ms_rest := cs; ms_groups := ms_groups st |}.

Definition consumed (st st' : mstate) : text :=
  take (length (ms_rest st) - length (ms_rest st')) (ms_rest st).

Definition set_group (n : nat) (w : text) (st : mstate) : mstate :=
  {| ms_prev := ms_prev st; ms_rest := ms_rest st;
     ms_groups := (n, w) :: ms_groups st |}.

Fixpoint exec (f : re.flags) (r : re.regex) (st : mstate)
    (k : mstate -> option mstate) : option mstate :=
  match r with
  | re.Empty => k st
  | re.Lit p =>
      match ms_rest st with
      | c :: cs => if lit_matches f p c then k (advance c cs st) else None
      | [] => None
      end
  | re.AnyChar =>
      match ms_rest st with
      | c :: cs => if (c =? 10)%N then None else k (advance c cs st)
      | [] => None
      end
  | re.WordBoundary => if at_boundary st then k st else None
  | re.Cat r1 r2 => exec f r1 st (fun st1 => exec f r2 st1 k)
  | re.Alt r1 r2 =>
      match exec f r1 st k with
      | Some m => Some m
      | None => exec f r2 st k
      end
  | re.Opt r1 =>
      match exec f r1 st k with
      | Some m => Some m
      | None => k st
      end
  | re.Group n r1 => exec f r1 st (fun st1 => k (set_group n (consumed st st1) st1))
  end.

Record Match : Type := {
  m_start : nat;
  m_end : nat;
  m_groups : list (nat * text)
}.

Definition match_here (p : re.Pattern) (prev : option N) (rest : text)
  : option mstate :=
  exec (re.pat_flags p) (re.pat_regex p) (MState prev rest []) Some.

Fixpoint search_from (p : re.Pattern) (prev : option N) (rest : text)
    (start : nat) : option Match :=
  match match_here p prev rest with
  | Some st =>
      Some {| m_start := start;
              m_end := start + (length rest - length (ms_rest st));
              m_groups := ms_groups st |}
  | None =>
      match rest with
      | [] => None
      | c :: rest' => search_from p (Some c) rest' (S start)
      end
  end.

(** [pattern.search(line)] *)
Definition search (p : re.Pattern) (line : text) : option Match :=
  search_from p None line 0.

Fixpoint assoc (n : nat) (l : list (nat * text)) : option text :=
  match l with
  | [] => None
  | (i, w) :: l' => if Nat.eqb i n then Some w else assoc n l'
  end.

(** [m.group(n)] *)
Definition group (m : Match) (n : nat) : option text := assoc n (m_groups m).

(** [m.group(n).lower()] *)
Definition group_lower (m : Match) (n : nat) : res text :=
  match group m n with
  | Some g => Ret (str_lower g)
  | None => Raise AttributeError
  end.

(** [_parse_level] of [collectors/general.py], [gpu.py] and [nas.py] *)
Definition _parse_level (line : text) : res text :=
  match search general._LEVEL_RE line with
  | Some m => group_lower m 1
  | None => Ret (of_string "info")
  end.

(** [LogScout._matches] *)
Definition _matches (line : text) : res (option text) :=
  match search scout._ERROR_RE line with
  | Some m => Some <$> group_lower m 1
  | None => Ret None
  end.

(** What a pattern denotes, as in module [re]. *)
Inductive den (f : re.flags) : re.regex -> mstate -> mstate -> Prop :=
| den_empty st : den f re.Empty st st
| den_lit p c cs st :
    ms_rest st = c :: cs -> lit_matches f p c = true ->
    den f (re.Lit p) st (advance c cs st)
| den_any c cs st :
    ms_rest st = c :: cs -> (c =? 10)%N = false ->
    den f re.AnyChar st (advance c cs st)
| den_boundary st : at_boundary st = true -> den f re.WordBoundary st st
| den_cat r1 r2 st st1 st2 :
    den f r1 st st1 -> den f r2 st1 st2 -> den f (re.Cat r1 r2) st st2
| den_alt_l r1 r2 st st' : den f r1 st st' -> den f (re.Alt r1 r2) st st'
| den_alt_r r1 r2 st st' : den f r2 st st' -> den f (re.Alt r1 r2) st st'
| den_opt_some r st st' : den f r st st' -> den f (re.Opt r) st st'
| den_opt_none r st : den f (re.Opt r) st st
| den_group n r st st1 :
    den f r st st1 -> den f (re.Group n r) st (set_group n (consumed st st1) st1).

Definition prev_after (prev : option N) (w : text) : option N :=
  match last w with
  | Some c => Some c
  | None => prev
  end.

(** [w] spells the word [kw]: code point by code point it matches the
    characters of [kw] when case is ignored. *)
Definition spells (kw : list ascii) (w : text) : Prop :=
  Forall2 (fun p c => lit_matches re.IGNORECASE p c = true) kw w.

(** [w] is a whole-word token of the line at offset [i]: it spells one of
    [kws], and the code points around it, if any, are not word
    characters. *)
Definition occurs (kws : list (list ascii)) (line : text) (i : nat) (w : text)
  : Prop :=
  exists pre post,
    line = pre ++ w ++ post /\ length pre = i /\
    (exists kw, kw ∈ kws /\ spells kw w) /\
    is_word_opt (last pre) = false /\ is_word_opt (head post) = false.

Definition token_at (kws : list string) (line : text) (i : nat) (w : text) : Prop :=
  occurs (chars <$> kws) line i w.

End with_tables.

End wide.

(* ===================================================================== *)
(** ** Sets named by the specification                                    *)
(* ===================================================================== *)

Module spec.

(** The closed level enumeration of the specification's data model. *)
Definition LogLevel : list string :=
  ["emerg"; "alert"; "crit"; "err"; "warning"; "notice"; "info"; "debug"].

(** The keyword set the specification lists for the noteworthy check. *)
Definition noteworthy : list string :=
  ["emerg"; "alert"; "critical"; "crit"; "error"; "err"; "failed"; "failure";
   "panic"; "oops"; "oom"; "segfault"; "timeout"; "refused"; "denied"].

(** The pattern that exactly this keyword set would be checked by. *)
Definition noteworthy_pattern : re.Pattern :=
  Eval vm_compute in re.compiled (re.compile
    "\b(emerg|alert|critical|crit|error|err|failed|failure|panic|oops|oom|segfault|timeout|refused|denied)\b"
    re.IGNORECASE).

(** The rotated or compressed suffixes and the blocked names it lists. *)
Definition skip_suffixes : list string :=
  [".gz"; ".xz"; ".bz2"; ".zst"; ".1"; ".2"; ".3"; ".4"].
Definition skip_names : list string := ["btmp"; "wtmp"; "lastlog"; "faillog"].

End spec.

(* ===================================================================== *)
(** ** Sample data                                                        *)
(* ===================================================================== *)

Module examples.

Definition rule_levels : store.InstructionRule :=
  {| store.instruction := "Interpret the error.";
     store.match_source := ""; store.match_pattern := "";
     store.match_levels := ["err"; "crit"] |}.

Definition rule_specific : store.InstructionRule :=
  {| store.instruction := "Analyze this storage error.";
     store.match_source := "KERN"; store.match_pattern := "disk|i/o";
     store.match_levels := ["err"] |}.

Definition rule_auth : store.InstructionRule :=
  {| store.instruction := "Interpret this authentication failure.";
     store.match_source := "auth"; store.match_pattern := "";
     store.match_levels := [] |}.

Definition rule_unbalanced : store.InstructionRule :=
  {| store.instruction := "Never chosen.";
     store.match_source := ""; store.match_pattern := "(";
     store.match_levels := [] |}.

(** A pattern that the library refuses with [OverflowError]. *)
Definition rule_huge_repeat : store.InstructionRule :=
  {| store.instruction := "Never chosen.";
     store.match_source := ""; store.match_pattern := "a{99999999999}";
     store.match_levels := [] |}.

Definition rule_silent : store.InstructionRule :=
  {| store.instruction := "";
     store.match_source := "kern"; store.match_pattern := "";
     store.match_levels := [] |}.

Definition template_of (rules : list store.InstructionRule) : store.Template :=
  {| store.name := "sample"; store.description := "";
     store.instruction_rules := rules; store.custom_sources := [] |}.

Definition entry_disk : base.LogEntry :=
  {| base.source := "/var/log/kern.log";
     base.message := "sda: Disk failure";
     base.raw := "sda: Disk failure";
     base.timestamp := None; base.level := "ERR"; base.extra := ∅ |}.

Definition entry_debug : base.LogEntry :=
  {| base.source := "journalctl:errors";
     base.message := "started";
     base.raw := "started";
     base.timestamp := None; base.level := "debug"; base.extra := ∅ |}.

Definition file (dir name : string) : scout.DirEntry :=
  {| scout.name := name; scout.path := dir +:+ "/" +:+ name;
     scout.is_file := Ret true |}.

Definition subdirectory (dir name : string) : scout.DirEntry :=
  {| scout.name := name; scout.path := dir +:+ "/" +:+ name;
     scout.is_file := Ret false |}.

(** A log directory with live logs, rotated and compressed logs, login
    accounting files, a subdirectory, an unreadable file and a binary file;
    every other directory is missing. *)
Definition var_log : scout.FileSystem :=
  {| scout.scandir := fun dir =>
       if String.eqb dir "/var/log" then
         scout.ScanEntry (file dir "syslog")
           (scout.ScanEntry (file dir "syslog.1")
           (scout.ScanEntry (file dir "btmp")
           (scout.ScanEntry (file dir "auth.log.gz")
           (scout.ScanEntry (subdirectory dir "journal")
           (scout.ScanEntry (file dir "kern.log")
           (scout.ScanEntry (file dir "tallylog")
           (scout.ScanEntry (file dir "messages") scout.ScanEnd)))))))
       else scout.ScanRaise OSError;
     scout.access_R_OK := fun path => negb (String.eqb path "/var/log/kern.log");
     scout.read_prefix := fun path =>
       if String.eqb path "/var/log/tallylog" then Raise UnicodeDecodeError
       else Ret tt |}.

Definition hit_of (source keyword : string) (now : Z) : scout.call :=
  {| scout.c_source := source; scout.c_line := "  " +:+ keyword +:+ " seen ";
     scout.c_keyword := keyword; scout.c_now := now |}.

(** Two watchers with two noteworthy lines each. *)
Definition two_watchers : list (list scout.call) :=
  [ [hit_of "journalctl" "error" 1; hit_of "journalctl" "oom" 4];
    [hit_of "/var/log/syslog" "failed" 2; hit_of "/var/log/syslog" "panic" 3] ].

Definition template_gpu : store.Template :=
  {| store.name := "gpu"; store.description := "GPU faults";
     store.instruction_rules := [rule_specific]; store.custom_sources := [] |}.

Definition template_auth : store.Template :=
  {| store.name := "auth"; store.description := "";
     store.instruction_rules := [rule_auth]; store.custom_sources := [] |}.

Definition template_gpu_v2 : store.Template :=
  {| store.name := "gpu"; store.description := "GPU faults, revised";
     store.instruction_rules := [rule_levels; rule_specific];
     store.custom_sources := [] |}.

Definition sample_store : store.TemplateStore :=
  {| store._path := "/home/u/.config/loglm_collector/templates.json";
     store._templates := [template_gpu; template_auth] |}.

Definition disk_ok : store.Disk :=
  {| store.files := ∅; store.writable := fun _ => true |}.

Definition disk_read_only : store.Disk :=
  {| store.files := ∅; store.writable := fun _ => false |}.

(** A library for the custom sources: the reader and matcher of module
    [re]. *)
Definition custom_compile (pattern : string) (f : re.flags) : res re.Pattern :=
  match re.compile pattern f with
  | Some compiled => Ret compiled
  | None => Raise re_error
  end.
Definition custom_search (compiled : re.Pattern) (text : string) : bool :=
  match re.search compiled text with Some _ => true | None => false end.

(** Two files match the glob; only the first can be read. *)
Definition app_glob (path_glob : string) : list string :=
  ["/srv/app/a.log"; "/srv/app/b.log"].
Definition app_readlines (path : string) : res (list string) :=
  if String.eqb path "/srv/app/a.log"
  then Ret ["  started  "; ""; "ERROR disk full"]
  else Raise OSError.

Definition source_bad_filter : store.CustomSource :=
  {| store.cs_name := "app"; store.path_glob := "/srv/app/*.log";
     store.filter_pattern := "("; store.default_level := "notice" |}.
Definition source_error_filter : store.CustomSource :=
  {| store.cs_name := "app"; store.path_glob := "/srv/app/*.log";
     store.filter_pattern := "error"; store.default_level := "notice" |}.

(** The interpreter's tables on the code points below 256 and on the four
    letters beyond them that match an ASCII letter when case is ignored;
    no other code point occurs in the examples. *)
Definition sample_is_word (c : N) : bool :=
  if (c <? 256)%N then is_word_char (ascii_of_N c)
  else existsb (N.eqb c) [304; 305; 383; 8490]%N.

Definition sample_lower_point (c : N) : list N :=
  if (c <? 256)%N then [code (lower_char (ascii_of_N c))]
  else if (c =? 304)%N then [105; 775]%N
  else if (c =? 8490)%N then [107]%N
  else [c].

Definition sample_lower (w : wide.text) : wide.text := w ≫= sample_lower_point.

Definition sample_tables : wide.Tables.
Proof.
  refine {| wide.is_word := sample_is_word; wide.str_lower := sample_lower |}.
  - intros a. unfold sample_is_word, code.
    rewrite (proj2 (N.ltb_lt _ 256)) by apply N_ascii_bounded.
    by rewrite ascii_N_embedding.
  - repeat constructor.
  - intros w. unfold sample_lower.
    induction w as [|a w IH]; [done|].
    rewrite !fmap_cons, bind_cons, IH. unfold sample_lower_point, code at 1 2.
    rewrite (proj2 (N.ltb_lt _ 256)) by apply N_ascii_bounded.
    by rewrite ascii_N_embedding.
Defined.

End examples.

(* ===================================================================== *)
(** ** Facts about strings and characters                                 *)
(* ===================================================================== *)

Lemma str_chars (s : string) : str (chars s) = s.
Proof. apply string_of_list_ascii_of_string. Qed.

Lemma chars_str (l : list ascii) : chars (str l) = l.
Proof. apply list_ascii_of_string_of_list_ascii. Qed.

Lemma lower_str (l : list ascii) : lower (str l) = str (lower_chars l).
Proof. unfold lower. by rewrite chars_str. Qed.

Lemma truthy_true (s : string) : truthy s = true <-> s <> "".
Proof. destruct s; simpl; split; congruence. Qed.

Lemma truthy_false (s : string) : truthy s = false <-> s = "".
Proof. destruct s; simpl; split; congruence. Qed.

Lemma ascii_eqb_true (a b : ascii) : Ascii.eqb a b = true <-> a = b.
Proof. apply Ascii.eqb_eq. Qed.

Lemma starts_with_spec (p l : list ascii) :
  starts_with p l = true <-> exists post, l = p ++ post.
Proof.
  revert l. induction p as [|a p IH]; intros l; simpl.
  - split; [intros _; by exists l | done].
  - destruct l as [|b l].
    + split; [done | intros [post E]; discriminate].
    + destruct (Ascii.eqb a b) eqn:Eab.
      * apply ascii_eqb_true in Eab as ->. rewrite IH.
        split; intros [post E]; exists post; congruence.
      * split; [done |]. intros [post E]. injection E as -> _.
        by rewrite Ascii.eqb_refl in Eab.
Qed.

Lemma contains_chars_spec (sub l : list ascii) :
  contains_chars sub l = true <-> exists pre post, l = pre ++ sub ++ post.
Proof.
  induction l as [|c l IH]; simpl.
  - destruct (starts_with sub []) eqn:E.
    + apply starts_with_spec in E as [post Hp]. split; [|done].
      intros _. by exists [], post.
    + split; [done |]. intros (pre & post & Hp).
      destruct pre; [| discriminate]. simpl in Hp.
      assert (starts_with sub [] = true) by (apply starts_with_spec; eauto).
      congruence.
  - destruct (starts_with sub (c :: l)) eqn:E.
    + apply starts_with_spec in E as [post Hp]. split; [|done].
      intros _. by exists [], post.
    + rewrite IH. split.
      * intros (pre & post & ->). by exists (c :: pre), post.
      * intros (pre & post & Hp). destruct pre as [|c' pre].
        -- simpl in Hp.
           assert (starts_with sub (c :: l) = true) by (apply starts_with_spec; eauto).
           congruence.
        -- injection Hp as -> ->. by exists pre, post.
Qed.

Lemma in_list_spec (x : string) (l : list string) : in_list x l = true <-> x ∈ l.
Proof.
  unfold in_list. rewrite existsb_exists. split.
  - intros (y & Hy & E). apply String.eqb_eq in E as ->. by apply list_elem_of_In.
  - intros Hx. exists x. split; [by apply list_elem_of_In | apply String.eqb_refl].
Qed.

Lemma lower_letter_is_word (c : ascii) :
  re.is_lower_letter (lower_char c) = true -> is_word_char c = true.
Proof.
  destruct c as [[] [] [] [] [] [] [] []]; vm_compute; congruence.
Qed.

Lemma keyword_like_word (w : list ascii) :
  re.keyword_like (lower_chars w) = true ->
  w <> [] /\ Forall (fun c => is_word_char c = true) w.
Proof.
  unfold re.keyword_like. intros [Hne Hall]%andb_true_iff. split.
  - destruct w; [done | discriminate].
  - clear Hne. induction w as [|c w IH]; [constructor|].
    cbn in Hall. apply andb_true_iff in Hall as [Hc Hw].
    constructor; [by apply lower_letter_is_word | by apply IH].
Qed.

(* ===================================================================== *)
(** ** The matcher against the denotation                                 *)
(* ===================================================================== *)

Section matcher.
Import re.
Variable f : flags.

Lemma exec_sound (r : regex) :
  forall st k m, exec f r st k = Some m ->
  exists st', den f r st st' /\ k st' = Some m.
Proof.
  induction r as [| p | | | r1 IH1 r2 IH2 | r1 IH1 r2 IH2 | r1 IH1 | n r1 IH1];
    intros st k m; simpl.
  - intros Hk. exists st. split; [constructor | done].
  - destruct (ms_rest st) as [|c cs] eqn:Er; [done|].
    destruct (chr_eq f p c) eqn:Ec; [|done].
    intros Hk. exists (advance c cs st). split; [by constructor | done].
  - destruct (ms_rest st) as [|c cs] eqn:Er; [done|].
    destruct (code c =? 10)%N eqn:Ec; [done|].
    intros Hk. exists (advance c cs st). split; [by constructor | done].
  - destruct (at_boundary st) eqn:Eb; [|done].
    intros Hk. exists st. split; [by constructor | done].
  - intros H. apply IH1 in H as (st1 & D1 & H).
    apply IH2 in H as (st2 & D2 & H).
    exists st2. split; [by econstructor | done].
  - destruct (exec f r1 st k) as [m1|] eqn:E1.
    + intros [= ->]. apply IH1 in E1 as (st' & D & H).
      exists st'. split; [by apply den_alt_l | done].
    + intros H. apply IH2 in H as (st' & D & H).
      exists st'. split; [by apply den_alt_r | done].
  - destruct (exec f r1 st k) as [m1|] eqn:E1.
    + intros [= ->]. apply IH1 in E1 as (st' & D & H).
      exists st'. split; [by apply den_opt_some | done].
    + intros H. exists st. split; [apply den_opt_none | done].
  - intros H. apply IH1 in H as (st1 & D & H).
    exists (set_group n (consumed st st1) st1). split; [by constructor | done].
Qed.

Lemma exec_complete (r : regex) (st st' : mstate) :
  den f r st st' ->
  forall k, is_Some (k st') -> is_Some (exec f r st k).
Proof.
  induction 1 as [st | p c cs st Er Ec | c cs st Er Ec | st Eb
                 | r1 r2 st st1 st2 _ IH1 _ IH2 | r1 r2 st st' _ IH
                 | r1 r2 st st' _ IH | r st st' _ IH | r st
                 | n r st st1 _ IH]; intros k Hk; simpl.
  - done.
  - by rewrite Er, Ec.
  - by rewrite Er, Ec.
  - by rewrite Eb.
  - apply IH1. by apply IH2.
  - destruct (IH k Hk) as [m ->]. by eexists.
  - destruct (exec f r1 st k); [by eexists | by apply IH].
  - destruct (IH k Hk) as [m ->]. by eexists.
  - destruct (exec f r st k); [by eexists | done].
  - by apply IH.
Qed.

Lemma exec_None (r : regex) (st : mstate) (k : mstate -> option mstate) :
  exec f r st k = None <-> forall st', den f r st st' -> k st' = None.
Proof.
  split.
  - intros E st' D. destruct (k st') as [m|] eqn:Ek; [|done].
    destruct (exec_complete r st st' D k) as [m' E']; [by eexists | congruence].
  - intros H. destruct (exec f r st k) as [m|] eqn:E; [|done].
    apply exec_sound in E as (st' & D & Ek). rewrite (H st' D) in Ek. done.
Qed.

End matcher.

(* ===================================================================== *)
(** ** Plain patterns and whole-word patterns                             *)
(* ===================================================================== *)

Section plain_patterns.
Import re.

Lemma prev_after_app (prev : option ascii) (w1 w2 : list ascii) :
  prev_after prev (w1 ++ w2) = prev_after (prev_after prev w1) w2.
Proof.
  unfold prev_after. rewrite last_app. by destruct (last w2).
Qed.

Lemma chr_eq_ignorecase (p c : ascii) :
  chr_eq IGNORECASE p c = true <-> lower_char p = lower_char c.
Proof. unfold chr_eq, IGNORECASE. apply ascii_eqb_true. Qed.

(** A run of a plain pattern reads one of its words and captures nothing. *)
Lemma den_plain (r : regex) (st st' : mstate) :
  den IGNORECASE r st st' -> plain r = true ->
  exists w, ms_rest st = w ++ ms_rest st' /\ lower_chars w ∈ words r /\
            ms_groups st' = ms_groups st /\
            ms_prev st' = prev_after (ms_prev st) w.
Proof.
  induction 1 as [st | p c cs st Er Ec | c cs st Er Ec | st Eb
                 | r1 r2 st st1 st2 _ IH1 _ IH2 | r1 r2 st st' _ IH
                 | r1 r2 st st' _ IH | r st st' _ IH | r st
                 | n r st st1 _ IH]; simpl; intros Hp; try discriminate.
  - exists []. repeat split; [apply list_elem_of_singleton; done].
  - exists [c]. apply chr_eq_ignorecase in Ec.
    repeat split; [done | apply list_elem_of_singleton; cbn; by rewrite Ec].
  - apply andb_true_iff in Hp as [Hp1 Hp2].
    destruct (IH1 Hp1) as (w1 & E1 & M1 & G1 & P1).
    destruct (IH2 Hp2) as (w2 & E2 & M2 & G2 & P2).
    exists (w1 ++ w2). repeat split.
    + by rewrite E1, E2, app_assoc.
    + apply list_elem_of_bind. exists (lower_chars w1). split; [|done].
      apply list_elem_of_bind. exists (lower_chars w2). split; [|done].
      apply list_elem_of_singleton. unfold lower_chars. by rewrite fmap_app.
    + congruence.
    + by rewrite prev_after_app, <- P1.
  - apply andb_true_iff in Hp as [Hp1 Hp2].
    destruct (IH Hp1) as (w & E & M & G & P).
    exists w. repeat split; try done. apply elem_of_app. by left.
  - apply andb_true_iff in Hp as [Hp1 Hp2].
    destruct (IH Hp2) as (w & E & M & G & P).
    exists w. repeat split; try done. apply elem_of_app. by right.
  - destruct (IH Hp) as (w & E & M & G & P).
    exists w. repeat split; try done. apply elem_of_app. by left.
  - exists []. repeat split. apply elem_of_app. right.
    by apply list_elem_of_singleton.
Qed.

(** Conversely every spelling of a word of the pattern is a run. *)
Lemma plain_den (r : regex) :
  plain r = true ->
  forall w, lower_chars w ∈ words r ->
  forall prev rest g,
    den IGNORECASE r (MState prev (w ++ rest) g)
                     (MState (prev_after prev w) rest g).
Proof.
  induction r as [| p | | | r1 IH1 r2 IH2 | r1 IH1 r2 IH2 | r1 IH1 | n r1 IH1];
    simpl; intros Hp w Hw prev rest g; try discriminate.
  - apply list_elem_of_singleton in Hw. apply fmap_nil_inv in Hw as ->.
    constructor.
  - apply list_elem_of_singleton in Hw.
    destruct w as [|c [|c' w]]; try discriminate. injection Hw as Hc.
    apply (den_lit IGNORECASE p c rest (MState prev ([c] ++ rest) g)); [done|].
    by apply chr_eq_ignorecase.
  - apply andb_true_iff in Hp as [Hp1 Hp2].
    apply list_elem_of_bind in Hw as (a & Hw & Ha).
    apply list_elem_of_bind in Hw as (b & Hw & Hb).
    apply list_elem_of_singleton in Hw.
    apply fmap_app_inv in Hw as (w1 & w2 & -> & -> & ->).
    rewrite <- app_assoc, prev_after_app.
    eapply den_cat; [by apply IH1 | by apply IH2].
  - apply andb_true_iff in Hp as [Hp1 Hp2].
    apply elem_of_app in Hw as [Hw | Hw].
    + apply den_alt_l. by apply IH1.
    + apply den_alt_r. by apply IH2.
  - apply elem_of_app in Hw as [Hw | Hw].
    + apply den_opt_some. by apply IH1.
    + apply list_elem_of_singleton in Hw. apply fmap_nil_inv in Hw as ->.
      apply den_opt_none.
Qed.

End plain_patterns.

Section search_order.
Import re.
Variable P : Pattern.

Lemma prev_after_nil (prev : option ascii) : prev_after prev [] = prev.
Proof. done. Qed.

Lemma prev_after_cons (prev : option ascii) (c : ascii) (w : list ascii) :
  prev_after prev (c :: w) = prev_after (Some c) w.
Proof.
  change (c :: w) with ([c] ++ w). by rewrite prev_after_app.
Qed.

Lemma prev_after_None (w : list ascii) : prev_after None w = last w.
Proof. unfold prev_after. by destruct (last w). Qed.

(** No match anywhere: the search fails exactly when no start position
    has a match. *)
Lemma search_from_None (rest : list ascii) :
  forall prev start,
  search_from P prev rest start = None <->
  forall pre post, rest = pre ++ post ->
                   match_here P (prev_after prev pre) post = None.
Proof.
  induction rest as [|c rest IH]; intros prev start; simpl.
  - destruct (match_here P prev []) as [st|] eqn:E.
    + split; [done|]. intros H. specialize (H [] [] eq_refl).
      rewrite prev_after_nil in H. congruence.
    + split; [|done]. intros _ pre post Hpp.
      symmetry in Hpp. apply app_eq_nil in Hpp as [-> ->]. done.
  - destruct (match_here P prev (c :: rest)) as [st|] eqn:E.
    + split; [done|]. intros H. specialize (H [] (c :: rest) eq_refl).
      rewrite prev_after_nil in H. congruence.
    + rewrite IH. split.
      * intros H pre post Hpp. destruct pre as [|c' pre].
        -- simpl in Hpp. subst post. done.
        -- injection Hpp as <- ->. rewrite prev_after_cons. by apply H.
      * intros H pre post Hpp. rewrite <- (prev_after_cons prev).
        apply H. by rewrite Hpp.
Qed.

(** A match is reported at the leftmost start position that has one. *)
Lemma search_from_Some (rest : list ascii) :
  forall prev start m,
  search_from P prev rest start = Some m ->
  exists pre post st,
    rest = pre ++ post /\
    match_here P (prev_after prev pre) post = Some st /\
    m_start m = start + length pre /\
    m_groups m = ms_groups st /\
    forall pre' post', rest = pre' ++ post' -> length pre' < length pre ->
                       match_here P (prev_after prev pre') post' = None.
Proof.
  induction rest as [|c rest IH]; intros prev start m; simpl.
  - destruct (match_here P prev []) as [st|] eqn:E; [|done].
    intros [= <-]. exists [], [], st. simpl.
    repeat split; [done | lia | intros; lia].
  - destruct (match_here P prev (c :: rest)) as [st|] eqn:E.
    + intros [= <-]. exists [], (c :: rest), st. simpl.
      repeat split; [done | lia | intros; lia].
    + intros H. apply IH in H as (pre & post & st & -> & Hm & Hs & Hg & Hmin).
      exists (c :: pre), post, st. rewrite prev_after_cons. simpl.
      repeat split; [done | lia | done |].
      intros pre' post' Hpp Hlen. destruct pre' as [|c' pre'].
      * simpl in Hpp. subst post'. done.
      * injection Hpp as <- Hpp. rewrite prev_after_cons.
        apply Hmin; [done | simpl in Hlen; lia].
Qed.

End search_order.

Section whole_word_patterns.
Import re.
Variable g : regex.
Hypothesis g_plain : plain g = true.
Hypothesis g_keywords : Forall (fun w => keyword_like w = true) (words g).

Let P : Pattern := {| pat_regex := whole_word g; pat_flags := IGNORECASE |}.

Lemma word_spelling (w : list ascii) :
  lower_chars w ∈ words g ->
  w <> [] /\ Forall (fun c => is_word_char c = true) w.
Proof using g_keywords.
  intros Hw. apply keyword_like_word.
  by apply (proj1 (Forall_forall _ _) g_keywords).
Qed.

Lemma is_word_head_app (w rest : list ascii) :
  w <> [] -> Forall (fun c => is_word_char c = true) w ->
  is_word_opt (head (w ++ rest)) = true.
Proof. destruct w as [|c w]; [done|]. intros _ Hw. by inversion Hw. Qed.

Lemma is_word_last (w : list ascii) (prev : option ascii) :
  w <> [] -> Forall (fun c => is_word_char c = true) w ->
  is_word_opt (prev_after prev w) = true.
Proof.
  intros Hne Hw. unfold prev_after.
  destruct (last w) as [c|] eqn:El.
  - apply last_Some_elem_of in El.
    by apply (proj1 (Forall_forall _ _) Hw).
  - by apply last_None in El.
Qed.

(** A match of [\b(g)\b] at a position is a whole-word spelling of one of
    the words of [g], captured as group 1. *)
Lemma match_here_sound (prev : option ascii) (rest : list ascii) (st : mstate) :
  match_here P prev rest = Some st ->
  exists w, rest = w ++ ms_rest st /\ lower_chars w ∈ words g /\
            is_word_opt prev = false /\
            is_word_opt (head (ms_rest st)) = false /\
            ms_groups st = [(1, w)].
Proof using g_plain g_keywords.
  unfold match_here, P. cbn [pat_regex pat_flags]. intros H.
  apply exec_sound in H as (st' & D & [= ->]).
  inversion D as [| | | |r1 r2 s0 s1 s2 D1 D2| | | | |]; subst; clear D.
  inversion D1 as [| | |s Hb0| | | | | |]; subst; clear D1.
  inversion D2 as [| | | |r1 r2 s0 s2 s3 D3 D4| | | | |]; subst; clear D2.
  inversion D4 as [| | | |r1 r2 s0 s4 s5 D5 D6| | | | |]; subst; clear D4.
  inversion D6; subst; clear D6.
  inversion D5 as [| | |s Hb1| | | | | |]; subst; clear D5.
  inversion D3 as [| | | | | | | | |n r s0 s6 D7]; subst; clear D3.
  destruct (den_plain _ _ _ D7 g_plain) as (w & Er & Hw & Hg & Hprev).
  simpl in Er, Hg, Hprev. subst rest.
  destruct (word_spelling w Hw) as [Hne Hall].
  unfold consumed; simpl.
  replace (length (w ++ ms_rest s6) - length (ms_rest s6)) with (length w)
    by (rewrite length_app; lia).
  rewrite take_app_length, Hg.
  exists w. repeat split; try done.
  - unfold at_boundary in Hb0. simpl in Hb0.
    rewrite (is_word_head_app w _ Hne Hall) in Hb0.
    by destruct (is_word_opt prev).
  - unfold at_boundary in Hb1. simpl in Hb1. rewrite Hprev in Hb1.
    rewrite (is_word_last w prev Hne Hall) in Hb1.
    by destruct (is_word_opt (head (ms_rest s6))).
Qed.

Lemma match_here_complete (prev : option ascii) (w rest' : list ascii) :
  lower_chars w ∈ words g ->
  is_word_opt prev = false -> is_word_opt (head rest') = false ->
  is_Some (match_here P prev (w ++ rest')).
Proof using g_plain g_keywords.
  intros Hw Hprev Hnext. unfold match_here, P. cbn [pat_regex pat_flags].
  destruct (word_spelling w Hw) as [Hne Hall].
  pose (st1 := MState (prev_after prev w) rest' []).
  apply (exec_complete IGNORECASE (whole_word g) _
           (set_group 1 (consumed (MState prev (w ++ rest') []) st1) st1));
    [|by eexists].
  unfold whole_word. eapply den_cat.
  { apply den_boundary. unfold at_boundary. simpl.
    by rewrite Hprev, (is_word_head_app w _ Hne Hall). }
  eapply den_cat.
  { apply den_group. by apply plain_den. }
  eapply den_cat; [|apply den_empty].
  apply den_boundary. unfold at_boundary. simpl.
  by rewrite (is_word_last w prev Hne Hall), Hnext.
Qed.

(** The word that starts at a position is determined by the text. *)
Lemma word_prefix_unique (w1 : list ascii) :
  forall w2 r1 r2,
  w1 ++ r1 = w2 ++ r2 ->
  Forall (fun c => is_word_char c = true) w1 ->
  Forall (fun c => is_word_char c = true) w2 ->
  is_word_opt (head r1) = false -> is_word_opt (head r2) = false ->
  w1 = w2.
Proof.
  induction w1 as [|c w1 IH]; intros w2 r1 r2 E H1 H2 N1 N2.
  - destruct w2 as [|c2 w2]; [done|]. simpl in E. subst r1.
    inversion H2; subst. simpl in N1. congruence.
  - destruct w2 as [|c2 w2].
    + simpl in E. subst r2. inversion H1; subst. simpl in N2. congruence.
    + injection E as -> E. inversion H1; inversion H2; subst.
      f_equal. by eapply IH.
Qed.

(** No whole-word token in the text: the search finds nothing. *)
Lemma search_no_token (text : list ascii) :
  (forall i w, ~ occurs (words g) text i w) ->
  search_from P None text 0 = None.
Proof using g_plain g_keywords.
  intros Hno. apply search_from_None. intros pre post ->.
  destruct (match_here P (prev_after None pre) post) as [st|] eqn:E; [|done].
  apply match_here_sound in E as (w & -> & Hw & Hp & Hn & _).
  exfalso. apply (Hno (length pre) w).
  exists pre, (ms_rest st). rewrite prev_after_None in Hp. done.
Qed.

(** A match is the leftmost whole-word token, captured as group 1. *)
Lemma search_token_found (text : list ascii) (m : Match) :
  search_from P None text 0 = Some m ->
  exists w, occurs (words g) text (m_start m) w /\
            m_groups m = [(1, w)] /\
            forall j w', occurs (words g) text j w' -> m_start m <= j.
Proof using g_plain g_keywords.
  intros H. apply search_from_Some in H
    as (pre & post & st & -> & Hm & Hs & Hg & Hmin).
  simpl in Hs. pose proof Hm as Hm'.
  apply match_here_sound in Hm' as (w & -> & Hw & Hp & Hn & Hgr).
  rewrite prev_after_None in Hp.
  exists w. split; [|split].
  - exists pre, (ms_rest st). by rewrite Hs.
  - congruence.
  - intros j w' (pre' & post' & E & <- & Hw' & Hp' & Hn').
    rewrite Hs. destruct (decide (length pre' < length pre)) as [Hlt|]; [|lia].
    exfalso. specialize (Hmin pre' (w' ++ post') E Hlt).
    destruct (match_here_complete (prev_after None pre') w' post')
      as [st' Hst']; [done | by rewrite prev_after_None | done |].
    congruence.
Qed.

(** The leftmost whole-word token is what the search returns. *)
Lemma search_first_token (text : list ascii) (i : nat) (w : list ascii) :
  occurs (words g) text i w ->
  (forall j w', occurs (words g) text j w' -> i <= j) ->
  exists m, search_from P None text 0 = Some m /\
            m_start m = i /\ m_groups m = [(1, w)].
Proof using g_plain g_keywords.
  intros Hocc Hleft.
  destruct (search_from P None text 0) as [m|] eqn:E.
  - destruct (search_token_found text m E) as (w' & Hocc' & Hg & Hmin).
    pose proof (Hleft _ _ Hocc') as H1. pose proof (Hmin _ _ Hocc) as H2.
    assert (m_start m = i) as Hi by lia.
    exists m. split; [done|]. split; [done|]. rewrite Hg. do 2 f_equal.
    destruct Hocc as (pre & post & Et & Hl & Hw & Hp & Hn).
    destruct Hocc' as (pre' & post' & Et' & Hl' & Hw' & Hp' & Hn').
    assert (pre = pre') as <-.
    { rewrite Et' in Et. apply (f_equal (take (length pre))) in Et.
      rewrite take_app_length in Et.
      replace (length pre) with (length pre') in Et by lia.
      by rewrite take_app_length in Et. }
    rewrite Et' in Et. apply app_inv_head in Et.
    destruct (word_spelling w Hw) as [_ Hall].
    destruct (word_spelling w' Hw') as [_ Hall'].
    by apply (word_prefix_unique w' w post' post).
  - exfalso.
    destruct Hocc as (pre & post & Et & Hl & Hw & Hp & Hn).
    pose proof (proj1 (search_from_None P text None 0) E pre (w ++ post) Et) as Hnone.
    destruct (match_here_complete (prev_after None pre) w post)
      as [st' Hst']; [done | by rewrite prev_after_None | done |].
    congruence.
Qed.

End whole_word_patterns.

(* ===================================================================== *)
(** ** The level classifier and the noteworthy check                      *)
(* ===================================================================== *)

(** Membership in a concrete list, by evaluation. *)
Ltac solve_elem := apply (bool_decide_unpack _); vm_compute; exact I.
Ltac solve_not_elem :=
  let H := fresh in
  intros H; apply (bool_decide_pack _) in H; vm_compute in H; destruct H.

Section classifiers.
Import re.

Lemma level_re_shape :
  general._LEVEL_RE =
  {| pat_regex := whole_word (body_of general._LEVEL_RE); pat_flags := IGNORECASE |}.
Proof. reflexivity. Qed.

Lemma level_re_words :
  words (body_of general._LEVEL_RE) = chars <$> spec.LogLevel.
Proof. reflexivity. Qed.

Lemma level_re_plain : plain (body_of general._LEVEL_RE) = true.
Proof. reflexivity. Qed.

Lemma level_re_keywords :
  Forall (fun w => keyword_like w = true) (words (body_of general._LEVEL_RE)).
Proof. rewrite level_re_words. repeat constructor. Qed.

Lemma error_re_shape :
  scout._ERROR_RE =
  {| pat_regex := whole_word (body_of scout._ERROR_RE); pat_flags := IGNORECASE |}.
Proof. reflexivity. Qed.

Lemma error_re_words :
  words (body_of scout._ERROR_RE) = chars <$> scout.keywords.
Proof. reflexivity. Qed.

Lemma error_re_plain : plain (body_of scout._ERROR_RE) = true.
Proof. reflexivity. Qed.

Lemma error_re_keywords :
  Forall (fun w => keyword_like w = true) (words (body_of scout._ERROR_RE)).
Proof. rewrite error_re_words. repeat constructor. Qed.

Lemma group_of_capture (m : Match) (w : list ascii) :
  m_groups m = [(1, w)] -> group_lower m 1 = Ret (str (lower_chars w)).
Proof.
  intros Hg. unfold group_lower, group. rewrite Hg. simpl.
  by rewrite lower_str.
Qed.

Lemma keyword_of_chars (kws : list string) (w : list ascii) :
  w ∈ chars <$> kws -> str w ∈ kws.
Proof.
  intros (x & -> & Hx)%list_elem_of_fmap. by rewrite str_chars.
Qed.

Lemma token_at_chars (kws : list string) (line : string) (i : nat) (w : list ascii) :
  occurs (chars <$> kws) (chars line) i w -> token_at kws line i (str w).
Proof. unfold token_at. by rewrite chars_str. Qed.

End classifiers.

Section whole_word_search.
Import re.
Variable g : regex.
Variable kws : list string.
Hypothesis g_plain : plain g = true.
Hypothesis g_keywords : Forall (fun w => keyword_like w = true) (words g).
Hypothesis g_words : words g = chars <$> kws.

Let P : Pattern := {| pat_regex := whole_word g; pat_flags := IGNORECASE |}.

Lemma search_None_of_no_token (line : string) :
  (forall i w, ~ token_at kws line i w) -> search P line = None.
Proof using g_plain g_keywords g_words.
  intros Hno. apply search_no_token; [done | done |].
  intros i w Hocc. rewrite g_words in Hocc.
  apply (token_at_chars kws line i w) in Hocc. by apply (Hno i (str w)).
Qed.

Lemma search_Some_token (line : string) (m : Match) :
  search P line = Some m ->
  exists w, token_at kws line (m_start m) w /\
            group_lower m 1 = Ret (lower w) /\ lower w ∈ kws /\
            forall j w', token_at kws line j w' -> m_start m <= j.
Proof using g_plain g_keywords g_words.
  intros H. apply search_token_found in H as (w & Hocc & Hg & Hmin); [|done..].
  rewrite g_words in Hocc. exists (str w). split; [|split; [|split]].
  - by apply (token_at_chars kws line _ w).
  - rewrite lower_str. by apply group_of_capture.
  - rewrite lower_str. apply keyword_of_chars.
    by destruct Hocc as (_ & _ & _ & _ & Hw & _).
  - intros j w' Hocc'. apply (Hmin j (chars w')). rewrite g_words. exact Hocc'.
Qed.

Lemma search_of_first_token (line : string) (i : nat) (w : string) :
  token_at kws line i w ->
  (forall j w', token_at kws line j w' -> i <= j) ->
  exists m, search P line = Some m /\ m_start m = i /\
            group_lower m 1 = Ret (lower w).
Proof using g_plain g_keywords g_words.
  intros Hocc Hleft.
  destruct (search_first_token g g_plain g_keywords (chars line) i (chars w))
    as (m & Hs & Hi & Hg).
  - rewrite g_words. exact Hocc.
  - intros j w'. rewrite g_words. intros Hocc'.
    apply (token_at_chars kws line j w') in Hocc'. by apply (Hleft j (str w')).
  - exists m. split; [done|]. split; [done|]. by apply group_of_capture.
Qed.

Lemma no_token_of_search_None (line : string) :
  search P line = None -> forall i w, ~ token_at kws line i w.
Proof using g_plain g_keywords g_words.
  intros Hs i w (pre & post & Et & Hl & Hw & Hp & Hn).
  rewrite <- g_words in Hw.
  pose proof (proj1 (search_from_None P (chars line) None 0) Hs pre _ Et) as Hnone.
  destruct (match_here_complete g g_plain g_keywords (prev_after None pre) (chars w) post)
    as [st' Hst']; [done | by rewrite prev_after_None | done |].
  fold P in Hst'. congruence.
Qed.

End whole_word_search.

(* ===================================================================== *)
(** ** The matcher on code points against its denotation                  *)
(* ===================================================================== *)

Section wide_matcher.
Import re wide.
Context `{T : Tables}.
Variable f : flags.

Lemma wide_exec_sound (r : regex) :
  forall st k m, exec f r st k = Some m ->
  exists st', den f r st st' /\ k st' = Some m.
Proof.
  induction r as [| p | | | r1 IH1 r2 IH2 | r1 IH1 r2 IH2 | r1 IH1 | n r1 IH1];
    intros st k m; simpl.
  - intros Hk. exists st. split; [constructor | done].
  - destruct (ms_rest st) as [|c cs] eqn:Er; [done|].
    destruct (lit_matches f p c) eqn:Ec; [|done].
    intros Hk. exists (advance c cs st). split; [by constructor | done].
  - destruct (ms_rest st) as [|c cs] eqn:Er; [done|].
    destruct (c =? 10)%N eqn:Ec; [done|].
    intros Hk. exists (advance c cs st). split; [by constructor | done].
  - destruct (at_boundary st) eqn:Eb; [|done].
    intros Hk. exists st. split; [by constructor | done].
  - intros H. apply IH1 in H as (st1 & D1 & H).
    apply IH2 in H as (st2 & D2 & H).
    exists st2. split; [by econstructor | done].
  - destruct (exec f r1 st k) as [m1|] eqn:E1.
    + intros [= ->]. apply IH1 in E1 as (st' & D & H).
      exists st'. split; [by apply den_alt_l | done].
    + intros H. apply IH2 in H as (st' & D & H).
      exists st'. split; [by apply den_alt_r | done].
  - destruct (exec f r1 st k) as [m1|] eqn:E1.
    + intros [= ->]. apply IH1 in E1 as (st' & D & H).
      exists st'. split; [by apply den_opt_some | done].
    + intros H. exists st. split; [apply den_opt_none | done].
  - intros H. apply IH1 in H as (st1 & D & H).
    exists (set_group n (consumed st st1) st1). split; [by constructor | done].
Qed.

Lemma wide_exec_complete (r : regex) (st st' : mstate) :
  den f r st st' ->
  forall k, is_Some (k st') -> is_Some (exec f r st k).
Proof.
  induction 1 as [st | p c cs st Er Ec | c cs st Er Ec | st Eb
                 | r1 r2 st st1 st2 _ IH1 _ IH2 | r1 r2 st st' _ IH
                 | r1 r2 st st' _ IH | r st st' _ IH | r st
                 | n r st st1 _ IH]; intros k Hk; simpl.
  - done.
  - by rewrite Er, Ec.
  - by rewrite Er, Ec.
  - by rewrite Eb.
  - apply IH1. by apply IH2.
  - destruct (IH k Hk) as [m ->]. by eexists.
  - destruct (exec f r1 st k); [by eexists | by apply IH].
  - destruct (IH k Hk) as [m ->]. by eexists.
  - destruct (exec f r st k); [by eexists | done].
  - by apply IH.
Qed.

End wide_matcher.

Section wide_plain_patterns.
Import re wide.
Context `{T : Tables}.

Lemma wide_prev_after_app (prev : option N) (w1 w2 : text) :
  prev_after prev (w1 ++ w2) = prev_after (prev_after prev w1) w2.
Proof.
  unfold prev_after. rewrite last_app. by destruct (last w2).
Qed.

Lemma lit_matches_lower (p : ascii) (c : N) :
  lit_matches IGNORECASE (lower_char p) c = lit_matches IGNORECASE p c.
Proof.
  unfold lit_matches, IGNORECASE.
  assert (fold_case (code (lower_char p)) = fold_case (code p)) as ->; [|done].
  destruct p as [[] [] [] [] [] [] [] []]; reflexivity.
Qed.

(** A run of a plain pattern reads a spelling of one of its words and
    captures nothing. *)
Lemma wide_den_plain (r : regex) (st st' : mstate) :
  den IGNORECASE r st st' -> plain r = true ->
  exists w kw, ms_rest st = w ++ ms_rest st' /\ kw ∈ words r /\ spells kw w /\
               ms_groups st' = ms_groups st /\
               ms_prev st' = prev_after (ms_prev st) w.
Proof.
  induction 1 as [st | p c cs st Er Ec | c cs st Er Ec | st Eb
                 | r1 r2 st st1 st2 _ IH1 _ IH2 | r1 r2 st st' _ IH
                 | r1 r2 st st' _ IH | r st st' _ IH | r st
                 | n r st st1 _ IH]; simpl; intros Hp; try discriminate.
  - exists [], []. repeat split; [apply list_elem_of_singleton; done | constructor].
  - exists [c], [lower_char p].
    repeat split; [done | by apply list_elem_of_singleton |].
    constructor; [by rewrite lit_matches_lower | constructor].
  - apply andb_true_iff in Hp as [Hp1 Hp2].
    destruct (IH1 Hp1) as (w1 & kw1 & E1 & M1 & S1 & G1 & P1).
    destruct (IH2 Hp2) as (w2 & kw2 & E2 & M2 & S2 & G2 & P2).
    exists (w1 ++ w2), (kw1 ++ kw2). repeat split.
    + by rewrite E1, E2, app_assoc.
    + apply list_elem_of_bind. exists kw1. split; [|done].
      apply list_elem_of_bind. exists kw2. split; [|done].
      by apply list_elem_of_singleton.
    + by apply Forall2_app.
    + congruence.
    + by rewrite wide_prev_after_app, <- P1.
  - apply andb_true_iff in Hp as [Hp1 Hp2].
    destruct (IH Hp1) as (w & kw & E & M & S & G & P).
    exists w, kw. repeat split; try done. apply elem_of_app. by left.
  - apply andb_true_iff in Hp as [Hp1 Hp2].
    destruct (IH Hp2) as (w & kw & E & M & S & G & P).
    exists w, kw. repeat split; try done. apply elem_of_app. by right.
  - destruct (IH Hp) as (w & kw & E & M & S & G & P).
    exists w, kw. repeat split; try done. apply elem_of_app. by left.
  - exists [], []. repeat split; [|constructor]. apply elem_of_app. right.
    by apply list_elem_of_singleton.
Qed.

(** Conversely every spelling of a word of the pattern is a run. *)
Lemma wide_plain_den (r : regex) :
  plain r = true ->
  forall kw w, kw ∈ words r -> spells kw w ->
  forall prev rest g,
    den IGNORECASE r (MState prev (w ++ rest) g)
                     (MState (prev_after prev w) rest g).
Proof.
  induction r as [| p | | | r1 IH1 r2 IH2 | r1 IH1 r2 IH2 | r1 IH1 | n r1 IH1];
    simpl; intros Hp kw w Hw Hs prev rest g; try discriminate.
  - apply list_elem_of_singleton in Hw as ->. inversion Hs; subst. constructor.
  - apply list_elem_of_singleton in Hw as ->.
    inversion Hs as [|p' c kw' w' Hc Hrest]; subst. inversion Hrest; subst.
    apply (den_lit IGNORECASE p c rest (MState prev ([c] ++ rest) g)); [done|].
    by rewrite <- lit_matches_lower.
  - apply andb_true_iff in Hp as [Hp1 Hp2].
    apply list_elem_of_bind in Hw as (a & Hw & Ha).
    apply list_elem_of_bind in Hw as (b & Hw & Hb).
    apply list_elem_of_singleton in Hw as ->.
    apply Forall2_app_inv_l in Hs as (w1 & w2 & S1 & S2 & ->).
    rewrite <- app_assoc, wide_prev_after_app.
    eapply den_cat; [by eapply IH1 | by eapply IH2].
  - apply andb_true_iff in Hp as [Hp1 Hp2].
    apply elem_of_app in Hw as [Hw | Hw].
    + apply den_alt_l. by eapply IH1.
    + apply den_alt_r. by eapply IH2.
  - apply elem_of_app in Hw as [Hw | Hw].
    + apply den_opt_some. by eapply IH1.
    + apply list_elem_of_singleton in Hw as ->. inversion Hs; subst.
      apply den_opt_none.
Qed.

End wide_plain_patterns.

Section wide_search_order.
Import re wide.
Context `{T : Tables}.
Variable P : Pattern.

Lemma wide_prev_after_cons (prev : option N) (c : N) (w : text) :
  prev_after prev (c :: w) = prev_after (Some c) w.
Proof.
  change (c :: w) with ([c] ++ w). by rewrite wide_prev_after_app.
Qed.

Lemma wide_prev_after_None (w : text) : prev_after None w = last w.
Proof. unfold prev_after. by destruct (last w). Qed.

Lemma wide_search_from_None (rest : text) :
  forall prev start,
  search_from P prev rest start = None <->
  forall pre post, rest = pre ++ post ->
                   match_here P (prev_after prev pre) post = None.
Proof.
  induction rest as [|c rest IH]; intros prev start; simpl.
  - destruct (match_here P prev []) as [st|] eqn:E.
    + split; [done|]. intros H. specialize (H [] [] eq_refl). cbn in H. congruence.
    + split; [|done]. intros _ pre post Hpp.
      symmetry in Hpp. apply app_eq_nil in Hpp as [-> ->]. done.
  - destruct (match_here P prev (c :: rest)) as [st|] eqn:E.
    + split; [done|]. intros H. specialize (H [] (c :: rest) eq_refl).
      cbn in H. congruence.
    + rewrite IH. split.
      * intros H pre post Hpp. destruct pre as [|c' pre].
        -- simpl in Hpp. subst post. done.
        -- injection Hpp as <- ->. rewrite wide_prev_after_cons. by apply H.
      * intros H pre post Hpp. rewrite <- (wide_prev_after_cons prev).
        apply H. by rewrite Hpp.
Qed.

Lemma wide_search_from_Some (rest : text) :
  forall prev start m,
  search_from P prev rest start = Some m ->
  exists pre post st,
    rest = pre ++ post /\
    match_here P (prev_after prev pre) post = Some st /\
    m_start m = start + length pre /\
    m_groups m = ms_groups st /\
    forall pre' post', rest = pre' ++ post' -> length pre' < length pre ->
                       match_here P (prev_after prev pre') post' = None.
Proof.
  induction rest as [|c rest IH]; intros prev start m; simpl.
  - destruct (match_here P prev []) as [st|] eqn:E; [|done].
    intros [= <-]. exists [], [], st. simpl.
    repeat split; [done | lia | intros; lia].
  - destruct (match_here P prev (c :: rest)) as [st|] eqn:E.
    + intros [= <-]. exists [], (c :: rest), st. simpl.
      repeat split; [done | lia | intros; lia].
    + intros H. apply IH in H as (pre & post & st & -> & Hm & Hs & Hg & Hmin).
      exists (c :: pre), post, st. rewrite wide_prev_after_cons. simpl.
      repeat split; [done | lia | done |].
      intros pre' post' Hpp Hlen. destruct pre' as [|c' pre'].
      * simpl in Hpp. subst post'. done.
      * injection Hpp as <- Hpp. rewrite wide_prev_after_cons.
        apply Hmin; [done | simpl in Hlen; lia].
Qed.

End wide_search_order.

Section wide_letters.
Import re wide.
Context `{T : Tables}.

(** On the code points below 256, ignoring case is comparing lower case. *)
Lemma fold_case_below_256 (a : ascii) : fold_case (code a) = code (lower_char a).
Proof. destruct a as [[] [] [] [] [] [] [] []]; reflexivity. Qed.

Lemma code_inj (a b : ascii) : code a = code b -> a = b.
Proof.
  unfold code. intros H. apply (f_equal ascii_of_N) in H.
  by rewrite !ascii_N_embedding in H.
Qed.

Lemma lit_matches_below_256 (p a : ascii) :
  lit_matches IGNORECASE p (code a) = true <-> lower_char p = lower_char a.
Proof.
  unfold lit_matches, IGNORECASE. rewrite N.eqb_eq, !fold_case_below_256.
  split; [intros H; symmetry; by apply code_inj | by intros ->].
Qed.

(** What a character matches when case is ignored lies below 256 or is one
    of the listed code points beyond. *)
Lemma lit_matches_cases (p : ascii) (c : N) :
  lit_matches IGNORECASE p c = true -> (c < 256)%N \/ c ∈ beyond p.
Proof.
  intros Hm. destruct (N.ltb_spec c 256) as [Hlt|Hge]; [by left | right].
  unfold beyond. apply list_elem_of_filter. split; [done|].
  unfold lit_matches, IGNORECASE in Hm. apply N.eqb_eq in Hm.
  rewrite fold_case_below_256 in Hm.
  pose proof (N_ascii_bounded (lower_char p)) as Hb. fold (code (lower_char p)) in Hb.
  rewrite <- Hm in Hb. clear Hm. unfold fold_case in Hb.
  repeat match type of Hb with
         | ((if ?b then _ else _) < _)%N =>
             let E := fresh "E" in destruct b eqn:E
         end;
    rewrite ?orb_true_iff, ?orb_false_iff, ?andb_true_iff, ?andb_false_iff,
            ?N.leb_le, ?N.leb_gt, ?N.eqb_eq, ?N.eqb_neq in *;
    try lia;
    repeat match goal with
           | H : _ \/ _ |- _ => destruct H as [H | H]
           end;
    subst c; solve_elem.
Qed.

(** A code point that matches an ASCII letter is a word character. *)
Lemma letters_are_words (p : ascii) (c : N) :
  is_lower_letter p = true -> lit_matches IGNORECASE p c = true ->
  is_word c = true.
Proof.
  intros Hp Hm. destruct (lit_matches_cases p c Hm) as [Hlt | Hin].
  - rewrite <- (N_ascii_embedding c Hlt) in Hm |- *. fold (code (ascii_of_N c)) in *.
    rewrite is_word_below_256. apply lit_matches_below_256 in Hm.
    apply lower_letter_is_word. rewrite <- Hm.
    destruct p as [[] [] [] [] [] [] [] []]; try discriminate Hp; reflexivity.
  - unfold beyond in Hin. apply list_elem_of_filter in Hin as [_ Hin].
    pose proof is_word_beyond as Hw.
    repeat (apply elem_of_cons in Hin as [-> | Hin];
            [first [ by apply (proj1 (Forall_forall _ _) Hw); solve_elem
                   | exfalso; clear Hw;
                     destruct p as [[] [] [] [] [] [] [] []];
                     try discriminate Hp; discriminate Hm ]|]).
    by apply elem_of_nil in Hin.
Qed.

(** A spelling below 256 of a lower-case word is the word up to case. *)
Lemma spells_below_256 (kw w : list ascii) :
  keyword_like kw = true -> spells kw (code <$> w) -> lower_chars w = kw.
Proof.
  intros Hk Hs. unfold keyword_like in Hk. apply andb_true_iff in Hk as [_ Hk].
  revert kw Hk Hs. induction w as [|a w IH]; intros kw Hk Hs.
  - by inversion Hs.
  - inversion Hs as [|p c kw' w' Hm Hs' E1 E2]; subst.
    cbn in Hk. apply andb_true_iff in Hk as [Hp Hk].
    cbn. f_equal; [|by apply IH].
    apply lit_matches_below_256 in Hm. rewrite <- Hm.
    destruct p as [[] [] [] [] [] [] [] []]; try discriminate Hp; reflexivity.
Qed.

Lemma spells_lower (w : list ascii) : spells (lower_chars w) (code <$> w).
Proof.
  induction w as [|a w IH]; [constructor|]. cbn. constructor; [|exact IH].
  apply lit_matches_below_256.
  destruct a as [[] [] [] [] [] [] [] []]; reflexivity.
Qed.

(** A text of code points below 256 is the text of a string. *)
Lemma below_256_of_chars (w : text) :
  Forall (fun c => (c < 256)%N) w -> exists w8 : list ascii, w = code <$> w8.
Proof.
  induction 1 as [|c w Hc _ [w8 ->]]; [by exists []|].
  exists (ascii_of_N c :: w8). cbn. f_equal. unfold code.
  by rewrite N_ascii_embedding.
Qed.

(** A spelling that avoids the code points beyond 255 matching the letters
    of the word lies below 256. *)
Lemma spells_avoiding (avoid : list N) (kw : list ascii) (w : text) :
  spells kw w ->
  forallb (fun p => forallb (fun c => existsb (N.eqb c) avoid) (beyond p)) kw = true ->
  Forall (fun c => c ∉ avoid) w -> Forall (fun c => (c < 256)%N) w.
Proof.
  induction 1 as [|p c kw w Hm _ IH]; [constructor|].
  cbn. intros [Hp Hk]%andb_true_iff Hav. inversion Hav as [|? ? Hc Hw]; subst.
  constructor; [|by apply IH].
  destruct (lit_matches_cases p c Hm) as [Hlt | Hin]; [done|]. exfalso.
  apply Hc. rewrite forallb_forall in Hp.
  pose proof (Hp c (proj1 (list_elem_of_In _ _) Hin)) as He.
  apply existsb_exists in He as (d & Hd & ->%N.eqb_eq).
  by apply list_elem_of_In.
Qed.

End wide_letters.

Section wide_whole_word_patterns.
Import re wide.
Context `{T : Tables}.
Variable g : regex.
Hypothesis g_plain : plain g = true.
Hypothesis g_keywords : Forall (fun w => keyword_like w = true) (words g).

Let P : Pattern := {| pat_regex := whole_word g; pat_flags := IGNORECASE |}.

(** A spelling of a keyword is a non-empty run of word characters. *)
Lemma wide_word_spelling (kw : list ascii) (w : text) :
  kw ∈ words g -> spells kw w ->
  w <> [] /\ Forall (fun c => is_word c = true) w.
Proof using g_keywords.
  intros Hkw Hs.
  pose proof (proj1 (Forall_forall _ _) g_keywords kw Hkw) as Hlike.
  unfold keyword_like in Hlike. apply andb_true_iff in Hlike as [Hne Hall].
  split.
  - destruct Hs; [discriminate | done].
  - clear Hne Hkw. induction Hs as [|p c kw w Hc Hs IH]; [constructor|].
    cbn in Hall. apply andb_true_iff in Hall as [Hp Hall].
    constructor; [by apply (letters_are_words p) | by apply IH].
Qed.

Lemma wide_is_word_head_app (w rest : text) :
  w <> [] -> Forall (fun c => is_word c = true) w ->
  is_word_opt (head (w ++ rest)) = true.
Proof. destruct w as [|c w]; [done|]. intros _ Hw. by inversion Hw. Qed.

Lemma wide_is_word_last (w : text) (prev : option N) :
  w <> [] -> Forall (fun c => is_word c = true) w ->
  is_word_opt (prev_after prev w) = true.
Proof.
  intros Hne Hw. unfold prev_after.
  destruct (last w) as [c|] eqn:El.
  - apply last_Some_elem_of in El.
    by apply (proj1 (Forall_forall _ _) Hw).
  - by apply last_None in El.
Qed.

Lemma wide_match_here_sound (prev : option N) (rest : text) (st : mstate) :
  match_here P prev rest = Some st ->
  exists w kw, rest = w ++ ms_rest st /\ kw ∈ words g /\ spells kw w /\
               is_word_opt prev = false /\
               is_word_opt (head (ms_rest st)) = false /\
               ms_groups st = [(1, w)].
Proof using g_plain g_keywords.
  unfold match_here, P. cbn [pat_regex pat_flags]. intros H.
  apply wide_exec_sound in H as (st' & D & [= ->]).
  inversion D as [| | | |r1 r2 s0 s1 s2 D1 D2| | | | |]; subst; clear D.
  inversion D1 as [| | |s Hb0| | | | | |]; subst; clear D1.
  inversion D2 as [| | | |r1 r2 s0 s2 s3 D3 D4| | | | |]; subst; clear D2.
  inversion D4 as [| | | |r1 r2 s0 s4 s5 D5 D6| | | | |]; subst; clear D4.
  inversion D6; subst; clear D6.
  inversion D5 as [| | |s Hb1| | | | | |]; subst; clear D5.
  inversion D3 as [| | | | | | | | |n r s0 s6 D7]; subst; clear D3.
  destruct (wide_den_plain _ _ _ D7 g_plain) as (w & kw & Er & Hw & Hs & Hg & Hprev).
  simpl in Er, Hg, Hprev. subst rest.
  destruct (wide_word_spelling kw w Hw Hs) as [Hne Hall].
  unfold consumed; simpl.
  replace (length (w ++ ms_rest s6) - length (ms_rest s6)) with (length w)
    by (rewrite length_app; lia).
  rewrite take_app_length, Hg.
  exists w, kw. repeat split; try done.
  - unfold at_boundary in Hb0. simpl in Hb0.
    rewrite (wide_is_word_head_app w _ Hne Hall) in Hb0.
    by destruct (is_word_opt prev).
  - unfold at_boundary in Hb1. simpl in Hb1. rewrite Hprev in Hb1.
    rewrite (wide_is_word_last w prev Hne Hall) in Hb1.
    by destruct (is_word_opt (head (ms_rest s6))).
Qed.

Lemma wide_match_here_complete (prev : option N) (kw : list ascii) (w rest' : text) :
  kw ∈ words g -> spells kw w ->
  is_word_opt prev = false -> is_word_opt (head rest') = false ->
  is_Some (match_here P prev (w ++ rest')).
Proof using g_plain g_keywords.
  intros Hw Hs Hprev Hnext. unfold match_here, P. cbn [pat_regex pat_flags].
  destruct (wide_word_spelling kw w Hw Hs) as [Hne Hall].
  pose (st1 := MState (prev_after prev w) rest' []).
  apply (wide_exec_complete IGNORECASE (whole_word g) _
           (set_group 1 (consumed (MState prev (w ++ rest') []) st1) st1));
    [|by eexists].
  unfold whole_word. eapply den_cat.
  { apply den_boundary. unfold at_boundary. simpl.
    by rewrite Hprev, (wide_is_word_head_app w _ Hne Hall). }
  eapply den_cat.
  { apply den_group. by eapply wide_plain_den. }
  eapply den_cat; [|apply den_empty].
  apply den_boundary. unfold at_boundary. simpl.
  by rewrite (wide_is_word_last w prev Hne Hall), Hnext.
Qed.

Lemma wide_word_prefix_unique (w1 : text) :
  forall w2 r1 r2,
  w1 ++ r1 = w2 ++ r2 ->
  Forall (fun c => is_word c = true) w1 ->
  Forall (fun c => is_word c = true) w2 ->
  is_word_opt (head r1) = false -> is_word_opt (head r2) = false ->
  w1 = w2.
Proof.
  induction w1 as [|c w1 IH]; intros w2 r1 r2 E H1 H2 N1 N2.
  - destruct w2 as [|c2 w2]; [done|]. simpl in E. subst r1.
    inversion H2; subst. simpl in N1. congruence.
  - destruct w2 as [|c2 w2].
    + simpl in E. subst r2. inversion H1; subst. simpl in N2. congruence.
    + injection E as -> E. inversion H1; inversion H2; subst.
      f_equal. by eapply IH.
Qed.

(** No whole-word token in the line: the search finds nothing. *)
Lemma wide_search_no_token (line : text) :
  (forall i w, ~ occurs (words g) line i w) ->
  search P line = None.
Proof using g_plain g_keywords.
  intros Hno. apply wide_search_from_None. intros pre post ->.
  destruct (match_here P (prev_after None pre) post) as [st|] eqn:E; [|done].
  apply wide_match_here_sound in E as (w & kw & -> & Hw & Hs & Hp & Hn & _).
  exfalso. apply (Hno (length pre) w).
  exists pre, (ms_rest st). rewrite wide_prev_after_None in Hp.
  split; [done|]. split; [done|]. split; [by exists kw | done].
Qed.

(** A match is the leftmost whole-word token, captured as group 1. *)
Lemma wide_search_token_found (line : text) (m : Match) :
  search P line = Some m ->
  exists w, occurs (words g) line (m_start m) w /\
            m_groups m = [(1, w)] /\
            forall j w', occurs (words g) line j w' -> m_start m <= j.
Proof using g_plain g_keywords.
  intros H. apply wide_search_from_Some in H
    as (pre & post & st & -> & Hm & Hs & Hg & Hmin).
  simpl in Hs. pose proof Hm as Hm'.
  apply wide_match_here_sound in Hm' as (w & kw & -> & Hw & Hsp & Hp & Hn & Hgr).
  rewrite wide_prev_after_None in Hp.
  exists w. split; [|split].
  - exists pre, (ms_rest st). rewrite Hs.
    split; [done|]. split; [done|]. split; [by exists kw | done].
  - rewrite Hg. exact Hgr.
  - intros j w' (pre' & post' & E & <- & (kw' & Hw' & Hsp') & Hp' & Hn').
    rewrite Hs. destruct (decide (length pre' < length pre)) as [Hlt|]; [|lia].
    exfalso. specialize (Hmin pre' (w' ++ post') E Hlt).
    destruct (wide_match_here_complete (prev_after None pre') kw' w' post')
      as [st' Hst']; [done | done | by rewrite wide_prev_after_None | done |].
    congruence.
Qed.

(** The leftmost whole-word token is what the search returns. *)
Lemma wide_search_first_token (line : text) (i : nat) (w : text) :
  occurs (words g) line i w ->
  (forall j w', occurs (words g) line j w' -> i <= j) ->
  exists m, search P line = Some m /\
            m_start m = i /\ m_groups m = [(1, w)].
Proof using g_plain g_keywords.
  intros Hocc Hleft.
  destruct (search P line) as [m|] eqn:E.
  - destruct (wide_search_token_found line m E) as (w' & Hocc' & Hg & Hmin).
    pose proof (Hleft _ _ Hocc') as H1. pose proof (Hmin _ _ Hocc) as H2.
    assert (m_start m = i) as Hi by lia.
    exists m. split; [done|]. split; [done|]. rewrite Hg. do 2 f_equal.
    destruct Hocc as (pre & post & Et & Hl & (kw & Hw & Hs) & Hp & Hn).
    destruct Hocc' as (pre' & post' & Et' & Hl' & (kw' & Hw' & Hs') & Hp' & Hn').
    assert (pre = pre') as <-.
    { rewrite Et' in Et. apply (f_equal (take (length pre))) in Et.
      rewrite take_app_length in Et.
      replace (length pre) with (length pre') in Et by lia.
      by rewrite take_app_length in Et. }
    rewrite Et' in Et. apply app_inv_head in Et.
    destruct (wide_word_spelling kw w Hw Hs) as [_ Hall].
    destruct (wide_word_spelling kw' w' Hw' Hs') as [_ Hall'].
    by apply (wide_word_prefix_unique w' w post' post).
  - exfalso.
    destruct Hocc as (pre & post & Et & Hl & (kw & Hw & Hs) & Hp & Hn).
    pose proof (proj1 (wide_search_from_None P line None 0) E pre (w ++ post) Et)
      as Hnone.
    destruct (wide_match_here_complete (prev_after None pre) kw w post)
      as [st' Hst']; [done | done | by rewrite wide_prev_after_None | done |].
    congruence.
Qed.

End wide_whole_word_patterns.

Section wide_whole_word_search.
Import re wide.
Context `{T : Tables}.
Variable g : regex.
Variable kws : list string.
Hypothesis g_plain : plain g = true.
Hypothesis g_keywords : Forall (fun w => keyword_like w = true) (words g).
Hypothesis g_words : words g = chars <$> kws.

Let P : Pattern := {| pat_regex := whole_word g; pat_flags := IGNORECASE |}.

Lemma wide_group_of_capture (m : Match) (w : text) :
  m_groups m = [(1, w)] -> group_lower m 1 = Ret (str_lower w).
Proof. intros Hg. unfold group_lower, group. by rewrite Hg. Qed.

Lemma wide_search_None_of_no_token (line : text) :
  (forall i w, ~ token_at kws line i w) -> search P line = None.
Proof using g_plain g_keywords g_words.
  intros Hno. apply wide_search_no_token; [done | done |].
  intros i w Hocc. rewrite g_words in Hocc. by apply (Hno i w).
Qed.

Lemma wide_search_Some_token (line : text) (m : Match) :
  search P line = Some m ->
  exists w, token_at kws line (m_start m) w /\
            group_lower m 1 = Ret (str_lower w) /\
            forall j w', token_at kws line j w' -> m_start m <= j.
Proof using g_plain g_keywords g_words.
  intros H. apply wide_search_token_found in H as (w & Hocc & Hg & Hmin); [|done..].
  rewrite g_words in Hocc. exists w. split; [done|]. split.
  - by apply wide_group_of_capture.
  - intros j w' Hocc'. apply (Hmin j w'). rewrite g_words. exact Hocc'.
Qed.

Lemma wide_search_of_first_token (line : text) (i : nat) (w : text) :
  token_at kws line i w ->
  (forall j w', token_at kws line j w' -> i <= j) ->
  exists m, search P line = Some m /\ m_start m = i /\
            group_lower m 1 = Ret (str_lower w).
Proof using g_plain g_keywords g_words.
  intros Hocc Hleft.
  destruct (wide_search_first_token g g_plain g_keywords line i w)
    as (m & Hs & Hi & Hg).
  - rewrite g_words. exact Hocc.
  - intros j w'. rewrite g_words. apply Hleft.
  - exists m. split; [done|]. split; [done|]. by apply wide_group_of_capture.
Qed.

Lemma wide_no_token_of_search_None (line : text) :
  search P line = None -> forall i w, ~ token_at kws line i w.
Proof using g_plain g_keywords g_words.
  intros Hs i w (pre & post & Et & Hl & (kw & Hkw & Hsp) & Hp & Hn).
  rewrite <- g_words in Hkw.
  pose proof (proj1 (wide_search_from_None P line None 0) Hs pre _ Et) as Hnone.
  destruct (wide_match_here_complete g g_plain g_keywords (prev_after None pre)
              kw w post) as [st' Hst'];
    [done | done | by rewrite wide_prev_after_None | done |].
  fold P in Hst'. congruence.
Qed.

(** A token all of whose code points are below 256 is a keyword up to
    case, and lowering it gives the keyword. *)
Lemma wide_token_keyword (line : text) (i : nat) (w : text) :
  token_at kws line i w -> Forall (fun c => (c < 256)%N) w ->
  exists kw, kw ∈ kws /\ str_lower w = of_string kw.
Proof using g_keywords g_words.
  intros (pre & post & _ & _ & (k & Hk & Hs) & _) Hw.
  destruct (below_256_of_chars w Hw) as [w8 ->].
  assert (keyword_like k = true) as Hlike.
  { apply (proj1 (Forall_forall _ _) g_keywords). by rewrite g_words. }
  apply list_elem_of_fmap in Hk as (kw & -> & Hkw).
  exists kw. split; [done|].
  by rewrite str_lower_below_256, (spells_below_256 _ _ Hlike Hs).
Qed.

(** The code points of a token are code points of the line. *)
Lemma wide_token_in_line (Q : N -> Prop) (line : text) (i : nat) (w : text) :
  token_at kws line i w -> Forall Q line -> Forall Q w.
Proof.
  intros (pre & post & -> & _) H.
  apply Forall_app in H as [_ H]. by apply Forall_app in H as [H _].
Qed.

Lemma wide_token_avoiding (avoid : list N) (line : text) (i : nat) (w : text) :
  forallb (fun kw =>
             forallb (fun p => forallb (fun c => existsb (N.eqb c) avoid) (beyond p))
                     (chars kw)) kws = true ->
  token_at kws line i w -> Forall (fun c => c ∉ avoid) line ->
  Forall (fun c => (c < 256)%N) w.
Proof.
  intros Hav Htok Hline.
  pose proof (wide_token_in_line _ line i w Htok Hline) as Hw.
  destruct Htok as (pre & post & _ & _ & (k & Hk & Hs) & _).
  apply list_elem_of_fmap in Hk as (kw & -> & Hkw).
  apply (spells_avoiding avoid (chars kw) w Hs); [|done].
  rewrite forallb_forall in Hav. apply Hav. by apply list_elem_of_In.
Qed.

(** *** Lines of code points below 256 *)

Lemma last_of_string (l : list ascii) :
  is_word_opt (last (code <$> l)) = re.is_word_opt (last l).
Proof.
  rewrite fmap_last. destruct (last l) as [a|]; [|done]. cbn.
  apply is_word_below_256.
Qed.

Lemma head_of_string (l : list ascii) :
  is_word_opt (head (code <$> l)) = re.is_word_opt (head l).
Proof. destruct l as [|a l]; [done|]. cbn. apply is_word_below_256. Qed.

Lemma occurs_of_string (l : list ascii) (i : nat) (w8 : list ascii) :
  re.occurs (words g) l i w8 -> occurs (words g) (code <$> l) i (code <$> w8).
Proof.
  intros (pre & post & -> & <- & Hw & Hp & Hn).
  exists (code <$> pre), (code <$> post). rewrite !fmap_app, length_fmap.
  split; [done|]. split; [done|]. split.
  - exists (lower_chars w8). split; [done | apply spells_lower].
  - by rewrite last_of_string, head_of_string.
Qed.

Lemma occurs_of_string_inv (l : list ascii) (i : nat) (w : text) :
  occurs (words g) (code <$> l) i w ->
  exists w8, w = code <$> w8 /\ re.occurs (words g) l i w8.
Proof using g_keywords.
  intros (pre & post & E & <- & (kw & Hkw & Hs) & Hp & Hn).
  apply fmap_app_inv in E as (pre8 & rest8 & -> & Er & ->).
  symmetry in Er. apply fmap_app_inv in Er as (w8 & post8 & -> & -> & ->).
  exists w8. split; [done|]. exists pre8, post8.
  rewrite length_fmap. split; [done|]. split; [done|]. split.
  - rewrite (spells_below_256 kw w8); [done | | done].
    by apply (proj1 (Forall_forall _ _) g_keywords).
  - by rewrite <- last_of_string, <- head_of_string.
Qed.

(** On a line of code points below 256 the search finds what the search
    of module [re] finds. *)
Lemma search_of_string (s : string) :
  match search P (of_string s) with
  | Some m => Some (group_lower m 1)
  | None => None
  end =
  match re.search P s with
  | Some m => Some (of_string <$> re.group_lower m 1)
  | None => None
  end.
Proof using g_plain g_keywords g_words.
  unfold of_string. destruct (re.search P s) as [m8|] eqn:E8.
  - unfold re.search in E8.
    destruct (search_token_found g g_plain g_keywords (chars s) m8 E8)
      as (w8 & Hocc & Hg & Hmin).
    destruct (wide_search_first_token g g_plain g_keywords
                (code <$> chars s) (re.m_start m8) (code <$> w8))
      as (m & Hs & _ & Hgm).
    + by apply occurs_of_string.
    + intros j w' Hocc'. apply occurs_of_string_inv in Hocc' as (w8' & _ & Hocc').
      by apply (Hmin j w8').
    + fold P in Hs. rewrite Hs. f_equal.
      rewrite (wide_group_of_capture m _ Hgm), (group_of_capture m8 _ Hg).
      cbn. unfold of_string. by rewrite chars_str, str_lower_below_256.
  - assert (search P (code <$> chars s) = None) as ->; [|done].
    apply wide_search_no_token; [done | done |].
    intros i w Hocc. apply occurs_of_string_inv in Hocc as (w8 & _ & Hocc).
    rewrite g_words in Hocc.
    apply (no_token_of_search_None g kws g_plain g_keywords g_words s E8 i (str w8)).
    unfold re.token_at. by rewrite chars_str.
Qed.

End wide_whole_word_search.

Section wide_classifiers.
Import wide.
Context `{T : Tables}.

(** On lines of code points below 256 the classifiers are those of the
    collectors' modules. *)
Lemma parse_level_of_string (s : string) :
  _parse_level (of_string s) = of_string <$> general._parse_level s.
Proof.
  pose proof (search_of_string _ _ level_re_plain level_re_keywords level_re_words s)
    as H.
  rewrite <- level_re_shape in H. unfold _parse_level, general._parse_level.
  destruct (search general._LEVEL_RE (of_string s)),
           (re.search general._LEVEL_RE s); try done.
  by injection H.
Qed.

Lemma matches_of_string (s : string) :
  _matches (of_string s)
  = (fun r : option string => of_string <$> r) <$> scout._matches s.
Proof.
  pose proof (search_of_string _ _ error_re_plain error_re_keywords error_re_words s)
    as H.
  rewrite <- error_re_shape in H. unfold _matches, scout._matches.
  destruct (search scout._ERROR_RE (of_string s)) as [m|],
           (re.search scout._ERROR_RE s) as [m8|]; try done.
  injection H as ->. by destruct (re.group_lower m8 1).
Qed.

Lemma level_letters_beyond :
  forallb (fun kw =>
             forallb (fun p => forallb (fun c => existsb (N.eqb c) [304; 305]%N)
                                       (beyond p))
                     (chars kw)) spec.LogLevel = true.
Proof. reflexivity. Qed.

Lemma keyword_letters_beyond :
  forallb (fun kw =>
             forallb (fun p => forallb (fun c => existsb (N.eqb c) [304; 305; 383]%N)
                                       (beyond p))
                     (chars kw)) scout.keywords = true.
Proof. reflexivity. Qed.

End wide_classifiers.

(* ===================================================================== *)
(** ** Claims about the classifiers                                       *)
(* ===================================================================== *)

(** C5, as stated, fails on lines with the dotted capital I (U+0130) or
    the dotless i (U+0131), which the pattern takes for the letter i when
    case is ignored: on the lines [İNFO] and [crıt] the classifier returns
    the lower-cased token, which is neither "info" nor any other keyword
    of the enumeration. *)
Lemma parse_level_outside_enumeration :
  wide._parse_level (T := examples.sample_tables) [304; 78; 70; 79]%N
    = Ret [105; 775; 110; 102; 111]%N /\
  ([105; 775; 110; 102; 111]%N ∉ wide.of_string <$> spec.LogLevel) /\
  wide._parse_level (T := examples.sample_tables) [99; 114; 305; 116]%N
    = Ret [99; 114; 305; 116]%N /\
  ([99; 114; 305; 116]%N ∉ wide.of_string <$> spec.LogLevel).
Proof.
  split; [reflexivity|]. split; [solve_not_elem|].
  split; [reflexivity | solve_not_elem].
Qed.

(** C5, amended.  Level classification on a line of any code points: a
    line with no whole-word token that spells a level keyword, case ignored
    as the pattern library ignores it, is classified "info"; otherwise the
    result is the leftmost such token, lowered by [str.lower].  A token
    whose code points are below 256 lowers to the keyword it spells, so on
    a line without the code points U+0130 and U+0131 the result is a member
    of the level enumeration.  The result depends on the line only, and
    the three collectors classify with the same pattern. *)
Theorem parse_level_leftmost_token `{T : wide.Tables} (line : wide.text) :
  ((forall i w, ~ wide.token_at spec.LogLevel line i w) ->
   wide._parse_level line = Ret (wide.of_string "info")) /\
  (forall i w,
     wide.token_at spec.LogLevel line i w ->
     (forall j w', wide.token_at spec.LogLevel line j w' -> i <= j) ->
     wide._parse_level line = Ret (wide.str_lower w)) /\
  (forall i w,
     wide.token_at spec.LogLevel line i w -> Forall (fun c => (c < 256)%N) w ->
     exists kw, kw ∈ spec.LogLevel /\ wide.str_lower w = wide.of_string kw) /\
  (Forall (fun c => c ∉ [304; 305]%N) line ->
   exists v, v ∈ spec.LogLevel /\ wide._parse_level line = Ret (wide.of_string v)) /\
  (exists v, wide._parse_level line = Ret v) /\
  (forall line', line' = line -> wide._parse_level line' = wide._parse_level line) /\
  gpu._LEVEL_RE = general._LEVEL_RE /\ nas._LEVEL_RE = general._LEVEL_RE.
Proof.
  pose proof (wide_search_None_of_no_token _ _ level_re_plain level_re_keywords
                level_re_words line) as HNone.
  pose proof (wide_search_of_first_token _ _ level_re_plain level_re_keywords
                level_re_words line) as HFirst.
  pose proof (wide_search_Some_token _ _ level_re_plain level_re_keywords
                level_re_words line) as HSome.
  rewrite <- level_re_shape in HNone, HFirst, HSome.
  unfold wide._parse_level.
  split; [|split; [|split; [|split; [|split; [|split; [|split]]]]]];
    try reflexivity.
  - intros Hno. by rewrite (HNone Hno).
  - intros i w Hocc Hleft.
    destruct (HFirst i w Hocc Hleft) as (m & -> & _ & Hg). done.
  - intros i w. apply (wide_token_keyword _ _ level_re_keywords level_re_words).
  - intros Hline. destruct (wide.search general._LEVEL_RE line) as [m|] eqn:E.
    + destruct (HSome m eq_refl) as (w & Hocc & -> & _).
      destruct (wide_token_keyword _ _ level_re_keywords level_re_words
                  line (wide.m_start m) w Hocc) as (kw & Hkw & ->).
      * by apply (wide_token_avoiding spec.LogLevel [304; 305]%N line
                    (wide.m_start m) w level_letters_beyond).
      * by exists kw.
    + exists "info". split; [solve_elem | done].
  - destruct (wide.search general._LEVEL_RE line) as [m|] eqn:E; [|by eexists].
    destruct (HSome m eq_refl) as (w & _ & -> & _). by eexists.
  - by intros line' ->.
Qed.

Lemma parse_level_leftmost_token_witness :
  wide._parse_level (T := examples.sample_tables)
    (wide.of_string "no level word here") = Ret (wide.of_string "info") /\
  exists v, v ∈ spec.LogLevel /\
            wide._parse_level (T := examples.sample_tables)
              (wide.of_string "kernel: [ERR] then CRIT") = Ret (wide.of_string v).
Proof.
  split.
  - apply (proj1 (parse_level_leftmost_token (T := examples.sample_tables)
                    (wide.of_string "no level word here"))).
    apply (wide_no_token_of_search_None _ _ level_re_plain level_re_keywords
             level_re_words).
    reflexivity.
  - apply (proj1 (proj2 (proj2 (proj2
             (parse_level_leftmost_token (T := examples.sample_tables)
                (wide.of_string "kernel: [ERR] then CRIT")))))).
    apply (bool_decide_unpack _). vm_compute. exact I.
Defined.

(** C6, as stated, fails twice.  The optional suffix of [fail(?:ed|ure)?]
    makes the bare word "fail" a keyword: the line "disk fail" contains no
    whole-word member of the listed set, yet the check returns "fail",
    which is not in that set.  And the long s (U+017F), the dotted
    capital I (U+0130) and the dotless i (U+0131) are taken for the
    letters s and i when case is ignored: on the lines [oopſ], [DENİED]
    and [crıt] the check returns the lower-cased token, which is not a
    keyword at all. *)
Lemma matches_keyword_outside_listed_set :
  scout._matches "disk fail" = Ret (Some "fail") /\
  ("fail" ∉ spec.noteworthy) /\
  (forall i w, ~ re.token_at spec.noteworthy "disk fail" i w) /\
  wide._matches (T := examples.sample_tables) (wide.of_string "disk fail")
    = Ret (Some (wide.of_string "fail")) /\
  wide._matches (T := examples.sample_tables) [111; 111; 112; 383]%N
    = Ret (Some [111; 111; 112; 383]%N) /\
  ([111; 111; 112; 383]%N ∉ wide.of_string <$> scout.keywords) /\
  wide._matches (T := examples.sample_tables) [68; 69; 78; 304; 69; 68]%N
    = Ret (Some [100; 101; 110; 105; 775; 101; 100]%N) /\
  ([100; 101; 110; 105; 775; 101; 100]%N ∉ wide.of_string <$> scout.keywords) /\
  wide._matches (T := examples.sample_tables) [99; 114; 305; 116]%N
    = Ret (Some [99; 114; 305; 116]%N) /\
  ([99; 114; 305; 116]%N ∉ wide.of_string <$> scout.keywords).
Proof.
  split; [reflexivity|]. split; [solve_not_elem|]. split.
  - apply (no_token_of_search_None (re.body_of spec.noteworthy_pattern));
      [reflexivity | repeat constructor | reflexivity | reflexivity].
  - split; [reflexivity|]. split; [reflexivity|]. split; [solve_not_elem|].
    split; [reflexivity|]. split; [solve_not_elem|].
    split; [reflexivity | solve_not_elem].
Qed.

(** C6, amended.  The keyword set of the noteworthy check is the listed set
    together with "fail".  On a line of any code points: with no whole-word
    token that spells a keyword, case ignored as the pattern library
    ignores it, the check returns none; otherwise it returns the leftmost
    such token, lowered by [str.lower]; what it returns is always such a
    token.  A token whose code points are below 256 lowers to the keyword
    it spells, so on a line without the code points U+0130, U+0131 and
    U+017F the value returned is a member of the keyword set.  The check
    never raises.  On "2024 ERROR disk failed" it returns "error". *)
Theorem matches_leftmost_keyword `{T : wide.Tables} (line : wide.text) :
  ((forall i w, ~ wide.token_at scout.keywords line i w) ->
   wide._matches line = Ret None) /\
  (forall i w,
     wide.token_at scout.keywords line i w ->
     (forall j w', wide.token_at scout.keywords line j w' -> i <= j) ->
     wide._matches line = Ret (Some (wide.str_lower w))) /\
  (forall r,
     wide._matches line = Ret (Some r) ->
     exists i w, wide.token_at scout.keywords line i w /\ r = wide.str_lower w /\
                 forall j w', wide.token_at scout.keywords line j w' -> i <= j) /\
  (forall i w,
     wide.token_at scout.keywords line i w -> Forall (fun c => (c < 256)%N) w ->
     exists kw, kw ∈ scout.keywords /\ wide.str_lower w = wide.of_string kw) /\
  (Forall (fun c => c ∉ [304; 305; 383]%N) line ->
   forall r, wide._matches line = Ret (Some r) ->
             exists kw, kw ∈ scout.keywords /\ r = wide.of_string kw) /\
  (exists r, wide._matches line = Ret r) /\
  scout.keywords ≡ₚ "fail" :: spec.noteworthy /\
  wide._matches (wide.of_string "2024 ERROR disk failed")
    = Ret (Some (wide.of_string "error")).
Proof.
  pose proof (wide_search_None_of_no_token _ _ error_re_plain error_re_keywords
                error_re_words line) as HNone.
  pose proof (wide_search_of_first_token _ _ error_re_plain error_re_keywords
                error_re_words line) as HFirst.
  pose proof (wide_search_Some_token _ _ error_re_plain error_re_keywords
                error_re_words line) as HSome.
  rewrite <- error_re_shape in HNone, HFirst, HSome.
  split; [|split; [|split; [|split; [|split; [|split; [|split]]]]]].
  - intros Hno. unfold wide._matches. by rewrite (HNone Hno).
  - intros i w Hocc Hleft. unfold wide._matches.
    destruct (HFirst i w Hocc Hleft) as (m & -> & _ & ->). done.
  - intros r. unfold wide._matches.
    destruct (wide.search scout._ERROR_RE line) as [m|] eqn:E; [|done].
    destruct (HSome m eq_refl) as (w & Hocc & -> & Hmin).
    cbn. intros [= <-]. by exists (wide.m_start m), w.
  - intros i w. apply (wide_token_keyword _ _ error_re_keywords error_re_words).
  - intros Hline r. unfold wide._matches.
    destruct (wide.search scout._ERROR_RE line) as [m|] eqn:E; [|done].
    destruct (HSome m eq_refl) as (w & Hocc & -> & _).
    cbn. intros [= <-].
    apply (wide_token_keyword _ _ error_re_keywords error_re_words line
             (wide.m_start m) w Hocc).
    by apply (wide_token_avoiding scout.keywords [304; 305; 383]%N line
                (wide.m_start m) w keyword_letters_beyond).
  - unfold wide._matches.
    destruct (wide.search scout._ERROR_RE line) as [m|] eqn:E; [|by eexists].
    destruct (HSome m eq_refl) as (w & _ & -> & _). by eexists.
  - unfold scout.keywords, spec.noteworthy.
    apply (bool_decide_unpack _). vm_compute. exact I.
  - rewrite matches_of_string. reflexivity.
Qed.

Lemma matches_leftmost_keyword_witness :
  wide._matches (T := examples.sample_tables) (wide.of_string "all quiet")
    = Ret None /\
  (exists kw, kw ∈ scout.keywords /\
              wide.of_string "fail" = wide.of_string kw) /\
  "fail" ∈ scout.keywords.
Proof.
  split; [|split].
  - apply (proj1 (matches_leftmost_keyword (T := examples.sample_tables)
                    (wide.of_string "all quiet"))).
    apply (wide_no_token_of_search_None _ _ error_re_plain error_re_keywords
             error_re_words).
    reflexivity.
  - apply (proj1 (proj2 (proj2 (proj2 (proj2
             (matches_leftmost_keyword (T := examples.sample_tables)
                (wide.of_string "disk fail")))))));
      [apply (bool_decide_unpack _); vm_compute; exact I | reflexivity].
  - solve_elem.
Defined.

(** X19.  On a line whose code points are all below 256 the level
    classifier and the noteworthy check are the functions of the
    collectors' modules, which read such a line as a [string]. *)
Theorem classifiers_below_256 `{T : wide.Tables} (s : string) :
  wide._parse_level (wide.of_string s) = wide.of_string <$> general._parse_level s /\
  wide._matches (wide.of_string s)
  = (fun r : option string => wide.of_string <$> r) <$> scout._matches s.
Proof. split; [apply parse_level_of_string | apply matches_of_string]. Qed.

(** C10.  The noteworthy check and the level classifier can disagree on one
    line: "ERROR" is flagged with the keyword "error", while the classifier
    gives it the default level "info", since "error" is not in the level
    enumeration and the line has no whole-word level token. *)
Theorem noteworthy_and_level_disagree :
  exists line kw,
    scout._matches line = Ret (Some kw) /\
    general._parse_level line = Ret "info" /\
    kw ∈ scout.keywords /\ (kw ∉ spec.LogLevel) /\
    (forall i w, ~ re.token_at spec.LogLevel line i w) /\
    line = "ERROR" /\ kw = "error".
Proof.
  exists "ERROR", "error".
  split; [reflexivity|]. split; [reflexivity|].
  split; [solve_elem|]. split; [solve_not_elem|]. split; [|done].
  apply (no_token_of_search_None _ _ level_re_plain level_re_keywords level_re_words).
  reflexivity.
Qed.

(* ===================================================================== *)
(** ** Rules and their resolution                                         *)
(* ===================================================================== *)

Section rules.
Context `{L : re.RegexLibrary}.
Import store.

(** The pattern condition of a rule, as evaluated inside the [try]. *)
Lemma pattern_condition (pattern raw : string) :
  try_except
    (m ← re.re_search pattern raw re.IGNORECASE;
     if negb m then Ret false else Ret true)
    [re_error] (Ret false)
  = match re.re_search pattern raw re.IGNORECASE with
    | Ret m => Ret m
    | Raise e => if bool_decide (e = re_error) then Ret false else Raise e
    end.
Proof.
  destruct (re.re_search pattern raw re.IGNORECASE) as [[|]|e] eqn:E;
    try reflexivity.
  by destruct e.
Qed.

(** Evaluating a rule returns a truth value when searching with its
    pattern raises nothing but [re.error]. *)
Lemma matches_returns (rule : InstructionRule) (source raw level : string) :
  re.raises_only_re_error (match_pattern rule) ->
  exists b, matches rule source raw level = Ret b.
Proof.
  intros Hre. unfold matches.
  destruct (truthy (match_source rule) && _); [by eexists|].
  destruct (truthy_list (match_levels rule) && _); [by eexists|].
  destruct (truthy (match_pattern rule)); [|by eexists].
  rewrite pattern_condition.
  destruct (re.re_search (match_pattern rule) raw re.IGNORECASE) as [m|e] eqn:E;
    [by eexists|].
  rewrite (Hre _ _ _ E). by eexists.
Qed.

(** What evaluating a rule raises comes from the search and is not
    [re.error]. *)
Lemma matches_raises (rule : InstructionRule) (source raw level : string) (e : exn) :
  matches rule source raw level = Raise e ->
  re.re_search (match_pattern rule) raw re.IGNORECASE = Raise e /\ e <> re_error.
Proof.
  unfold matches.
  destruct (truthy (match_source rule) && _); [done|].
  destruct (truthy_list (match_levels rule) && _); [done|].
  destruct (truthy (match_pattern rule)); [|done].
  rewrite pattern_condition.
  destruct (re.re_search (match_pattern rule) raw re.IGNORECASE) as [m|e']; [done|].
  destruct e'; cbn; intros [= <-]; done.
Qed.

Lemma truthy_list_false {A} (l : list A) : truthy_list l = false <-> l = [].
Proof. destruct l; simpl; split; congruence. Qed.

Lemma contains_spec (sub s : string) :
  contains sub s = true <-> exists pre post, chars s = pre ++ chars sub ++ post.
Proof. apply contains_chars_spec. Qed.

Lemma source_condition (rule : InstructionRule) (source : string) :
  truthy (match_source rule)
  && negb (contains (lower (match_source rule)) (lower source)) = false <->
  (match_source rule = "" \/
   exists pre post,
     chars (lower source) = pre ++ chars (lower (match_source rule)) ++ post).
Proof.
  rewrite <- contains_spec, <- truthy_false.
  destruct (truthy (match_source rule)), (contains _ _); cbn; intuition congruence.
Qed.

Lemma level_condition (rule : InstructionRule) (level : string) :
  truthy_list (match_levels rule)
  && negb (in_list (lower level) (lower <$> match_levels rule)) = false <->
  (match_levels rule = [] \/ lower level ∈ lower <$> match_levels rule).
Proof.
  rewrite <- in_list_spec, <- truthy_list_false.
  destruct (truthy_list (match_levels rule)), (in_list _ _); cbn; intuition congruence.
Qed.

Lemma matches_true_iff (rule : InstructionRule) (source raw level : string) :
  matches rule source raw level = Ret true <->
  (match_source rule = "" \/
   exists pre post,
     chars (lower source) = pre ++ chars (lower (match_source rule)) ++ post) /\
  (match_levels rule = [] \/ lower level ∈ lower <$> match_levels rule) /\
  (match_pattern rule = "" \/
   re.re_search (match_pattern rule) raw re.IGNORECASE = Ret true).
Proof.
  rewrite <- source_condition, <- level_condition, <- truthy_false.
  unfold matches.
  destruct (truthy (match_source rule) && _); [intuition congruence|].
  destruct (truthy_list (match_levels rule) && _); [intuition congruence|].
  destruct (truthy (match_pattern rule)); [|intuition congruence].
  rewrite pattern_condition.
  destruct (re.re_search (match_pattern rule) raw re.IGNORECASE) as [m|e].
  - split; [intros [= ->]; auto|].
    intros (_ & _ & [Hp | Hp]); [done | congruence].
  - split.
    + destruct e; cbn; intros [=].
    + intros (_ & _ & [Hp | Hp]); done.
Qed.

(** Rules that do not match are passed over. *)
Lemma resolve_rules_skip (before rest : list InstructionRule) (source raw level : string) :
  Forall (fun r => matches r source raw level = Ret false) before ->
  resolve_rules (before ++ rest) source raw level = resolve_rules rest source raw level.
Proof.
  induction 1 as [|r before Hr _ IH]; [done|].
  simpl. rewrite Hr. cbn. exact IH.
Qed.

Lemma resolve_rules_hit (rule : InstructionRule) (after : list InstructionRule)
    (source raw level : string) :
  matches rule source raw level = Ret true ->
  resolve_rules (rule :: after) source raw level = Ret (instruction rule).
Proof. intros Hm. simpl. by rewrite Hm. Qed.

(** A rule list whose patterns raise nothing but [re.error] has an
    earliest matching rule or none at all. *)
Lemma first_match_or_none (rules : list InstructionRule) (source raw level : string) :
  Forall (fun r => re.raises_only_re_error (match_pattern r)) rules ->
  (exists before rule after,
     rules = before ++ rule :: after /\
     Forall (fun r => matches r source raw level = Ret false) before /\
     matches rule source raw level = Ret true) \/
  Forall (fun r => matches r source raw level = Ret false) rules.
Proof.
  induction 1 as [|r rules Hre _ IH]; [by right|].
  destruct (matches_returns r source raw level Hre) as [[|] Hr].
  - left. by exists [], r, rules.
  - destruct IH as [(before & rule & after & -> & Hb & Hm) | Hnone].
    + left. exists (r :: before), rule, after. by repeat constructor.
    + right. by constructor.
Qed.


End rules.

Section resolution.
Context `{L : re.RegexLibrary}.
Import store.

Lemma resolve_rules_returns (rules : list InstructionRule) (source raw level : string) :
  Forall (fun r => re.raises_only_re_error (match_pattern r)) rules ->
  exists instr, resolve_rules rules source raw level = Ret instr.
Proof.
  intros Hre.
  destruct (first_match_or_none rules source raw level Hre)
    as [(before & rule & after & -> & Hb & Hm) | Hnone].
  - rewrite (resolve_rules_skip _ _ _ _ _ Hb), (resolve_rules_hit _ _ _ _ _ Hm).
    by eexists.
  - rewrite <- (app_nil_r rules), (resolve_rules_skip _ _ _ _ _ Hnone). by eexists.
Qed.

Lemma resolve_earliest (t : Template) (source raw level : string)
    (before : list InstructionRule) (rule : InstructionRule)
    (after : list InstructionRule) :
  instruction_rules t = before ++ rule :: after ->
  Forall (fun r => matches r source raw level = Ret false) before ->
  matches rule source raw level = Ret true ->
  resolve_instruction t source raw level = Ret (instruction rule).
Proof.
  unfold resolve_instruction. intros -> Hb Hm.
  by rewrite (resolve_rules_skip _ _ _ _ _ Hb), (resolve_rules_hit _ _ _ _ _ Hm).
Qed.

Lemma resolve_none (t : Template) (source raw level : string) :
  Forall (fun r => matches r source raw level = Ret false) (instruction_rules t) ->
  resolve_instruction t source raw level = Ret "".
Proof.
  unfold resolve_instruction. intros Hnone.
  by rewrite <- (app_nil_r (instruction_rules t)),
             (resolve_rules_skip _ _ _ _ _ Hnone).
Qed.

(** A rule that does not match can be removed from the list. *)
Lemma resolve_rules_drop (rule : InstructionRule) (source raw level : string)
    (before after : list InstructionRule) :
  matches rule source raw level = Ret false ->
  resolve_rules (before ++ rule :: after) source raw level
  = resolve_rules (before ++ after) source raw level.
Proof.
  intros Hr. induction before as [|r before IH]; simpl.
  - by rewrite Hr.
  - destruct (matches r source raw level) as [[|]|e]; cbn; [done | exact IH | done].
Qed.

End resolution.

(* ===================================================================== *)
(** ** Claims about rules and the formatter                               *)
(* ===================================================================== *)



(** C2.  A rule matches an entry exactly when each of its present conditions
    holds: the lower-cased source contains the lower-cased substring, the
    lower-cased level is among the lower-cased allowed levels, and the
    pattern is found in the raw text by a search that ignores case; an
    empty condition holds.  Evaluating a rule yields a truth value when
    searching with its pattern raises nothing but [re.error].
    A rule whose only condition is the levels "err" and "crit" rejects
    level "info" and accepts level "crit" for any source and text. *)
Theorem rule_matches_iff_conditions `{L : re.RegexLibrary}
    (rule : store.InstructionRule) (source raw level : string) :
  (re.raises_only_re_error (store.match_pattern rule) ->
   exists b, store.matches rule source raw level = Ret b) /\
  (store.matches rule source raw level = Ret true <->
   (store.match_source rule = "" \/
    exists pre post,
      chars (lower source)
      = pre ++ chars (lower (store.match_source rule)) ++ post) /\
   (store.match_levels rule = [] \/
    lower level ∈ lower <$> store.match_levels rule) /\
   (store.match_pattern rule = "" \/
    re.re_search (store.match_pattern rule) raw re.IGNORECASE = Ret true)) /\
  (forall instr,
     let only_levels :=
       {| store.instruction := instr; store.match_source := "";
          store.match_pattern := ""; store.match_levels := ["err"; "crit"] |} in
     store.matches only_levels source raw "info" = Ret false /\
     store.matches only_levels source raw "crit" = Ret true).
Proof.
  split; [apply matches_returns|]. split; [apply matches_true_iff|].
  intros instr only_levels. split; reflexivity.
Qed.

Lemma rule_matches_iff_conditions_witness :
  store.matches (L := re.fragment_library) examples.rule_specific
    "/var/log/kern.log" "sda: Disk failure" "ERR" = Ret true.
Proof.
  apply (proj1 (proj2 (rule_matches_iff_conditions (L := re.fragment_library)
                         examples.rule_specific
                         "/var/log/kern.log" "sda: Disk failure" "ERR"))).
  split; [|split].
  - right. exists (chars "/var/log/"), (chars ".log"). reflexivity.
  - right. solve_elem.
  - right. reflexivity.
Defined.

(** X18.  A rule whose pattern is invalid in the sense of the handler
    (every search with it raises [re.error]) never raises and never
    matches; resolution goes on with the other rules as if the rule were
    not in the list, and returns the empty string when none of them
    matches. *)
Theorem invalid_pattern_rule_is_skipped `{L : re.RegexLibrary}
    (rule : store.InstructionRule) (source raw level : string) :
  re.invalid_pattern (store.match_pattern rule) ->
  store.match_pattern rule <> "" ->
  store.matches rule source raw level = Ret false /\
  (forall before after,
     store.resolve_rules (before ++ rule :: after) source raw level
     = store.resolve_rules (before ++ after) source raw level) /\
  (forall before after,
     Forall (fun r => store.matches r source raw level = Ret false)
            (before ++ after) ->
     store.resolve_rules (before ++ rule :: after) source raw level = Ret "").
Proof.
  intros Hbad Hne.
  assert (store.matches rule source raw level = Ret false) as Hfalse.
  { unfold store.matches.
    destruct (truthy (store.match_source rule) && _); [done|].
    destruct (truthy_list (store.match_levels rule) && _); [done|].
    apply truthy_true in Hne. rewrite Hne.
    rewrite (Hbad raw re.IGNORECASE). reflexivity. }
  split; [done|]. split.
  - intros before after. by apply resolve_rules_drop.
  - intros before after Hnone. rewrite (resolve_rules_drop _ _ _ _ _ _ Hfalse).
    by rewrite <- (app_nil_r (before ++ after)),
               (resolve_rules_skip _ _ _ _ _ Hnone).
Qed.

Lemma invalid_pattern_rule_is_skipped_witness :
  re.invalid_pattern (L := re.fragment_library) "(" /\
  store.matches (L := re.fragment_library) examples.rule_unbalanced
    "/var/log/kern.log" "sda: Disk failure" "ERR" = Ret false /\
  store.resolve_rules (L := re.fragment_library)
    ([examples.rule_auth] ++ examples.rule_unbalanced :: [examples.rule_levels])
    "/var/log/kern.log" "sda: Disk failure" "ERR"
  = Ret "Interpret the error.".
Proof.
  assert (re.invalid_pattern (L := re.fragment_library) "(") as Hbad
    by (intros text f; reflexivity).
  split; [exact Hbad|].
  destruct (invalid_pattern_rule_is_skipped (L := re.fragment_library)
              examples.rule_unbalanced "/var/log/kern.log" "sda: Disk failure" "ERR"
              Hbad ltac:(discriminate)) as (Hm & Hskip & _).
  split; [exact Hm|]. rewrite Hskip. reflexivity.
Defined.

(** C3.  The handler of [matches] names [re.error] only.  The string
    [a{99999999999}] is not a valid pattern either, and the library
    refuses it with [OverflowError]: evaluating a rule with this pattern
    raises, and so do resolution over a list that holds the rule and the
    formatter, while the same list without the rule resolves to an
    instruction. *)
Theorem uncaught_pattern_error_raises :
  @re.re_search re.counted_library "a{99999999999}" "sda: Disk failure"
    re.IGNORECASE = Raise OverflowError /\
  store.matches (L := re.counted_library) examples.rule_huge_repeat
    "/var/log/kern.log" "sda: Disk failure" "ERR" = Raise OverflowError /\
  store.resolve_rules (L := re.counted_library)
    ([examples.rule_auth] ++ examples.rule_huge_repeat :: [examples.rule_levels])
    "/var/log/kern.log" "sda: Disk failure" "ERR" = Raise OverflowError /\
  store.resolve_rules (L := re.counted_library)
    ([examples.rule_auth] ++ [examples.rule_levels])
    "/var/log/kern.log" "sda: Disk failure" "ERR" = Ret "Interpret the error." /\
  log_formatter.entry_to_loglm (L := re.counted_library) examples.entry_disk
    (Some (examples.template_of
             [examples.rule_auth; examples.rule_huge_repeat; examples.rule_levels]))
  = Raise OverflowError.
Proof. repeat split; reflexivity. Qed.

Section formatter.
Context `{L : re.RegexLibrary}.
Import log_formatter.

(** The template tier yields an instruction when searching with the
    patterns of the template's rules raises nothing but [re.error]. *)
Lemma template_tier_returns (entry : base.LogEntry) (template : option store.Template) :
  (forall t rule,
     template = Some t -> rule ∈ store.instruction_rules t ->
     re.raises_only_re_error (store.match_pattern rule)) ->
  exists resolved,
    match template with
    | Some t =>
        store.resolve_instruction t
          (base.source entry) (base.raw entry) (base.level entry)
    | None => Ret ""
    end = Ret resolved.
Proof.
  intros Hre. destruct template as [t|]; [|by eexists].
  apply resolve_rules_returns. apply Forall_forall. intros rule Hin.
  by apply (Hre t).
Qed.

(** An exception raised by the template tier leaves the formatter. *)
Lemma entry_to_loglm_raises (entry : base.LogEntry)
    (template : option store.Template) (e : exn) :
  match template with
  | Some t =>
      store.resolve_instruction t
        (base.source entry) (base.raw entry) (base.level entry)
  | None => Ret ""
  end = Raise e ->
  entry_to_loglm entry template = Raise e.
Proof. unfold entry_to_loglm. intros ->. reflexivity. Qed.

Lemma fragment_raises_only_re_error (pattern : string) :
  re.raises_only_re_error (L := re.fragment_library) pattern.
Proof.
  intros text f e. cbn. unfold re.fragment_search.
  destruct (re.compile pattern f) as [c|]; [destruct (re.search c text)|];
    congruence.
Qed.

Lemma instruction_map_keys (k : string) :
  is_Some (INSTRUCTION_MAP !! k) <->
  k ∈ ["error"; "err"; "crit"; "alert"; "emerg"; "warning"; "warn"].
Proof.
  unfold INSTRUCTION_MAP. rewrite <- not_eq_None_Some, <- not_elem_of_list_to_map.
  cbn. split.
  - intros H. by destruct (decide (k ∈ ["error"; "err"; "crit"; "alert"; "emerg";
                                         "warning"; "warn"])).
  - auto.
Qed.

Lemma instruction_map_values (k i : string) :
  INSTRUCTION_MAP !! k = Some i -> i <> "" /\ i <> _DEFAULT_INSTRUCTION.
Proof.
  intros Hk.
  assert (is_Some (INSTRUCTION_MAP !! k)) as Hin by by eexists.
  apply instruction_map_keys in Hin.
  repeat (apply elem_of_cons in Hin as [-> | Hin];
          [vm_compute in Hk; injection Hk as <-; split; discriminate|]).
  by apply elem_of_nil in Hin.
Qed.

(** The dictionary built for an entry, given what the template tier yields. *)
Lemma entry_to_loglm_of_resolved (entry : base.LogEntry)
    (template : option store.Template) (resolved : string) :
  match template with
  | Some t =>
      store.resolve_instruction t
        (base.source entry) (base.raw entry) (base.level entry)
  | None => Ret ""
  end = Ret resolved ->
  entry_to_loglm entry template =
  Ret (<["Instruction" :=
           if negb (truthy resolved)
           then dict_get INSTRUCTION_MAP (lower (base.level entry)) _DEFAULT_INSTRUCTION
           else resolved]>
         (<["Input" := base.raw entry]> (<["Response" := ""]> ∅))).
Proof. unfold entry_to_loglm. intros ->. reflexivity. Qed.

End formatter.

(** C4.  The instruction attached to an entry, for whatever instruction
    rule resolution yields: that instruction when it is not empty;
    otherwise the entry of the level table for the lower-cased level; and
    the generic default exactly when the table has no entry for that level.
    An exception raised by rule resolution leaves the formatter.  The table
    knows the levels error, err, crit, alert, emerg, warning and warn, and
    none of its instructions is the generic default. *)
Theorem entry_instruction_precedence `{L : re.RegexLibrary}
    (entry : base.LogEntry) (template : option store.Template) :
  (forall resolved,
     match template with
     | Some t =>
         store.resolve_instruction t
           (base.source entry) (base.raw entry) (base.level entry)
     | None => Ret ""
     end = Ret resolved ->
     exists d,
       log_formatter.entry_to_loglm entry template = Ret d /\
       d !! "Input" = Some (base.raw entry) /\
       d !! "Response" = Some "" /\
       (resolved <> "" -> d !! "Instruction" = Some resolved) /\
       (resolved = "" ->
        forall i,
          log_formatter.INSTRUCTION_MAP !! lower (base.level entry) = Some i ->
          d !! "Instruction" = Some i /\ i <> log_formatter._DEFAULT_INSTRUCTION) /\
       (resolved = "" ->
        log_formatter.INSTRUCTION_MAP !! lower (base.level entry) = None ->
        d !! "Instruction" = Some log_formatter._DEFAULT_INSTRUCTION)) /\
  (forall e,
     match template with
     | Some t =>
         store.resolve_instruction t
           (base.source entry) (base.raw entry) (base.level entry)
     | None => Ret ""
     end = Raise e ->
     log_formatter.entry_to_loglm entry template = Raise e) /\
  (forall k,
     is_Some (log_formatter.INSTRUCTION_MAP !! k) <->
     k ∈ ["error"; "err"; "crit"; "alert"; "emerg"; "warning"; "warn"]).
Proof.
  split; [|split].
  - intros resolved Hr. eexists.
    split; [by apply entry_to_loglm_of_resolved|].
    split; [reflexivity|]. split; [reflexivity|].
    rewrite lookup_insert_eq. split; [|split].
    + intros Hne. apply truthy_true in Hne. by rewrite Hne.
    + intros -> i Hi. cbn [truthy negb]. unfold log_formatter.dict_get. rewrite Hi.
      split; [done|]. by apply (instruction_map_values _ _ Hi).
    + intros -> Hnone. cbn [truthy negb]. unfold log_formatter.dict_get.
      by rewrite Hnone.
  - apply entry_to_loglm_raises.
  - apply instruction_map_keys.
Qed.

Lemma entry_instruction_precedence_witness :
  (exists d,
     log_formatter.entry_to_loglm (L := re.fragment_library) examples.entry_disk
       (Some (examples.template_of [examples.rule_specific])) = Ret d /\
     d !! "Instruction" = Some "Analyze this storage error.") /\
  (exists d,
     log_formatter.entry_to_loglm (L := re.fragment_library) examples.entry_disk None
     = Ret d /\
     d !! "Instruction" = Some "Interpret the error message in the given log.") /\
  (exists d,
     log_formatter.entry_to_loglm (L := re.fragment_library) examples.entry_debug
       (Some (examples.template_of [examples.rule_specific])) = Ret d /\
     d !! "Instruction" = Some log_formatter._DEFAULT_INSTRUCTION).
Proof.
  split; [|split].
  - destruct (proj1 (entry_instruction_precedence (L := re.fragment_library)
                       examples.entry_disk
                       (Some (examples.template_of [examples.rule_specific])))
                "Analyze this storage error." eq_refl)
      as (d & Hd & _ & _ & Hrule & _).
    exists d. split; [exact Hd|]. apply Hrule. discriminate.
  - destruct (proj1 (entry_instruction_precedence (L := re.fragment_library)
                       examples.entry_disk None) "" eq_refl)
      as (d & Hd & _ & _ & _ & Hlevel & _).
    exists d. split; [exact Hd|]. apply (Hlevel eq_refl). reflexivity.
  - destruct (proj1 (entry_instruction_precedence (L := re.fragment_library)
                       examples.entry_debug
                       (Some (examples.template_of [examples.rule_specific])))
                "" eq_refl)
      as (d & Hd & _ & _ & _ & _ & Hdefault).
    exists d. split; [exact Hd|]. apply (Hdefault eq_refl). reflexivity.
Defined.

(** C9.  When the earliest matching rule carries an empty instruction, the
    formatter's result is the one it gives without a template, and the one
    it gives with a template none of whose rules matches: the instruction
    comes from the level table or the generic default, and is not empty. *)
Theorem empty_instruction_rule_falls_back `{L : re.RegexLibrary}
    (entry : base.LogEntry) (t : store.Template)
    (before : list store.InstructionRule) (rule : store.InstructionRule)
    (after : list store.InstructionRule) :
  store.instruction_rules t = before ++ rule :: after ->
  Forall (fun r => store.matches r (base.source entry) (base.raw entry)
                     (base.level entry) = Ret false) before ->
  store.matches rule (base.source entry) (base.raw entry) (base.level entry)
  = Ret true ->
  store.instruction rule = "" ->
  log_formatter.entry_to_loglm entry (Some t)
  = log_formatter.entry_to_loglm entry None /\
  (forall t',
     Forall (fun r => store.matches r (base.source entry) (base.raw entry)
                        (base.level entry) = Ret false)
            (store.instruction_rules t') ->
     log_formatter.entry_to_loglm entry (Some t)
     = log_formatter.entry_to_loglm entry (Some t')) /\
  (exists d instr,
     log_formatter.entry_to_loglm entry (Some t) = Ret d /\
     d !! "Instruction" = Some instr /\ instr <> "" /\
     instr = log_formatter.dict_get log_formatter.INSTRUCTION_MAP
               (lower (base.level entry)) log_formatter._DEFAULT_INSTRUCTION).
Proof.
  intros Hrules Hbefore Hrule Hempty.
  pose proof (resolve_earliest t (base.source entry) (base.raw entry)
                (base.level entry) before rule after Hrules Hbefore Hrule) as Hres.
  rewrite Hempty in Hres.
  rewrite (entry_to_loglm_of_resolved entry (Some t) "" Hres).
  split; [|split].
  - symmetry. by apply (entry_to_loglm_of_resolved entry None "").
  - intros t' Hnone.
    pose proof (resolve_none t' (base.source entry) (base.raw entry)
                  (base.level entry) Hnone) as Hres'.
    symmetry. by apply (entry_to_loglm_of_resolved entry (Some t') "").
  - eexists. eexists. split; [reflexivity|]. rewrite lookup_insert_eq.
    cbn [truthy negb]. split; [reflexivity|]. split; [|reflexivity].
    unfold log_formatter.dict_get.
    destruct (log_formatter.INSTRUCTION_MAP !! lower (base.level entry)) as [i|] eqn:Hi.
    + cbn. by apply (instruction_map_values _ _ Hi).
    + discriminate.
Qed.

Lemma empty_instruction_rule_falls_back_witness :
  log_formatter.entry_to_loglm (L := re.fragment_library) examples.entry_disk
    (Some (examples.template_of
             [examples.rule_auth; examples.rule_silent; examples.rule_specific]))
  = log_formatter.entry_to_loglm (L := re.fragment_library) examples.entry_disk None.
Proof.
  apply (empty_instruction_rule_falls_back (L := re.fragment_library)
           examples.entry_disk
           (examples.template_of
              [examples.rule_auth; examples.rule_silent; examples.rule_specific])
           [examples.rule_auth] examples.rule_silent [examples.rule_specific]).
  - reflexivity.
  - repeat constructor.
  - reflexivity.
  - reflexivity.
Defined.

(* ===================================================================== *)
(** ** Discovery of log files                                             *)
(* ===================================================================== *)

Section discovery.
Import scout.
Variable fs : FileSystem.

Lemma endswith_spec (s suffix : string) :
  endswith s suffix = true <-> exists pre, chars s = pre ++ chars suffix.
Proof.
  unfold endswith. rewrite starts_with_spec. split.
  - intros [post E]. exists (rev post).
    apply (f_equal (@rev ascii)) in E. by rewrite rev_involutive, rev_app_distr, rev_involutive in E.
  - intros [pre E]. exists (rev pre). by rewrite E, rev_app_distr.
Qed.

Lemma skip_suffixes_listed (suffix : string) :
  suffix ∈ _SKIP_SUFFIXES <-> suffix ∈ spec.skip_suffixes.
Proof.
  unfold _SKIP_SUFFIXES, spec.skip_suffixes.
  rewrite !elem_of_union, !elem_of_singleton, !elem_of_cons, elem_of_nil. tauto.
Qed.

Lemma skip_names_listed (n : string) : n ∈ _SKIP_NAMES <-> n ∈ spec.skip_names.
Proof.
  unfold _SKIP_NAMES, spec.skip_names.
  rewrite !elem_of_union, !elem_of_singleton, !elem_of_cons, elem_of_nil. tauto.
Qed.

Lemma existsb_false_elem {A} (test : A -> bool) (l : list A) :
  existsb test l = false -> forall x, x ∈ l -> test x = false.
Proof.
  induction l as [|y l IH]; cbn [existsb]; intros Hex x Hin.
  - by apply elem_of_nil in Hin.
  - apply orb_false_iff in Hex as [Hy Hl].
    apply elem_of_cons in Hin as [-> | Hin]; [exact Hy | by apply IH].
Qed.

Lemma no_suffix_of_existsb (n : string) :
  existsb (endswith n) (elements _SKIP_SUFFIXES) = false ->
  forall suffix, suffix ∈ _SKIP_SUFFIXES -> endswith n suffix = false.
Proof.
  intros Hex suffix Hin.
  apply (existsb_false_elem _ _ Hex). apply elem_of_elements. exact Hin.
Qed.

(** The loop only ever appends the paths of eligible entries, in the order
    of the directory. *)
Lemma discover_loop_sound (it : scan) :
  forall acc,
  exists entries,
    (discover_loop fs it acc).1 = acc ++ (path <$> entries) /\
    sublist entries (scan_entries it) /\
    Forall (eligible fs) entries.
Proof.
  induction it as [|entry rest IH|e]; intros acc;
    cbn [discover_loop scan_entries fst].
  - exists []. cbn [fst fmap list_fmap]. rewrite app_nil_r.
    split; [reflexivity|]. split; [apply sublist_nil_l | constructor].
  - assert (exists entries,
              (discover_loop fs rest acc).1 = acc ++ (path <$> entries) /\
              sublist entries (entry :: scan_entries rest) /\
              Forall (eligible fs) entries) as Hskip.
    { destruct (IH acc) as (entries & E & Hsub & Hel).
      exists entries. split; [exact E|].
      split; [apply sublist_cons; exact Hsub | exact Hel]. }
    destruct (is_file entry) as [[|]|e] eqn:Hfile; [| exact Hskip |].
    + destruct (bool_decide (name entry ∈ _SKIP_NAMES)) eqn:Hname; [exact Hskip|].
      destruct (existsb (endswith (name entry)) (elements _SKIP_SUFFIXES)) eqn:Hsuf;
        [exact Hskip|].
      destruct (access_R_OK fs (path entry)) eqn:Hacc; [|exact Hskip].
      destruct (read_prefix fs (path entry)) as [[]|e] eqn:Hread.
      * destruct (IH (acc ++ [path entry])) as (entries & E & Hsub & Hel).
        exists (entry :: entries). split; [|split].
        -- rewrite E, <- app_assoc. reflexivity.
        -- apply sublist_skip. exact Hsub.
        -- constructor; [|exact Hel].
           split; [exact Hfile|]. split.
           { apply bool_decide_eq_false in Hname. exact Hname. }
           split; [apply no_suffix_of_existsb; exact Hsuf|].
           split; [exact Hacc | exact Hread].
      * destruct (bool_decide (e ∈ [UnicodeDecodeError; OSError])); [exact Hskip|].
        exists []. cbn [fst fmap list_fmap]. rewrite app_nil_r.
        split; [reflexivity|]. split; [apply sublist_nil_l | constructor].
    + exists []. cbn [fst fmap list_fmap]. rewrite app_nil_r.
      split; [reflexivity|]. split; [apply sublist_nil_l | constructor].
  - exists []. cbn [fst fmap list_fmap]. rewrite app_nil_r.
    split; [reflexivity|]. split; [apply sublist_nil_l | constructor].
Qed.

End discovery.

(** C7.  Whatever the directory holds, every path that discovery returns is
    the path of a directory entry that is a regular file, is readable, has a
    prefix that decodes as text, is not named btmp, wtmp, lastlog or
    faillog, and whose name ends in none of .gz, .xz, .bz2, .zst, .1, .2,
    .3, .4; the paths come in directory order.  When reading the directory
    itself fails with an [OSError] the result is the empty list, and
    discovery never raises an [OSError]. *)
Theorem discovery_returns_only_eligible_files (fs : scout.FileSystem) (log_dir : string) :
  (forall results,
     scout._discover_log_files fs log_dir = Ret results ->
     exists entries,
       results = scout.path <$> entries /\
       sublist entries (scout.scan_entries (scout.scandir fs log_dir)) /\
       Forall (fun entry =>
                 scout.is_file entry = Ret true /\
                 scout.access_R_OK fs (scout.path entry) = true /\
                 scout.read_prefix fs (scout.path entry) = Ret tt /\
                 (scout.name entry ∉ spec.skip_names) /\
                 forall suffix, suffix ∈ spec.skip_suffixes ->
                   ~ exists pre, chars (scout.name entry) = pre ++ chars suffix)
              entries) /\
  (scout.scandir fs log_dir = scout.ScanRaise OSError ->
   scout._discover_log_files fs log_dir = Ret []) /\
  (forall e, scout._discover_log_files fs log_dir = Raise e -> e <> OSError).
Proof.
  unfold scout._discover_log_files. split; [|split].
  - intros results Hres.
    destruct (discover_loop_sound fs (scout.scandir fs log_dir) [])
      as (entries & E & Hsub & Hel).
    destruct (scout.discover_loop fs (scout.scandir fs log_dir) [])
      as [found raised] eqn:Hloop.
    simpl in E. subst found.
    assert (results = scout.path <$> entries) as ->.
    { destruct raised as [e|]; [|congruence].
      destruct (bool_decide (e ∈ [OSError])); congruence. }
    exists entries. split; [done|]. split; [done|].
    eapply Forall_impl; [exact Hel|].
    intros entry (Hfile & Hname & Hsuf & Hacc & Hread).
    repeat split; try done.
    + by rewrite <- skip_names_listed.
    + intros suffix Hin Hends. apply skip_suffixes_listed in Hin.
      apply endswith_spec in Hends. rewrite (Hsuf suffix Hin) in Hends. done.
  - intros ->. reflexivity.
  - intros e.
    destruct (scout.discover_loop fs (scout.scandir fs log_dir) [])
      as [found [e'|]]; [|done].
    destruct (bool_decide (e' ∈ [OSError])) eqn:Hos; [done|].
    intros [= ->]. intros ->. apply bool_decide_eq_false in Hos.
    apply Hos. by apply list_elem_of_singleton.
Qed.

Lemma discovery_returns_only_eligible_files_witness :
  scout._discover_log_files examples.var_log "/var/log"
  = Ret ["/var/log/syslog"; "/var/log/messages"] /\
  scout._discover_log_files examples.var_log "/srv/missing" = Ret [] /\
  exists entries,
    ["/var/log/syslog"; "/var/log/messages"] = scout.path <$> entries /\
    Forall (fun entry => scout.name entry ∉ spec.skip_names) entries.
Proof.
  split; [reflexivity|]. split.
  - apply (proj1 (proj2 (discovery_returns_only_eligible_files
                           examples.var_log "/srv/missing"))).
    reflexivity.
  - destruct (proj1 (discovery_returns_only_eligible_files examples.var_log "/var/log")
                ["/var/log/syslog"; "/var/log/messages"] eq_refl)
      as (entries & E & _ & Hel).
    exists entries. split; [exact E|].
    eapply Forall_impl; [exact Hel|]. intros entry (_ & _ & _ & Hn & _). exact Hn.
Defined.

(* ===================================================================== *)
(** ** Merges                                                             *)
(* ===================================================================== *)

Section merges.
Import scout.
Context {A : Type}.
Implicit Types (D : list (list A)) (out : list A).

Lemma concat_insert_snoc D i d (x : A) :
  D !! i = Some d -> concat (<[i := d ++ [x]]> D) ≡ₚ concat D ++ [x].
Proof.
  intros Hi. pose proof (lookup_lt_Some _ _ _ Hi) as Hlt.
  rewrite (insert_take_drop _ _ _ Hlt).
  rewrite <- (take_drop_middle _ _ _ Hi) at 3.
  rewrite !concat_app, !concat_cons, <- !app_assoc.
  apply Permutation_app_head. apply Permutation_app_head.
  apply Permutation_app_comm.
Qed.

(** A merge holds every element of every list exactly once. *)
Lemma merge_of_permutation D out : merge_of D out -> out ≡ₚ concat D.
Proof.
  induction 1 as [D Hnil | D i d x out Hi _ IH].
  - induction Hnil as [|d D -> _ IH]; [done | exact IH].
  - rewrite (concat_insert_snoc _ _ _ _ Hi). by rewrite IH.
Qed.

(** A merge keeps the order of each list. *)
Lemma merge_of_sublist D out :
  merge_of D out -> forall i d, D !! i = Some d -> sublist d out.
Proof.
  induction 1 as [D Hnil | D i0 d0 x out Hi0 _ IH]; intros i d Hi.
  - rewrite (Forall_lookup_1 _ _ _ _ Hnil Hi). apply sublist_nil_l.
  - apply list_lookup_insert_Some in Hi as [(<- & <- & _) | (Hne & Hi)].
    + apply sublist_app; [by apply (IH i0) | done].
    + apply sublist_inserts_r. by apply (IH i).
Qed.

Lemma merge_of_length D out :
  merge_of D out -> length out = sum_list (length <$> D).
Proof.
  intros H. rewrite (Permutation_length (merge_of_permutation _ _ H)).
  clear H. induction D as [|d D IH]; [done|].
  cbn. rewrite length_app. by rewrite IH.
Qed.

End merges.

(* ===================================================================== *)
(** ** Watchers appending to the shared list                              *)
(* ===================================================================== *)

(** Case analysis on a lookup in a list updated at one index. *)
Ltac split_insert H :=
  let E := fresh "E" in
  let V := fresh "V" in
  apply list_lookup_insert_Some in H as [(E & V & ?) | (? & H)];
  [ match type of E with
    | ?a = ?a => clear E
    | ?a = ?b => subst b
    end;
    match type of V with
    | ?a = ?a => clear V
    | ?a = ?b => first [is_var b; subst b | idtac]
    end
  | ].

Section aggregation.
Import scout.
Variable programs : list (list call).

Lemma invariant_start : invariant programs (start programs).
Proof.
  exists ((fun _ => []) <$> programs). unfold start. cbn [_hits _lock threads].
  split; [|split; [|split; [|split]]].
  - apply merge_nil. apply Forall_fmap. by apply Forall_true.
  - split; [by rewrite length_fmap|]. split; [by rewrite length_fmap|].
    intros i p d th Hp Hd Hth.
    apply list_lookup_fmap_Some in Hd as (p1 & -> & _).
    apply list_lookup_fmap_Some in Hth as (p2 & -> & Hp2).
    rewrite Hp in Hp2. injection Hp2 as <-. reflexivity.
  - intros i th Hth. apply list_lookup_fmap_Some in Hth as (p & -> & _). done.
  - done.
  - intros i rest hit seen Hth.
    apply list_lookup_fmap_Some in Hth as (p & [=] & _).
Qed.

Lemma accounted_update D ts i th th' :
  accounted programs D ts -> ts !! i = Some th ->
  remaining th' = remaining th ->
  accounted programs D (<[i := th']> ts).
Proof.
  intros (HD & Hts & Hacc) Hi Hrem.
  split; [done|]. split; [by rewrite length_insert|].
  intros j p d thj Hp Hd Hj. split_insert Hj.
  - rewrite Hrem. by apply (Hacc i).
  - by apply (Hacc j).
Qed.

Lemma accounted_store D ts i rest hit seen d :
  accounted programs D ts ->
  ts !! i = Some (Thread rest (Loaded hit seen)) -> D !! i = Some d ->
  accounted programs (<[i := d ++ [hit]]> D) (<[i := Thread rest (Stored hit)]> ts).
Proof.
  intros (HD & Hts & Hacc) Hi HDi.
  split; [by rewrite length_insert|]. split; [by rewrite length_insert|].
  intros j p dj thj Hp Hd Hj. split_insert Hj.
  - split_insert Hd; [|done].
    rewrite (Hacc i p d _ Hp HDi Hi). unfold remaining. cbn.
    by rewrite <- app_assoc.
  - split_insert Hd; [done|]. by apply (Hacc j).
Qed.

(** Every step keeps the invariant. *)
Lemma invariant_step s s' : invariant programs s -> step s s' -> invariant programs s'.
Proof.
  intros (D & Hmerge & Hacc & Hheld & Hholder & Hseen) Hstep.
  destruct Hstep as [s i c rest Hi | s i rest hit Hi Hfree | s i rest hit Hi
                    | s i rest hit seen Hi | s i rest hit Hi | s i rest hit Hi];
    unfold invariant, set_thread; cbn [_hits _lock threads].
  - (* the hit is built *)
    exists D. split; [done|]. split; [by apply (accounted_update _ _ _ _ _ Hacc Hi)|].
    split; [|split].
    + intros j th Hj Hh. split_insert Hj; [done | by apply (Hheld j th)].
    + intros j Hj. destruct (Hholder j Hj) as (th & Hth & Hh).
      destruct (decide (i = j)) as [<-|Hne].
      * rewrite Hi in Hth. injection Hth as <-. done.
      * exists th. by rewrite list_lookup_insert_ne.
    + intros j rest' hit' seen' Hj. split_insert Hj; [done | by eapply Hseen].
  - (* the lock is taken *)
    exists D. split; [done|]. split; [by apply (accounted_update _ _ _ _ _ Hacc Hi)|].
    split; [|split].
    + intros j th Hj Hh. split_insert Hj; [done|].
      rewrite (Hheld j th Hj Hh) in Hfree. done.
    + intros j [= <-]. exists (Thread rest (Locked hit)). split; [|reflexivity].
      apply list_lookup_insert_eq. by eapply lookup_lt_Some.
    + intros j rest' hit' seen' Hj. split_insert Hj; [done | by eapply Hseen].
  - (* the list is read *)
    exists D. split; [done|]. split; [by apply (accounted_update _ _ _ _ _ Hacc Hi)|].
    split; [|split].
    + intros j th Hj Hh. split_insert Hj; [by apply (Hheld i _ Hi) | by apply (Hheld j th)].
    + intros j Hj. destruct (Hholder j Hj) as (th & Hth & Hh).
      destruct (decide (i = j)) as [<-|Hne].
      * exists (Thread rest (Loaded hit (_hits s))). split; [|reflexivity].
        apply list_lookup_insert_eq. by eapply lookup_lt_Some.
      * exists th. by rewrite list_lookup_insert_ne.
    + intros j rest' hit' seen' Hj. split_insert Hj; [congruence | by eapply Hseen].
  - (* the extended list is written back *)
    pose proof (Hseen i rest hit seen Hi) as ->.
    destruct Hacc as (HD & Hts & Hidx).
    destruct (lookup_lt_is_Some_2 D i) as [d Hd].
    { rewrite HD, <- Hts. by eapply lookup_lt_Some. }
    exists (<[i := d ++ [hit]]> D). split; [by apply merge_snoc|].
    split; [by apply (accounted_store D _ _ _ _ (_hits s))|].
    split; [|split].
    + intros j th Hj Hh. split_insert Hj; [by apply (Hheld i _ Hi) | by apply (Hheld j th)].
    + intros j Hj. destruct (Hholder j Hj) as (th & Hth & Hh).
      destruct (decide (i = j)) as [<-|Hne].
      * exists (Thread rest (Stored hit)). split; [|reflexivity].
        apply list_lookup_insert_eq. by eapply lookup_lt_Some.
      * exists th. by rewrite list_lookup_insert_ne.
    + intros j rest' hit' seen' Hj. split_insert Hj; [done|].
      exfalso. pose proof (Hheld i _ Hi eq_refl) as Hli.
      pose proof (Hheld j _ Hj eq_refl) as Hlj. congruence.
  - (* the lock is given back *)
    exists D. split; [done|]. split; [by apply (accounted_update _ _ _ _ _ Hacc Hi)|].
    split; [|split].
    + intros j th Hj Hh. split_insert Hj; [done|].
      exfalso. pose proof (Hheld i _ Hi eq_refl) as Hli.
      pose proof (Hheld j _ Hj Hh) as Hlj. congruence.
    + done.
    + intros j rest' hit' seen' Hj. split_insert Hj; [done | by eapply Hseen].
  - (* the callback has run *)
    exists D. split; [done|]. split; [by apply (accounted_update _ _ _ _ _ Hacc Hi)|].
    split; [|split].
    + intros j th Hj Hh. split_insert Hj; [done | by apply (Hheld j th)].
    + intros j Hj. destruct (Hholder j Hj) as (th & Hth & Hh).
      destruct (decide (i = j)) as [<-|Hne].
      * rewrite Hi in Hth. injection Hth as <-. done.
      * exists th. by rewrite list_lookup_insert_ne.
    + intros j rest' hit' seen' Hj. split_insert Hj; [done | by eapply Hseen].
Qed.

Lemma invariant_reachable s : rtc step (start programs) s -> invariant programs s.
Proof.
  intros Hrun.
  apply (rtc_ind_r (R := step) (invariant programs) (start programs));
    [| | exact Hrun].
  - apply invariant_start.
  - intros y z _ Hstep IH. by apply (invariant_step y).
Qed.

(** When every thread is done the list is a merge of the threads' hits. *)
Lemma finished_merge s :
  invariant programs s -> finished s ->
  merge_of (hits_of <$> programs) (_hits s).
Proof.
  intros (D & Hmerge & (HD & Hts & Hidx) & _) Hfin.
  replace (hits_of <$> programs) with D; [done|].
  apply (list_eq_same_length _ _ (length programs)); [by rewrite length_fmap | done |].
  intros i d hits Hlt Hd Hp.
  apply list_lookup_fmap_Some in Hp as (p & -> & Hp).
  destruct (lookup_lt_is_Some_2 (threads s) i) as [th Hth]; [by rewrite Hts|].
  unfold hits_of. rewrite (Hidx i p d th Hp Hd Hth).
  rewrite (Forall_lookup_1 _ _ _ _ Hfin Hth). unfold remaining. cbn.
  by rewrite app_nil_r.
Qed.

End aggregation.

Section progress.
Import scout.
Variable programs : list (list call).

Lemma thread_done_dec (th : thread) :
  {th = Thread [] Idle} + {th <> Thread [] Idle}.
Proof.
  destruct th as [[|c rest] []]; (by left) || (right; discriminate).
Qed.

(** A thread inside the locked block can always take its next step. *)
Lemma holder_steps s i th :
  threads s !! i = Some th -> holds_lock (at_pc th) = true ->
  exists s', step s s'.
Proof.
  destruct th as [rest []]; cbn; intros Hi Hh; try discriminate.
  - eexists. by eapply step_load.
  - eexists. by eapply step_store.
  - eexists. by eapply step_release.
Qed.

(** No deadlock: a reachable state is finished or has a next step. *)
Lemma finished_or_step s :
  invariant programs s -> finished s \/ exists s', step s s'.
Proof.
  intros (D & _ & _ & Hheld & Hholder & _).
  destruct (Forall_Exists_dec _ _ thread_done_dec (threads s)) as [Hall | Hex];
    [by left | right].
  apply Exists_exists in Hex as (th & Hin & Hnot).
  apply list_elem_of_lookup in Hin as [i Hi].
  destruct th as [rest [|hit|hit|hit seen|hit|hit]].
  - destruct rest as [|c rest]; [done|]. eexists. by eapply step_build.
  - destruct (_lock s) as [j|] eqn:Hlock.
    + destruct (Hholder j eq_refl) as (thj & Hj & Hh). by eapply holder_steps.
    + eexists. by eapply step_acquire.
  - eexists. by eapply step_load.
  - eexists. by eapply step_store.
  - eexists. by eapply step_release.
  - eexists. by eapply step_callback.
Qed.

Lemma sum_list_insert {T} (f : T -> nat) (ts : list T) (i : nat) (th th' : T) :
  ts !! i = Some th ->
  sum_list (f <$> <[i := th']> ts) + f th = sum_list (f <$> ts) + f th'.
Proof.
  revert i. induction ts as [|t ts IH]; intros [|i] Hi; try discriminate.
  - injection Hi as ->. cbn. lia.
  - cbn in Hi |- *. rewrite <- !Nat.add_assoc. f_equal. exact (IH i Hi).
Qed.

(** Every step uses up one unit of the work that is left. *)
Lemma step_work_left s s' : step s s' -> S (work_left s') = work_left s.
Proof.
  unfold work_left.
  intros [s0 i c rest Hi | s0 i rest hit Hi Hfree | s0 i rest hit Hi
         | s0 i rest hit seen Hi | s0 i rest hit Hi | s0 i rest hit Hi];
    unfold set_thread; cbn [threads];
    match goal with
    | |- context [<[i := ?th']> _] =>
        pose proof (sum_list_insert steps_left _ i _ th' Hi) as Hsum
    end;
    generalize dependent (sum_list (steps_left <$> threads s0));
    intros total;
    match goal with
    | |- context [sum_list ?l] => generalize (sum_list l)
    end;
    intros total'; unfold steps_left; cbn [pending at_pc length]; lia.
Qed.

(** Every run can be brought to an end. *)
Lemma run_completes (n : nat) :
  forall s, work_left s <= n -> invariant programs s ->
  exists s', rtc step s s' /\ finished s'.
Proof.
  induction n as [|n IH]; intros s Hn Hinv.
  - destruct (finished_or_step s Hinv) as [Hfin | [s' Hstep]].
    + by exists s.
    + apply step_work_left in Hstep. lia.
  - destruct (finished_or_step s Hinv) as [Hfin | [s' Hstep]].
    + by exists s.
    + destruct (IH s') as (s'' & Hrun & Hfin).
      * apply step_work_left in Hstep. lia.
      * by apply (invariant_step programs s).
      * exists s''. split; [by eapply rtc_l | done].
Qed.

End progress.

(** C8.  N watchers, M hits each, appending concurrently.  In every state
    that a run reaches with all watchers done, the list holds exactly N×M
    hits: it is a permutation of all the watchers' hits (none lost, none
    twice), and each watcher's hits appear in it in the order the watcher
    emitted them.  No run deadlocks: from every reachable state the run
    can be brought to such an end. *)
Theorem concurrent_appends_all_recorded
    (programs : list (list scout.call)) (N M : nat) :
  length programs = N ->
  Forall (fun program => length program = M) programs ->
  (forall s,
     rtc scout.step (scout.start programs) s -> scout.finished s ->
     length (scout._hits s) = N * M /\
     scout._hits s ≡ₚ concat (scout.hits_of <$> programs) /\
     (forall i program,
        programs !! i = Some program ->
        sublist (scout.hits_of program) (scout._hits s)) /\
     scout.merge_of (scout.hits_of <$> programs) (scout._hits s)) /\
  (forall s,
     rtc scout.step (scout.start programs) s ->
     exists s', rtc scout.step s s' /\ scout.finished s').
Proof.
  intros HN HM. split.
  - intros s Hrun Hfin.
    pose proof (finished_merge programs s (invariant_reachable programs s Hrun) Hfin)
      as Hmerge.
    split; [|split; [|split]].
    + rewrite (merge_of_length _ _ Hmerge), <- list_fmap_compose.
      rewrite <- HN. apply sum_list_fmap_same.
      eapply Forall_impl; [exact HM|]. intros program Hlen. cbn.
      unfold scout.hits_of. by rewrite length_fmap.
    + by apply merge_of_permutation.
    + intros i program Hi. apply (merge_of_sublist _ _ Hmerge i).
      by rewrite list_lookup_fmap, Hi.
    + exact Hmerge.
  - intros s Hrun.
    apply (run_completes programs (scout.work_left s)); [lia|].
    by apply invariant_reachable.
Qed.

Lemma concurrent_appends_all_recorded_witness :
  length examples.two_watchers = 2 /\
  Forall (fun program => length program = 2) examples.two_watchers /\
  forall s,
    rtc scout.step (scout.start examples.two_watchers) s -> scout.finished s ->
    length (scout._hits s) = 2 * 2.
Proof.
  split; [reflexivity|]. split; [repeat constructor|].
  intros s Hrun Hfin.
  apply (proj1 (concurrent_appends_all_recorded examples.two_watchers 2 2
                  eq_refl ltac:(repeat constructor)) s Hrun Hfin).
Defined.

(* ===================================================================== *)
(** ** The template store                                                 *)
(* ===================================================================== *)

Section template_store.
Import store.

Lemma get_loop_app (l1 l2 : list Template) (n : string) :
  get_loop (l1 ++ l2) n =
  match get_loop l1 n with
  | Some t => Some t
  | None => get_loop l2 n
  end.
Proof.
  induction l1 as [|t l1 IH]; [done|]. cbn [app get_loop].
  by destruct (String.eqb (name t) n).
Qed.

Lemma get_loop_filter_other (l : list Template) (n m : string) :
  n <> m -> get_loop (filter (fun t => name t <> m) l) n = get_loop l n.
Proof.
  intros Hne. induction l as [|t l IH]; [done|].
  rewrite filter_cons. destruct (decide (name t <> m)) as [Hm|Hm]; cbn [get_loop].
  - by rewrite IH.
  - apply dec_stable in Hm. destruct (String.eqb_spec (name t) n) as [Hn|Hn].
    + congruence.
    + exact IH.
Qed.

Lemma get_loop_filter_same (l : list Template) (n : string) :
  get_loop (filter (fun t => name t <> n) l) n = None.
Proof.
  induction l as [|t l IH]; [done|].
  rewrite filter_cons. destruct (decide (name t <> n)) as [Hm|Hm]; [|exact IH].
  cbn [get_loop]. destruct (String.eqb_spec (name t) n) as [Hn|Hn]; [done | exact IH].
Qed.

Lemma get_after_save (l : list Template) (t : Template) :
  get_loop (filter (fun u => name u <> name t) l ++ [t]) (name t) = Some t.
Proof.
  rewrite get_loop_app, get_loop_filter_same. cbn.
  by rewrite String.eqb_refl.
Qed.

Lemma get_loop_Some (l : list Template) (n : string) (t : Template) :
  get_loop l n = Some t -> t ∈ l /\ name t = n.
Proof.
  induction l as [|u l IH]; [done|]. cbn [get_loop].
  destruct (String.eqb_spec (name u) n) as [Hn|Hn].
  - intros [= <-]. split; [left | done].
  - intros H. destruct (IH H) as [Hin Ht]. split; [by right | done].
Qed.

Lemma get_loop_None (l : list Template) (n : string) :
  get_loop l n = None <-> forall t, t ∈ l -> name t <> n.
Proof.
  induction l as [|u l IH]; cbn [get_loop].
  - split; [|done]. intros _ t Ht. by apply elem_of_nil in Ht.
  - destruct (String.eqb_spec (name u) n) as [Hn|Hn].
    + split; [done|]. intros H. exfalso. apply (H u); [left | done].
    + rewrite IH. split.
      * intros H t [->|Ht]%elem_of_cons; [done | by apply H].
      * intros H t Ht. apply H. by right.
Qed.

Lemma filter_names_id (l : list Template) (n : string) :
  (forall t, t ∈ l -> name t <> n) -> filter (fun t => name t <> n) l = l.
Proof.
  induction l as [|u l IH]; [done|]. intros H.
  rewrite filter_cons_True by (apply H; left).
  f_equal. apply IH. intros t Ht. apply H. by right.
Qed.

Lemma filter_names_shorter (l : list Template) (n : string) (t : Template) :
  t ∈ l -> name t = n -> length (filter (fun u => name u <> n) l) < length l.
Proof.
  intros Hin Hn. apply (length_filter_lt _ _ t); [done|]. by intros H.
Qed.

Lemma names_filter (l : list Template) (n : string) :
  name <$> filter (fun t => name t <> n) l = filter (fun m => m <> n) (name <$> l).
Proof.
  induction l as [|u l IH]; [done|]. rewrite fmap_cons, !filter_cons.
  destruct (decide (name u <> n)); [by rewrite fmap_cons, IH | exact IH].
Qed.





End template_store.

(** X1.  Saving a template and then looking its name up returns that
    template, whether or not the write to disk succeeded.  The saved
    template is the only one of its name and the last of the list; the
    other templates keep their order. *)
Theorem save_template_then_get (self : store.TemplateStore) (disk : store.Disk)
    (template : store.Template) :
  let self' := (store.save_template self disk template).1 in
  store.get self' (store.name template) = Some template /\
  store.all self' =
    filter (fun t => store.name t <> store.name template) (store.all self)
    ++ [template] /\
  filter (fun t => store.name t = store.name template) (store.all self')
  = [template].
Proof.
  cbn. unfold store.get, store.all. cbn. split; [|split].
  - apply get_after_save.
  - reflexivity.
  - rewrite filter_app. rewrite filter_cons_True by done. cbn.
    replace (filter _ (filter _ _)) with (@nil store.Template); [done|].
    symmetry. induction (store._templates self) as [|u l IH]; [done|].
    rewrite filter_cons. destruct (decide (store.name u <> store.name template)) as [Hu|Hu].
    + rewrite filter_cons_False by done. exact IH.
    + exact IH.
Qed.

(** X2.  Saving a template changes nothing for the other names: a lookup of
    any other name returns what it returned before.  If the names in the
    store were pairwise different they still are. *)
Theorem save_template_keeps_others (self : store.TemplateStore) (disk : store.Disk)
    (template : store.Template) :
  let self' := (store.save_template self disk template).1 in
  (forall n, n <> store.name template -> store.get self' n = store.get self n) /\
  (NoDup (store.name <$> store.all self) -> NoDup (store.name <$> store.all self')).
Proof.
  cbn. unfold store.get, store.all. cbn. split.
  - intros n Hn. rewrite get_loop_app, (get_loop_filter_other _ _ _ Hn).
    destruct (store.get_loop (store._templates self) n); [done|]. cbn.
    destruct (String.eqb_spec (store.name template) n); [congruence | done].
  - intros Hnd. rewrite fmap_app, names_filter. cbn.
    apply NoDup_app. split; [by apply NoDup_filter|]. split; [|apply NoDup_singleton].
    intros n [Hn _]%list_elem_of_filter ->%list_elem_of_singleton. done.
Qed.

Lemma save_template_keeps_others_witness :
  store.get (store.save_template examples.sample_store examples.disk_ok
               examples.template_gpu_v2).1 "auth"
  = Some examples.template_auth /\
  NoDup (store.name <$> store.all
           (store.save_template examples.sample_store examples.disk_ok
              examples.template_gpu_v2).1).
Proof.
  split.
  - rewrite (proj1 (save_template_keeps_others examples.sample_store examples.disk_ok
                      examples.template_gpu_v2) "auth"); [reflexivity | discriminate].
  - apply (proj2 (save_template_keeps_others examples.sample_store examples.disk_ok
                    examples.template_gpu_v2)).
    apply (bool_decide_unpack _). vm_compute. exact I.
Defined.

(** X3.  Deleting a name: when no template has the name, the call returns
    false, writes nothing and leaves the list as it was; when one has, the
    call removes every template of that name and then writes the list.  In
    both cases a later lookup of the name finds nothing and lookups of other
    names are unchanged. *)
Theorem delete_removes_name (self : store.TemplateStore) (disk : store.Disk)
    (n : string) :
  let '(self', outcome) := store.delete self disk n in
  store.get self' n = None /\
  (forall m, m <> n -> store.get self' m = store.get self m) /\
  (store.get self n = None ->
   outcome = Ret (false, disk) /\ store.all self' = store.all self) /\
  (store.get self n <> None ->
   outcome = (disk' ← store._persist self' disk; Ret (true, disk')) /\
   length (store.all self') < length (store.all self)).
Proof.
  unfold store.delete.
  set (kept := filter (fun t => store.name t <> n) (store._templates self)).
  assert (store.get_loop kept n = None) as Hgone by apply get_loop_filter_same.
  assert (forall m, m <> n -> store.get_loop kept m
                              = store.get_loop (store._templates self) m) as Hother
      by (intros m Hm; by apply get_loop_filter_other).
  cbn [store._templates].
  destruct (length kept <? length (store._templates self)) eqn:Hlen;
    unfold store.get, store.all; cbn [store._templates];
    (split; [exact Hgone|]); (split; [exact Hother|]); split.
  - intros Hnone. exfalso. apply Nat.ltb_lt in Hlen.
    rewrite get_loop_None in Hnone. unfold kept in Hlen.
    rewrite (filter_names_id _ _ Hnone) in Hlen. lia.
  - intros _. split; [done | by apply Nat.ltb_lt].
  - intros Hnone. split; [done|]. apply filter_names_id. by apply get_loop_None.
  - intros Hsome. exfalso. apply Nat.ltb_ge in Hlen.
    destruct (store.get_loop (store._templates self) n) as [t|] eqn:Ht; [|done].
    apply get_loop_Some in Ht as [Hin Hname].
    pose proof (filter_names_shorter _ _ _ Hin Hname). unfold kept in Hlen. lia.
Qed.

Lemma delete_removes_name_witness :
  store.get (store.delete examples.sample_store examples.disk_read_only "gpu").1 "gpu"
  = None /\
  (store.delete examples.sample_store examples.disk_read_only "nas").2
  = Ret (false, examples.disk_read_only).
Proof.
  pose proof (delete_removes_name examples.sample_store examples.disk_read_only "nas")
    as Habsent.
  pose proof (delete_removes_name examples.sample_store examples.disk_read_only "gpu")
    as Hpresent.
  destruct (store.delete examples.sample_store examples.disk_read_only "nas")
    as [s1 o1].
  destruct (store.delete examples.sample_store examples.disk_read_only "gpu")
    as [s2 o2].
  split.
  - exact (proj1 Hpresent).
  - exact (proj1 (proj1 (proj2 (proj2 Habsent)) eq_refl)).
Defined.



(* ===================================================================== *)
(** ** Formatting a list of entries                                       *)
(* ===================================================================== *)

Section formatting.
Context `{L : re.RegexLibrary}.
Import log_formatter.

(** The record of one entry: it comes out when the rule patterns raise
    nothing but [re.error], and its instruction is never empty. *)
Lemma entry_record (entry : base.LogEntry) (template : option store.Template) :
  (forall t rule,
     template = Some t -> rule ∈ store.instruction_rules t ->
     re.raises_only_re_error (store.match_pattern rule)) ->
  exists record instr,
    entry_to_loglm entry template = Ret record /\
    record !! "Input" = Some (base.raw entry) /\
    record !! "Response" = Some "" /\
    record !! "Instruction" = Some instr /\ instr <> "".
Proof.
  intros Hre. destruct (template_tier_returns entry template Hre) as [resolved Hr].
  eexists. eexists. split; [by apply entry_to_loglm_of_resolved|].
  split; [reflexivity|]. split; [reflexivity|].
  rewrite lookup_insert_eq. split; [reflexivity|].
  destruct (truthy resolved) eqn:Ht; cbn [negb].
  - by apply truthy_true.
  - unfold dict_get.
    destruct (INSTRUCTION_MAP !! lower (base.level entry)) as [i|] eqn:Hi; cbn.
    + by apply (instruction_map_values _ _ Hi).
    + discriminate.
Qed.

End formatting.

(** X5.  Provided searching with the patterns of the template's rules
    raises nothing but [re.error], formatting a list of entries does not
    raise and gives one record per entry, in the order of the entries: the
    record of an entry has the entry's raw text as "Input", an empty
    "Response" and an "Instruction" that is never empty. *)
Theorem format_entries_one_record_each `{L : re.RegexLibrary}
    (entries : list base.LogEntry) (template : option store.Template) :
  (forall t rule,
     template = Some t -> rule ∈ store.instruction_rules t ->
     re.raises_only_re_error (store.match_pattern rule)) ->
  exists records,
    log_formatter.format_entries entries template = Ret records /\
    length records = length entries /\
    forall i entry,
      entries !! i = Some entry ->
      exists record instr,
        records !! i = Some record /\
        record !! "Input" = Some (base.raw entry) /\
        record !! "Response" = Some "" /\
        record !! "Instruction" = Some instr /\ instr <> "".
Proof.
  intros Hre. unfold log_formatter.format_entries.
  induction entries as [|entry entries IH].
  - exists []. split; [reflexivity|]. split; [reflexivity|]. intros i e Hi. done.
  - destruct IH as (records & Hrec & Hlen & Hall).
    destruct (entry_record entry template Hre) as (record & instr & He & Hfields).
    exists (record :: records). split; [|split].
    + cbn. rewrite He. cbn. rewrite Hrec. reflexivity.
    + cbn. by rewrite Hlen.
    + intros [|i] e Hi.
      * injection Hi as <-. by exists record, instr.
      * by apply (Hall i).
Qed.

Lemma format_entries_one_record_each_witness :
  exists records,
    log_formatter.format_entries (L := re.fragment_library)
      [examples.entry_disk; examples.entry_debug]
      (Some (examples.template_of [examples.rule_silent])) = Ret records /\
    exists record, records !! 1 = Some record /\
                   record !! "Input" = Some "started".
Proof.
  destruct (format_entries_one_record_each (L := re.fragment_library)
              [examples.entry_disk; examples.entry_debug]
              (Some (examples.template_of [examples.rule_silent]))
              (fun t rule _ _ =>
                 fragment_raises_only_re_error (store.match_pattern rule)))
    as (records & Hrec & _ & Hall).
  exists records. split; [exact Hrec|].
  destruct (Hall 1 examples.entry_debug eq_refl) as (record & instr & Hr & Hin & _).
  by exists record.
Defined.

(* ===================================================================== *)
(** ** Hits grouped by source                                             *)
(* ===================================================================== *)

Section grouping.
Import scout.
Implicit Types (grouped : list (string * list ScoutHit)) (hit : ScoutHit).

(** The group of a source among the hits seen so far. *)
Lemma dict_lookup_setdefault key hit grouped s :
  dict_lookup s (setdefault_append key hit grouped) =
  if decide (s = key)
  then Some (default [] (dict_lookup key grouped) ++ [hit])
  else dict_lookup s grouped.
Proof.
  induction grouped as [|[k group] grouped IH]; cbn [setdefault_append dict_lookup].
  - destruct (decide (s = key)) as [->|Hne].
    + by rewrite String.eqb_refl.
    + destruct (String.eqb_spec key s); [congruence | done].
  - destruct (String.eqb_spec k key) as [->|Hk]; cbn [dict_lookup].
    + destruct (String.eqb_spec key s) as [->|Hs].
      * by rewrite decide_True.
      * by rewrite decide_False by congruence.
    + destruct (String.eqb_spec k s) as [->|Hs].
      * by rewrite decide_False by congruence.
      * exact IH.
Qed.

Lemma dict_lookup_keys key grouped :
  key ∈ grouped.*1 <-> is_Some (dict_lookup key grouped).
Proof.
  induction grouped as [|[k group] grouped IH]; cbn [dict_lookup fmap list_fmap fst].
  - split; [by intros ?%elem_of_nil | by intros [? ?]].
  - destruct (String.eqb_spec k key) as [->|Hk].
    + split; [by eexists | left].
    + rewrite elem_of_cons, IH. split; [intros [?|?]; [congruence | done] | by right].
Qed.

Lemma setdefault_append_NoDup key hit grouped :
  NoDup grouped.*1 -> NoDup (setdefault_append key hit grouped).*1.
Proof.
  induction grouped as [|[k group] grouped IH]; cbn [setdefault_append].
  - intros _. apply NoDup_singleton.
  - cbn [fmap list_fmap fst]. intros [Hk Hnd]%NoDup_cons.
    destruct (String.eqb_spec k key) as [->|Hne]; cbn [fmap list_fmap fst].
    + by apply NoDup_cons.
    + apply NoDup_cons. split; [|by apply IH].
      rewrite dict_lookup_keys, dict_lookup_setdefault.
      rewrite decide_False by done. by rewrite <- dict_lookup_keys.
Qed.

Lemma setdefault_append_size key hit grouped :
  sum_list (length ∘ snd <$> setdefault_append key hit grouped)
  = S (sum_list (length ∘ snd <$> grouped)).
Proof.
  induction grouped as [|[k group] grouped IH]; cbn [setdefault_append]; [done|].
  destruct (String.eqb k key); cbn.
  - rewrite length_app. cbn. lia.
  - cbn in IH. rewrite IH. lia.
Qed.

(** The state of the loop of [sources] after the hits [seen]. *)
Lemma sources_loop (rest : list ScoutHit) :
  forall grouped seen,
    NoDup grouped.*1 ->
    (forall s, dict_lookup s grouped =
               match filter (fun h => source h = s) seen with
               | [] => None
               | g => Some g
               end) ->
    sum_list (length ∘ snd <$> grouped) = length seen ->
    let result :=
      foldl (fun grouped hit => setdefault_append (source hit) hit grouped)
            grouped rest in
    NoDup result.*1 /\
    (forall s, dict_lookup s result =
               match filter (fun h => source h = s) (seen ++ rest) with
               | [] => None
               | g => Some g
               end) /\
    sum_list (length ∘ snd <$> result) = length (seen ++ rest).
Proof.
  induction rest as [|hit rest IH]; intros grouped seen Hnd Hlook Hsize.
  - cbn. by rewrite app_nil_r.
  - cbn [foldl].
    replace (seen ++ hit :: rest) with ((seen ++ [hit]) ++ rest)
      by (by rewrite <- app_assoc).
    apply IH.
    + by apply setdefault_append_NoDup.
    + intros s. rewrite dict_lookup_setdefault, filter_app, filter_cons.
      destruct (decide (s = source hit)) as [->|Hne].
      * rewrite decide_True by done. rewrite Hlook.
        by destruct (filter _ seen).
      * rewrite decide_False by congruence. rewrite Hlook. cbn.
        by rewrite app_nil_r.
    + rewrite setdefault_append_size, Hsize, length_app. cbn. lia.
Qed.

End grouping.

(** X6.  Grouping the hits of a session by source: every source appears
    once among the keys; the group of a source is exactly the hits of that
    source, in the order of the session, and a source without hits has no
    group; the sizes of the groups add up to the total. *)
Theorem sources_groups_hits (result : scout.ScoutResult) :
  NoDup (scout.sources result).*1 /\
  (forall s,
     scout.dict_lookup s (scout.sources result) =
     match filter (fun h => scout.source h = s) (scout.hits result) with
     | [] => None
     | g => Some g
     end) /\
  sum_list (length ∘ snd <$> scout.sources result) = scout.total result.
Proof.
  unfold scout.sources, scout.total.
  apply (sources_loop (scout.hits result) [] []); [constructor | done | done].
Qed.

(* ===================================================================== *)
(** ** Stripping white space and whole-word tokens                        *)
(* ===================================================================== *)

Section stripping.
Import re.

Lemma space_not_word (c : ascii) : is_space_char c = true -> is_word_char c = false.
Proof. destruct c as [[] [] [] [] [] [] [] []]; vm_compute; congruence. Qed.

Lemma lstrip_chars_spec (l : list ascii) :
  exists ws, l = ws ++ lstrip_chars l /\
             Forall (fun c => is_space_char c = true) ws.
Proof.
  induction l as [|c l IH]; cbn [lstrip_chars].
  - exists []. by split.
  - destruct (is_space_char c) eqn:Hc.
    + destruct IH as (ws & E & Hws). exists (c :: ws).
      split; [cbn; by rewrite <- E | by constructor].
    + exists []. by split.
Qed.

(** A text is its stripped form between two runs of white space. *)
Lemma strip_spec (s : string) :
  exists ws1 ws2,
    chars s = ws1 ++ chars (strip s) ++ ws2 /\
    Forall (fun c => is_space_char c = true) ws1 /\
    Forall (fun c => is_space_char c = true) ws2.
Proof.
  unfold strip. rewrite chars_str.
  destruct (lstrip_chars_spec (chars s)) as (ws1 & E1 & H1).
  destruct (lstrip_chars_spec (rev (lstrip_chars (chars s)))) as (ws2 & E2 & H2).
  exists ws1, (rev ws2). split; [|split; [done|]].
  - rewrite E1 at 1. f_equal.
    apply (f_equal (@rev ascii)) in E2.
    rewrite rev_involutive, rev_app_distr in E2. exact E2.
  - apply Forall_forall. intros c Hc. apply (proj1 (Forall_forall _ _) H2).
    apply list_elem_of_In. apply list_elem_of_In in Hc. by apply in_rev.
Qed.

Lemma is_word_last_spaces (ws pre : list ascii) :
  Forall (fun c => is_space_char c = true) ws ->
  is_word_opt (last (ws ++ pre)) = is_word_opt (last pre).
Proof.
  intros Hws. rewrite last_app. destruct (last pre) as [c|] eqn:El; [done|].
  destruct (last ws) as [c|] eqn:Ew; [|done]. cbn.
  apply space_not_word. apply (proj1 (Forall_forall _ _) Hws).
  by apply last_Some_elem_of.
Qed.

Lemma is_word_head_spaces (post ws : list ascii) :
  Forall (fun c => is_space_char c = true) ws ->
  is_word_opt (head (post ++ ws)) = is_word_opt (head post).
Proof.
  intros Hws. destruct post as [|c post]; [|done]. cbn.
  destruct ws as [|c ws]; [done|]. cbn. apply space_not_word. by inversion Hws.
Qed.

Variable kws : list (list ascii).
Hypothesis kws_keywords : Forall (fun w => keyword_like w = true) kws.

Lemma token_chars (w : list ascii) :
  lower_chars w ∈ kws ->
  w <> [] /\ Forall (fun c => is_space_char c = false) w.
Proof using kws_keywords.
  intros Hw.
  destruct (keyword_like_word w) as [Hne Hall];
    [by apply (proj1 (Forall_forall _ _) kws_keywords)|].
  split; [done|]. eapply Forall_impl; [exact Hall|].
  intros c Hc. destruct (is_space_char c) eqn:Hs; [|done].
  apply space_not_word in Hs. congruence.
Qed.

(** Tokens of the stripped text are tokens of the text, further right by
    the white space in front. *)
Lemma occurs_padded (ws1 mid ws2 : list ascii) (j : nat) (w : list ascii) :
  Forall (fun c => is_space_char c = true) ws1 ->
  Forall (fun c => is_space_char c = true) ws2 ->
  occurs kws mid j w -> occurs kws (ws1 ++ mid ++ ws2) (length ws1 + j) w.
Proof.
  intros H1 H2 (pre & post & -> & <- & Hw & Hp & Hn).
  exists (ws1 ++ pre), (post ++ ws2). split; [|split; [|split; [|split]]].
  - by rewrite <- !app_assoc.
  - by rewrite length_app.
  - done.
  - by rewrite is_word_last_spaces.
  - by rewrite is_word_head_spaces.
Qed.

(** Every token of the text lies in the stripped text. *)
Lemma occurs_unpadded (ws1 mid ws2 : list ascii) (i : nat) (w : list ascii) :
  Forall (fun c => is_space_char c = true) ws1 ->
  Forall (fun c => is_space_char c = true) ws2 ->
  occurs kws (ws1 ++ mid ++ ws2) i w ->
  exists j, i = length ws1 + j /\ occurs kws mid j w.
Proof using kws_keywords.
  intros H1 H2 (pre & post & E & <- & Hw & Hp & Hn).
  destruct (token_chars w Hw) as [Hne Hns].
  destruct w as [|c w]; [done|]. clear Hne.
  assert (is_space_char c = false) as Hc by (by inversion Hns).
  (* the white space in front lies before the token *)
  assert (exists pre', pre = ws1 ++ pre' /\ mid ++ ws2 = pre' ++ (c :: w) ++ post)
    as (pre' & -> & E').
  { symmetry in E. apply app_eq_inv in E as [(k & -> & E) | (k & -> & E)].
    - by exists k.
    - destruct k as [|d k].
      + exists []. rewrite !app_nil_r. split; [done | by rewrite E].
      + exfalso. injection E as -> E.
        apply Forall_app in H1 as [_ H1]. inversion H1; congruence. }
  (* the white space behind lies after it *)
  assert (exists post', post = post' ++ ws2 /\ mid = pre' ++ (c :: w) ++ post')
    as (post' & -> & ->).
  { rewrite (app_assoc pre') in E'.
    apply app_eq_inv in E' as [(k & -> & ->) | (k & E' & ->)].
    - exists k. split; [done | by rewrite <- app_assoc].
    - destruct k as [|d k].
      + exists []. rewrite app_nil_r in E'. split; [done|].
        rewrite <- E'. f_equal. symmetry. apply app_nil_r.
      + exfalso.
        assert (last (pre' ++ c :: w) = last (d :: k)) as Hl.
        { by rewrite E', last_app_cons. }
        destruct (last (d :: k)) as [e|] eqn:Hk; [|by apply last_None in Hk].
        rewrite last_app_cons in Hl.
        destruct (last (c :: w)) as [e'|] eqn:Hw'; [|by apply last_None in Hw'].
        injection Hl as ->.
        apply last_Some_elem_of in Hw', Hk.
        assert (is_space_char e = false)
          by (by apply (proj1 (Forall_forall _ _) Hns)).
        assert (is_space_char e = true).
        { apply Forall_app in H2 as [H2 _].
          by apply (proj1 (Forall_forall _ _) H2). }
        congruence. }
  exists (length pre'). split; [by rewrite length_app|].
  exists pre', post'. split; [done|]. split; [done|]. split; [done|].
  rewrite is_word_last_spaces in Hp by done.
  rewrite is_word_head_spaces in Hn by done. done.
Qed.

End stripping.

Section search_stripped.
Import re.
Variable g : regex.
Variable kws : list string.
Hypothesis g_plain : plain g = true.
Hypothesis g_keywords : Forall (fun w => keyword_like w = true) (words g).
Hypothesis g_words : words g = chars <$> kws.

Let P : Pattern := {| pat_regex := whole_word g; pat_flags := IGNORECASE |}.

Lemma kws_keyword_like : Forall (fun w => keyword_like w = true) (chars <$> kws).
Proof using g_keywords g_words. by rewrite <- g_words. Qed.

(** Searching the stripped line finds the keyword that searching the line
    finds. *)
Lemma search_strip (line : string) :
  match search P (strip line) with
  | Some m => Some (group_lower m 1)
  | None => None
  end =
  match search P line with
  | Some m => Some (group_lower m 1)
  | None => None
  end.
Proof using g_plain g_keywords g_words.
  destruct (strip_spec line) as (ws1 & ws2 & E & H1 & H2).
  destruct (search P line) as [m|] eqn:Hline.
  - destruct (search_Some_token g kws g_plain g_keywords g_words line m Hline)
      as (w & Hocc & Hg & _ & Hmin).
    unfold token_at in Hocc. rewrite E in Hocc.
    apply (occurs_unpadded _ kws_keyword_like) in Hocc as (j & Hj & Hocc);
      [|done..].
    destruct (search_of_first_token g kws g_plain g_keywords g_words
                (strip line) j w) as (m' & Hs & _ & Hg').
    + exact Hocc.
    + intros j' w' Hocc'.
      assert (token_at kws line (length ws1 + j') w') as Hin.
      { unfold token_at. rewrite E. by apply occurs_padded. }
      pose proof (Hmin _ _ Hin). lia.
    + fold P in Hs. rewrite Hs. congruence.
  - destruct (search P (strip line)) as [m'|] eqn:Hs; [|done].
    exfalso.
    destruct (search_Some_token g kws g_plain g_keywords g_words (strip line) m' Hs)
      as (w & Hocc & _).
    apply (no_token_of_search_None g kws g_plain g_keywords g_words line Hline
             (length ws1 + re.m_start m') w).
    unfold token_at. rewrite E. by apply occurs_padded.
Qed.

End search_stripped.

Section levels.

Lemma parse_level_returns (line : string) :
  exists v, general._parse_level line = Ret v /\ v ∈ spec.LogLevel.
Proof.
  pose proof (search_Some_token _ _ level_re_plain level_re_keywords
                level_re_words line) as HSome.
  rewrite <- level_re_shape in HSome. unfold general._parse_level.
  destruct (re.search general._LEVEL_RE line) as [m|] eqn:E.
  - destruct (HSome m eq_refl) as (w & _ & Hg & Hin & _). by exists (lower w).
  - exists "info". split; [done|]. solve_elem.
Qed.

Lemma parse_level_strip (line : string) :
  general._parse_level (strip line) = general._parse_level line.
Proof.
  pose proof (search_strip _ _ level_re_plain level_re_keywords level_re_words line)
    as Hlevel.
  rewrite <- level_re_shape in Hlevel. unfold general._parse_level.
  destruct (re.search general._LEVEL_RE (strip line)),
           (re.search general._LEVEL_RE line); congruence.
Qed.

Lemma matches_strip (text : string) :
  scout._matches (strip text) = scout._matches text.
Proof.
  pose proof (search_strip _ _ error_re_plain error_re_keywords error_re_words text)
    as Herror.
  rewrite <- error_re_shape in Herror. unfold scout._matches.
  destruct (re.search scout._ERROR_RE (strip text)), (re.search scout._ERROR_RE text);
    congruence.
Qed.

End levels.

(** X7.  White space around a line does not change its classification: the
    level of the stripped line is the level of the line, and the noteworthy
    keyword of the stripped line is that of the line.  So the level and the
    keyword stored with a stripped text are those of the stored text. *)
Theorem classification_ignores_surrounding_space (line : string) :
  general._parse_level (strip line) = general._parse_level line /\
  scout._matches (strip line) = scout._matches line.
Proof. split; [apply parse_level_strip | apply matches_strip]. Qed.

(* ===================================================================== *)
(** ** The journal and log-file collectors                                *)
(* ===================================================================== *)

Section line_tools.

Lemma rev_reverse {A} (l : list A) : rev l = reverse l.
Proof. unfold reverse. apply rev_alt. Qed.

Lemma lstrip_chars_head (l : list ascii) (c : ascii) :
  head (lstrip_chars l) = Some c -> is_space_char c = false.
Proof.
  induction l as [|a l IH]; cbn [lstrip_chars]; [done|].
  destruct (is_space_char a) eqn:Ha; [exact IH|].
  cbn. by intros [= <-].
Qed.

Lemma lstrip_chars_id (l : list ascii) :
  (forall c, head l = Some c -> is_space_char c = false) -> lstrip_chars l = l.
Proof.
  destruct l as [|a l]; [done|]. cbn. intros H. by rewrite (H a eq_refl).
Qed.

(** Stripping a stripped text changes nothing. *)
Lemma strip_strip (s : string) : strip (strip s) = strip s.
Proof.
  unfold strip. rewrite chars_str.
  set (a := lstrip_chars (chars s)). set (b := lstrip_chars (rev a)).
  assert (lstrip_chars (rev b) = rev b) as ->.
  { apply lstrip_chars_id. intros c Hc.
    rewrite rev_reverse, head_reverse in Hc.
    destruct (lstrip_chars_spec (rev a)) as (ws & E & _). fold b in E.
    assert (last (rev a) = Some c) as Hl by (by rewrite E, last_app, Hc).
    rewrite rev_reverse, last_reverse in Hl.
    by apply (lstrip_chars_head (chars s)). }
  rewrite rev_involutive.
  assert (lstrip_chars b = b) as ->; [|done].
  apply lstrip_chars_id. intros c. apply lstrip_chars_head.
Qed.

(** [l[-n:]] for a positive [n]: the last [n] elements. *)
Lemma slice_from_last {A} (n : Z) (l : list A) :
  (0 < n)%Z -> slice_from (- n) l = drop (length l - Z.to_nat n) l.
Proof.
  intros Hn. unfold slice_from.
  destruct (Z.ltb_spec (- n) 0) as [_|]; [|lia]. f_equal. lia.
Qed.

Lemma any_in_spec (keywords : list string) (text : string) :
  any_in keywords text = true <->
  exists kw, kw ∈ keywords /\ contains kw text = true.
Proof.
  unfold any_in. rewrite existsb_exists. split.
  - intros (kw & Hin & Hc). exists kw. split; [by apply list_elem_of_In | done].
  - intros (kw & Hin & Hc). exists kw. split; [by apply list_elem_of_In | done].
Qed.

End line_tools.


Section journal_errors.
Import base.

(** A stripped line is kept when it is not empty and is not one of
    journalctl's [-- ... --] marker lines. *)
Let kept (line : string) : Prop := line <> "" /\ startswith line "--" = false.

Lemma kept_test (line : string) :
  negb (truthy line) || startswith line "--" = false <-> kept line.
Proof.
  unfold kept. rewrite orb_false_iff, negb_false_iff, truthy_true. done.
Qed.

Lemma errors_loop_spec (lines : list string) :
  forall acc, exists new,
    general.errors_loop lines acc = Ret (acc ++ new) /\
    raw <$> new = filter kept (strip <$> lines) /\
    Forall (fun e => source e = "journalctl:errors" /\ message e = raw e /\
                     general._parse_level (raw e) = Ret (level e)) new.
Proof.
  induction lines as [|line lines IH]; intros acc; cbn [general.errors_loop].
  - exists []. by rewrite app_nil_r.
  - rewrite fmap_cons.
    destruct (negb (truthy (strip line)) || startswith (strip line) "--") eqn:E.
    + destruct (IH acc) as (new & -> & Hraw & Hall). exists new.
      split; [done|]. split; [|done].
      rewrite filter_cons_False; [done|]. intros Hk%kept_test. congruence.
    + destruct (parse_level_returns (strip line)) as (v & Hv & _).
      rewrite Hv. cbn [mbind res_bind].
      destruct (IH (acc ++ [{| source := "journalctl:errors"; message := strip line;
                               raw := strip line; timestamp := None; level := v;
                               extra := ∅ |}])) as (new & -> & Hraw & Hall).
      eexists (_ :: new). split; [by rewrite <- app_assoc|]. split.
      * rewrite filter_cons_True by (by apply kept_test).
        rewrite fmap_cons. by f_equal.
      * by constructor.
Qed.


(** X8.  [_collect_errors] never fails and keeps, in order, exactly the
    stripped lines of the command's output that are neither empty nor
    [--] marker lines.  Every entry carries its text without surrounding
    white space as both message and raw text, and its level is the level
    [_parse_level] reads from that text. *)
Theorem collect_errors_keeps_trimmed_lines
    (run_command : list string -> Z -> string) (since : string) :
  exists entries,
    general._collect_errors run_command since = Ret entries /\
    raw <$> entries =
      filter kept
        (strip <$> splitlines
           (run_command ["journalctl"; "-p"; "err..emerg"; "--since"; since;
                         "--no-pager"; "-o"; "short-iso"] 30%Z)) /\
    Forall (fun e => source e = "journalctl:errors" /\ message e = raw e /\
                     strip (raw e) = raw e /\
                     general._parse_level (raw e) = Ret (level e)) entries.
Proof.
  unfold general._collect_errors.
  destruct (errors_loop_spec
              (splitlines
                 (run_command ["journalctl"; "-p"; "err..emerg"; "--since"; since;
                               "--no-pager"; "-o"; "short-iso"] 30%Z)) [])
    as (entries & -> & Hraw & Hall).
  exists entries. split; [done|]. split; [done|].
  apply Forall_forall. intros e He.
  destruct (proj1 (Forall_forall _ _) Hall e He) as (Hs & Hm & Hl).
  split; [done|]. split; [done|]. split; [|done].
  assert (raw e ∈ raw <$> entries) as Hin by (by apply list_elem_of_fmap_2).
  rewrite Hraw in Hin. apply list_elem_of_filter in Hin as [_ Hin].
  apply list_elem_of_fmap in Hin as (l & -> & _). apply strip_strip.
Qed.

End journal_errors.

Section log_files.
Import base.
Variable readlines : string -> res (list string).

Lemma auth_lines_loop_spec (auth_path : string) (lines : list string) :
  forall acc, exists new,
    general.auth_lines_loop auth_path lines acc = acc ++ new /\
    raw <$> new =
      strip <$> filter (fun l => any_in ["failed"; "failure"; "invalid"; "error"; "refused"]
                                   (lower l) = true) lines /\
    Forall (fun e => source e = auth_path /\ message e = raw e /\
                     level e = "warning") new.
Proof.
  induction lines as [|line lines IH]; intros acc; cbn [general.auth_lines_loop].
  - exists []. by rewrite app_nil_r.
  - destruct (any_in _ (lower line)) eqn:E.
    + destruct (IH (acc ++ [{| source := auth_path; message := strip line;
                               raw := strip line; timestamp := None;
                               level := "warning"; extra := ∅ |}]))
        as (new & -> & Hraw & Hall).
      eexists (_ :: new). split; [by rewrite <- app_assoc|]. split.
      * rewrite filter_cons_True by done. rewrite !fmap_cons. by f_equal.
      * by constructor.
    + destruct (IH acc) as (new & -> & Hraw & Hall). exists new.
      split; [done|]. split; [|done].
      rewrite filter_cons_False; [done|]. congruence.
Qed.

Lemma kern_lines_loop_spec (lines : list string) :
  forall acc, exists new,
    general.kern_lines_loop lines acc = Ret (acc ++ new) /\
    raw <$> new =
      strip <$> filter (fun l => any_in ["critical"; "error"; "err]"; "crit"]
                                   (lower l) = true) lines /\
    Forall (fun e => source e = "/var/log/kern.log" /\ message e = raw e /\
                     general._parse_level (raw e) = Ret (level e)) new.
Proof.
  induction lines as [|line lines IH]; intros acc; cbn [general.kern_lines_loop].
  - exists []. by rewrite app_nil_r.
  - destruct (any_in _ (lower line)) eqn:E.
    + destruct (parse_level_returns line) as (v & Hv & _).
      rewrite Hv. cbn [mbind res_bind].
      destruct (IH (acc ++ [{| source := "/var/log/kern.log"; message := strip line;
                               raw := strip line; timestamp := None;
                               level := v; extra := ∅ |}]))
        as (new & -> & Hraw & Hall).
      eexists (_ :: new). split; [by rewrite <- app_assoc|]. split.
      * rewrite filter_cons_True by done. rewrite !fmap_cons. by f_equal.
      * constructor; [|done]. cbn. by rewrite parse_level_strip.
    + destruct (IH acc) as (new & -> & Hraw & Hall). exists new.
      split; [done|]. split; [|done].
      rewrite filter_cons_False; [done|]. congruence.
Qed.

Lemma length_last_lines {A} (n : Z) (l : list A) :
  (0 < n)%Z -> length (drop (length l - Z.to_nat n) l) <= Z.to_nat n.
Proof. intros Hn. rewrite length_drop. lia. Qed.

Lemma length_of_raws (entries : list LogEntry) (lines kept : list string) :
  raw <$> entries = strip <$> kept -> kept `sublist_of` lines ->
  length entries <= length lines.
Proof.
  intros E Hsub. apply (f_equal length) in E. rewrite !length_fmap in E.
  apply sublist_length in Hsub. lia.
Qed.


(** X9.  [_collect_kern_log] looks only at the last [max(500, hours*100)]
    lines of the kernel log: its entries are, in order, the stripped forms
    of those of these lines that contain one of the four keywords in any
    letter case, so there are at most that many.  The level of an entry,
    computed from the unstripped line, is the level of its stored text.  A
    file that cannot be opened gives no entries; a failure of another
    class, such as undecodable bytes, is passed on. *)
Theorem collect_kern_log_recent_lines (hours : Z) :
  match readlines "/var/log/kern.log" with
  | Ret lines =>
      exists entries,
        general._collect_kern_log readlines hours = Ret entries /\
        raw <$> entries =
          strip <$> filter (fun l => any_in ["critical"; "error"; "err]"; "crit"]
                                       (lower l) = true)
                      (drop (length lines - Z.to_nat (Z.max 500 (hours * 100))) lines) /\
        length entries <= Z.to_nat (Z.max 500 (hours * 100)) /\
        Forall (fun e => source e = "/var/log/kern.log" /\ message e = raw e /\
                         general._parse_level (raw e) = Ret (level e)) entries
  | Raise e =>
      general._collect_kern_log readlines hours =
        if bool_decide (e = OSError) then Ret [] else Raise e
  end.
Proof.
  unfold general._collect_kern_log.
  destruct (readlines "/var/log/kern.log") as [lines|e];
    cbn [mbind res_bind try_except].
  - rewrite slice_from_last by lia.
    destruct (kern_lines_loop_spec
                (drop (length lines - Z.to_nat (Z.max 500 (hours * 100))) lines) [])
      as (entries & -> & Hraw & Hall).
    exists entries. split; [done|]. split; [done|]. split.
    + etrans; [|apply (length_last_lines (Z.max 500 (hours * 100)) lines); lia].
      eapply length_of_raws; [exact Hraw | apply sublist_filter].
    + exact Hall.
  - by destruct e.
Qed.

(** X10.  [_collect_auth] takes its entries from the first of
    [/var/log/auth.log] and [/var/log/secure] that can be read, even when
    that file yields no entry: the other file is then not consulted.  The
    entries are the stripped forms of those of the last
    [max(200, hours*50)] lines that contain one of the five keywords in any
    letter case, all at level [warning] and with the file as source.  When
    neither file can be opened the result is empty; a failure of another
    class is passed on. *)
Theorem collect_auth_first_readable_file (hours : Z) :
  let taken_from (path : string) (lines : list string) :=
    exists entries,
      general._collect_auth readlines hours = Ret entries /\
      raw <$> entries =
        strip <$> filter (fun l => any_in ["failed"; "failure"; "invalid"; "error"; "refused"]
                                     (lower l) = true)
                    (drop (length lines - Z.to_nat (Z.max 200 (hours * 50))) lines) /\
      length entries <= Z.to_nat (Z.max 200 (hours * 50)) /\
      Forall (fun e => source e = path /\ message e = raw e /\
                       level e = "warning") entries in
  match readlines "/var/log/auth.log" with
  | Ret lines => taken_from "/var/log/auth.log" lines
  | Raise e =>
      if bool_decide (e = OSError) then
        match readlines "/var/log/secure" with
        | Ret lines => taken_from "/var/log/secure" lines
        | Raise e' =>
            general._collect_auth readlines hours =
              if bool_decide (e' = OSError) then Ret [] else Raise e'
        end
      else general._collect_auth readlines hours = Raise e
  end.
Proof.
  intros taken_from.
  assert (forall path lines,
            exists entries,
              general.auth_lines_loop path
                (slice_from (- Z.max 200 (hours * 50)) lines) [] = entries /\
              raw <$> entries =
                strip <$> filter (fun l => any_in ["failed"; "failure"; "invalid"; "error"; "refused"]
                                             (lower l) = true)
                            (drop (length lines - Z.to_nat (Z.max 200 (hours * 50))) lines) /\
              length entries <= Z.to_nat (Z.max 200 (hours * 50)) /\
              Forall (fun e => source e = path /\ message e = raw e /\
                               level e = "warning") entries) as Hloop.
  { intros path lines. rewrite slice_from_last by lia.
    destruct (auth_lines_loop_spec path
                (drop (length lines - Z.to_nat (Z.max 200 (hours * 50))) lines) [])
      as (entries & -> & Hraw & Hall).
    exists entries. split; [done|]. split; [done|]. split; [|done].
    etrans; [|apply (length_last_lines (Z.max 200 (hours * 50)) lines); lia].
    eapply length_of_raws; [exact Hraw | apply sublist_filter]. }
  subst taken_from. cbn beta.
  unfold general._collect_auth. cbv zeta. cbn [general.auth_paths_loop].
  destruct (readlines "/var/log/auth.log") as [lines|e].
  - destruct (Hloop "/var/log/auth.log" lines) as (entries & -> & H).
    by exists entries.
  - destruct e; try reflexivity.
    change (bool_decide (OSError ∈ [OSError])) with true.
    change (bool_decide (OSError = OSError)) with true. cbn iota.
    destruct (readlines "/var/log/secure") as [lines|e'].
    + destruct (Hloop "/var/log/secure" lines) as (entries & -> & H).
      by exists entries.
    + by destruct e'.
Qed.

End log_files.

Section plain_search.
Import re.
Variable g : regex.
Hypothesis g_plain : plain g = true.

Let P : Pattern := {| pat_regex := g; pat_flags := IGNORECASE |}.

(** Searching for a plain pattern without regard to case is looking for one
    of its words as a substring of the lower-cased text. *)
Lemma plain_search_spec (line : string) :
  is_Some (search P line) <->
  exists w, w ∈ words g /\ contains_chars w (lower_chars (chars line)) = true.
Proof using g_plain.
  split.
  - intros [m Hm]. unfold search in Hm.
    apply search_from_Some in Hm as (pre & post & st & E & Hh & _).
    unfold match_here, P in Hh. cbn [pat_regex pat_flags] in Hh.
    apply exec_sound in Hh as (st' & D & [= ->]).
    destruct (den_plain _ _ _ D g_plain) as (w & Er & Hw & _). simpl in Er.
    exists (lower_chars w). split; [done|]. apply contains_chars_spec.
    exists (lower_chars pre), (lower_chars (ms_rest st)).
    rewrite E, Er. unfold lower_chars. by rewrite !fmap_app.
  - intros (w & Hw & Hc). apply contains_chars_spec in Hc as (pre' & post' & E).
    unfold lower_chars in E.
    apply fmap_app_inv in E as (pre & rest & -> & Hr & E).
    symmetry in Hr. apply fmap_app_inv in Hr as (w' & post & -> & -> & ->).
    destruct (search P line) as [m|] eqn:Hs; [by eexists|]. exfalso.
    unfold search in Hs.
    pose proof (proj1 (search_from_None P (chars line) None 0) Hs pre _ E) as Hnone.
    destruct (exec_complete IGNORECASE g _ _
                (plain_den g g_plain w' Hw (prev_after None pre) post []) Some)
      as [st Hst]; [by eexists|].
    unfold match_here, P in Hnone. cbn [pat_regex pat_flags] in Hnone. congruence.
Qed.

End plain_search.

Section kernel_messages.
Import base.

Lemma oom_re_shape :
  general._OOM_RE =
  {| re.pat_regex := re.pat_regex general._OOM_RE; re.pat_flags := re.IGNORECASE |}.
Proof. reflexivity. Qed.

Lemma oom_re_plain : re.plain (re.pat_regex general._OOM_RE) = true.
Proof. reflexivity. Qed.

Lemma oom_re_words :
  re.words (re.pat_regex general._OOM_RE) =
  chars <$> ["oom"; "killed process"; "panic"; "oops"].
Proof. reflexivity. Qed.

Lemma oom_search (line : string) :
  is_Some (re.search general._OOM_RE line) <->
  any_in ["oom"; "killed process"; "panic"; "oops"] (lower line) = true.
Proof.
  rewrite oom_re_shape, (plain_search_spec _ oom_re_plain), oom_re_words, any_in_spec.
  unfold contains, lower. rewrite chars_str. split.
  - intros (w & (kw & -> & Hin)%list_elem_of_fmap & Hc). by exists kw.
  - intros (kw & Hin & Hc). exists (chars kw). split; [|done].
    by apply list_elem_of_fmap_2.
Qed.

Lemma oom_loop_spec (lines : list string) :
  forall acc, exists new,
    general.oom_loop lines acc = acc ++ new /\
    raw <$> new =
      strip <$> filter (fun l => is_Some (re.search general._OOM_RE l)) lines /\
    Forall (fun e => source e = "journalctl:oom" /\ message e = raw e /\
                     level e = "crit") new.
Proof.
  induction lines as [|line lines IH]; intros acc; cbn [general.oom_loop].
  - exists []. by rewrite app_nil_r.
  - destruct (re.search general._OOM_RE line) as [m|] eqn:Hs.
    + destruct (IH (acc ++ [{| source := "journalctl:oom"; message := strip line;
                               raw := strip line; timestamp := None;
                               level := "crit"; extra := ∅ |}]))
        as (new & -> & Hraw & Hall).
      eexists (_ :: new). split; [by rewrite <- app_assoc|]. split.
      * rewrite filter_cons_True by (rewrite Hs; by eexists).
        rewrite !fmap_cons. by f_equal.
      * by constructor.
    + destruct (IH acc) as (new & -> & Hraw & Hall). exists new.
      split; [done|]. split; [|done].
      rewrite filter_cons_False; [done|]. rewrite Hs. by intros [m Hm].
Qed.

(** X11.  The entries of [_collect_oom] are the stripped forms of the
    kernel lines in which [_OOM_RE] is found, in order, all at level
    [crit].  The pattern is not anchored to words: every line whose
    lower-cased text contains [oom], [killed process], [panic] or [oops]
    anywhere, also inside a longer word, is reported. *)
Theorem collect_oom_substring_match
    (run_command : list string -> Z -> string) (since : string) :
  raw <$> general._collect_oom run_command since =
    strip <$> filter (fun l => is_Some (re.search general._OOM_RE l))
                (splitlines
                   (run_command ["journalctl"; "-k"; "--since"; since;
                                 "--no-pager"; "-o"; "short-iso"] 30%Z)) /\
  (forall l,
     l ∈ splitlines
           (run_command ["journalctl"; "-k"; "--since"; since;
                         "--no-pager"; "-o"; "short-iso"] 30%Z) ->
     any_in ["oom"; "killed process"; "panic"; "oops"] (lower l) = true ->
     strip l ∈ raw <$> general._collect_oom run_command since) /\
  Forall (fun e => source e = "journalctl:oom" /\ message e = raw e /\
                   level e = "crit")
    (general._collect_oom run_command since).
Proof.
  unfold general._collect_oom.
  destruct (oom_loop_spec
              (splitlines
                 (run_command ["journalctl"; "-k"; "--since"; since;
                               "--no-pager"; "-o"; "short-iso"] 30%Z)) [])
    as (entries & -> & Hraw & Hall).
  cbn [app]. split; [done|]. split; [|done].
  intros l Hl Hany. rewrite Hraw. apply list_elem_of_fmap_2.
  apply list_elem_of_filter. split; [by apply oom_search | done].
Qed.

End kernel_messages.

Section workload_journal.
Import base.

Let kept (line : string) : Prop := line <> "" /\ startswith line "--" = false.

Let good (e : LogEntry) : Prop :=
  source e = "journalctl:workload" /\ message e = raw e /\
  general._parse_level (raw e) = Ret (level e).

Let tracks (seen : gset string) (entries : list LogEntry) : Prop :=
  (forall x, x ∈ seen <-> x ∈ raw <$> entries) /\ NoDup (raw <$> entries).

Lemma workload_kept_test (line : string) :
  negb (truthy line) || startswith line "--" = false <-> kept line.
Proof.
  unfold kept. rewrite orb_false_iff, negb_false_iff, truthy_true. done.
Qed.

Lemma tracks_snoc (seen : gset string) (entries : list LogEntry) (e : LogEntry) :
  tracks seen entries -> raw e ∉ seen ->
  tracks ({[raw e]} ∪ seen) (entries ++ [e]).
Proof.
  intros [Hseen Hnd] Hnew. split.
  - intros x. rewrite elem_of_union, elem_of_singleton, fmap_app, elem_of_app, Hseen.
    cbn. rewrite list_elem_of_singleton. tauto.
  - rewrite fmap_app. apply NoDup_app. split; [done|]. split.
    + intros x Hx Hx'. cbn in Hx'. apply list_elem_of_singleton in Hx' as ->.
      by apply Hnew, Hseen.
    + cbn. apply NoDup_singleton.
Qed.

Lemma workload_lines_spec (lines : list string) :
  forall entries seen, tracks seen entries ->
  exists new seen',
    gpu.workload_lines lines (entries, seen) = Ret (entries ++ new, seen') /\
    tracks seen' (entries ++ new) /\ Forall good new /\
    forall x, x ∈ raw <$> new <->
              (x ∉ seen) /\ x ∈ filter kept (strip <$> lines).
Proof.
  induction lines as [|line lines IH]; intros entries seen Htr;
    cbn [gpu.workload_lines].
  - exists [], seen. rewrite app_nil_r. split; [done|]. split; [done|].
    split; [constructor|]. intros x. cbn.
    split; [by intros ?%elem_of_nil | by intros [_ ?%elem_of_nil]].
  - rewrite fmap_cons. cbn [fst snd].
    destruct (negb (truthy (strip line)) || startswith (strip line) "--") eqn:E.
    { destruct (IH entries seen Htr) as (new & seen' & -> & Htr' & Hgood & Hnew).
      exists new, seen'. split; [done|]. split; [done|]. split; [done|].
      intros x. rewrite filter_cons_False; [apply Hnew|].
      intros Hk%workload_kept_test. congruence. }
    apply workload_kept_test in E.
    rewrite (filter_cons_True _ _ _ E).
    destruct (decide (strip line ∈ seen)) as [Hin|Hout].
    { rewrite bool_decide_eq_false_2 by (by intros H; apply H).
      destruct (IH entries seen Htr) as (new & seen' & -> & Htr' & Hgood & Hnew).
      exists new, seen'. split; [done|]. split; [done|]. split; [done|].
      intros x. rewrite Hnew, elem_of_cons. split; [tauto|].
      intros [Hx [-> | Hx']]; [done | by split]. }
    rewrite bool_decide_eq_true_2 by done.
    destruct (parse_level_returns (strip line)) as (v & Hv & _).
    change (gpu._parse_level (strip line)) with (general._parse_level (strip line)).
    rewrite Hv. cbn [mbind res_bind].
    set (e := {| source := "journalctl:workload"; message := strip line;
                 raw := strip line; timestamp := None; level := v; extra := ∅ |}).
    destruct (IH (entries ++ [e]) ({[strip line]} ∪ seen))
      as (new & seen' & -> & Htr' & Hgood & Hnew).
    { by apply (tracks_snoc seen entries e). }
    exists (e :: new), seen'. rewrite <- app_assoc in Htr'. rewrite <- app_assoc.
    split; [done|]. split; [done|]. split; [by constructor|].
    intros x. rewrite fmap_cons, !elem_of_cons, Hnew, elem_of_union, elem_of_singleton.
    cbn [raw e]. split.
    + intros [-> | [Hx Hx']]; [by split; [|left] | split; [tauto | by right]].
    + intros [Hx [-> | Hx']]; [by left|].
      destruct (decide (x = strip line)) as [->|Hne]; [by left | right].
      split; [tauto | done].
Qed.

Variable run_command : list string -> Z -> string.

Lemma workload_patterns_spec (since : string) (patterns : list string) :
  forall entries seen, tracks seen entries ->
  exists new seen',
    gpu.workload_patterns run_command since patterns (entries, seen) =
      Ret (entries ++ new, seen') /\
    tracks seen' (entries ++ new) /\ Forall good new /\
    forall x, x ∈ raw <$> new <->
              (x ∉ seen) /\
              exists p, p ∈ patterns /\
                x ∈ filter kept
                      (strip <$> splitlines
                         (run_command ["journalctl"; "--since"; since; "--no-pager";
                                       "-o"; "short-iso"; "--grep"; p;
                                       "--case-sensitive=false"] 20%Z)).
Proof using Type*.
  induction patterns as [|p patterns IH]; intros entries seen Htr;
    cbn [gpu.workload_patterns].
  - exists [], seen. rewrite app_nil_r. split; [done|]. split; [done|].
    split; [constructor|]. intros x. cbn.
    split; [by intros ?%elem_of_nil | by intros [_ (p & ?%elem_of_nil & _)]].
  - destruct (workload_lines_spec
                (splitlines
                   (run_command ["journalctl"; "--since"; since; "--no-pager";
                                 "-o"; "short-iso"; "--grep"; p;
                                 "--case-sensitive=false"] 20%Z)) entries seen Htr)
      as (new1 & seen1 & -> & Htr1 & Hgood1 & Hnew1).
    cbn [mbind res_bind].
    destruct (IH (entries ++ new1) seen1 Htr1)
      as (new2 & seen2 & -> & Htr2 & Hgood2 & Hnew2).
    exists (new1 ++ new2), seen2. rewrite <- app_assoc in Htr2. rewrite <- app_assoc.
    split; [done|]. split; [done|]. split; [by apply Forall_app|].
    intros x. rewrite fmap_app, elem_of_app, Hnew1, Hnew2.
    destruct Htr as [Hseen _]. destruct Htr1 as [Hseen1 _].
    rewrite Hseen1, fmap_app, elem_of_app, <- Hseen, Hnew1. split.
    + intros [[Hx Hx'] | [Hx (q & Hq & Hx')]].
      * split; [done|]. exists p. split; [by left | done].
      * split; [tauto|]. exists q. split; [by right | done].
    + intros [Hx (q & Hq & Hx')]. apply elem_of_cons in Hq as [-> | Hq].
      * by left.
      * destruct (decide (x ∈ filter kept
                      (strip <$> splitlines
                         (run_command ["journalctl"; "--since"; since; "--no-pager";
                                       "-o"; "short-iso"; "--grep"; p;
                                       "--case-sensitive=false"] 20%Z)))) as [Hp|Hp].
        -- by left.
        -- right. split; [tauto|]. by exists q.
Qed.

(** X12.  [_collect_workload_journal] never fails and never reports a text
    twice, although the five journal queries may return the same line more
    than once: the raw texts of its entries are pairwise distinct, and they
    are exactly the stripped lines, neither empty nor [--] markers, of the
    outputs of the five queries.  Each entry has its text as message and
    the level [_parse_level] reads from it. *)
Theorem collect_workload_journal_distinct (since : string) :
  exists entries,
    gpu._collect_workload_journal run_command since = Ret entries /\
    NoDup (raw <$> entries) /\
    (forall x, x ∈ raw <$> entries <->
               exists p, p ∈ gpu.grep_patterns /\
                 x ∈ filter kept
                       (strip <$> splitlines
                          (run_command ["journalctl"; "--since"; since; "--no-pager";
                                        "-o"; "short-iso"; "--grep"; p;
                                        "--case-sensitive=false"] 20%Z))) /\
    Forall (fun e => source e = "journalctl:workload" /\ message e = raw e /\
                     gpu._parse_level (raw e) = Ret (level e)) entries.
Proof.
  unfold gpu._collect_workload_journal.
  destruct (workload_patterns_spec since gpu.grep_patterns [] ∅)
    as (entries & seen & -> & [_ Hnd] & Hgood & Hnew).
  { split; [|constructor]. intros x. cbn. rewrite elem_of_empty.
    split; [done | by intros ?%elem_of_nil]. }
  cbn [mbind res_bind fst app]. cbn [app] in Hnd.
  exists entries. split; [done|]. split; [done|]. split.
  - intros x. rewrite Hnew. split; [by intros [_ H] | intros H].
    split; [|done]. apply not_elem_of_empty.
  - exact Hgood.
Qed.

End workload_journal.

Section watchers.
Import scout.

Lemma matches_returns_keyword (text : string) :
  _matches text = Ret None \/
  exists kw, _matches text = Ret (Some kw) /\ kw ∈ keywords.
Proof.
  pose proof (search_Some_token _ _ error_re_plain error_re_keywords
                error_re_words text) as HSome.
  rewrite <- error_re_shape in HSome. unfold _matches.
  destruct (re.search _ERROR_RE text) as [m|] eqn:E; [|by left].
  destruct (HSome m eq_refl) as (w & _ & Hg & Hin & _). right.
  exists (lower w). by rewrite Hg.
Qed.

Lemma keywords_truthy (kw : string) : kw ∈ keywords -> truthy kw = true.
Proof.
  assert (Forall (fun kw => truthy kw = true) keywords) as H
    by (repeat constructor).
  apply (proj1 (Forall_forall _ _) H).
Qed.

Lemma matches_empty : _matches "" = Ret None.
Proof. reflexivity. Qed.

(** The readings that give the lines [lines], each with its clock
    reading. *)
Let read (lines : list (string * Z)) : list reading :=
  (fun p => ReadLine p.1 p.2) <$> lines.

Let noteworthy (lines : list (string * Z)) : list string :=
  filter (fun t => _matches t <> Ret None) lines.*1.

Let recorded (src : string) (c : call) : Prop :=
  c_source c = src /\ _matches (c_line c) = Ret (Some (c_keyword c)).

(** The two loops differ only in what an empty reading does. *)
Lemma tail_loop_lines (path : string) (lines : list (string * Z)) :
  forall acc, exists new,
    (forall rest, tail_loop path (read lines ++ rest) acc
                  = tail_loop path rest (acc ++ new)) /\
    c_line <$> new = noteworthy lines /\
    Forall (recorded path) new.
Proof.
  induction lines as [|[text now] lines IH]; intros acc.
  - exists []. rewrite app_nil_r. by split.
  - unfold read. rewrite fmap_cons. cbn [fst snd app tail_loop].
    unfold noteworthy. rewrite fmap_cons. cbn [fst].
    destruct (truthy text) eqn:Ht.
    + destruct (matches_returns_keyword text) as [Hm | (kw & Hm & Hkw)];
        rewrite Hm.
      * destruct (IH acc) as (new & Hrun & Hl & Hall). exists new.
        split; [exact Hrun|]. split; [|done].
        rewrite filter_cons_False by (by intros H). exact Hl.
      * rewrite (keywords_truthy kw Hkw).
        destruct (IH (acc ++ [{| c_source := path; c_line := text;
                                 c_keyword := kw; c_now := now |}]))
          as (new & Hrun & Hl & Hall).
        eexists (_ :: new). split; [|split].
        -- intros rest. rewrite Hrun. by rewrite <- app_assoc.
        -- rewrite filter_cons_True by (rewrite Hm; congruence).
           rewrite fmap_cons. cbn [c_line]. f_equal. exact Hl.
        -- by constructor.
    + apply truthy_false in Ht as ->.
      destruct (IH acc) as (new & Hrun & Hl & Hall). exists new.
      split; [exact Hrun|]. split; [|done].
      rewrite filter_cons_False by (by intros H). exact Hl.
Qed.

Lemma journal_loop_lines (lines : list (string * Z)) :
  Forall (fun p => p.1 <> "") lines ->
  forall acc, exists new,
    (forall rest, journal_loop (read lines ++ rest) acc
                  = journal_loop rest (acc ++ new)) /\
    c_line <$> new = noteworthy lines /\
    Forall (recorded "journalctl") new.
Proof.
  induction 1 as [|[text now] lines Hne _ IH]; intros acc.
  - exists []. rewrite app_nil_r. by split.
  - unfold read. rewrite fmap_cons. cbn [fst snd app journal_loop].
    unfold noteworthy. rewrite fmap_cons. cbn [fst].
    cbn [fst] in Hne. apply truthy_true in Hne. rewrite Hne. cbn [negb].
    destruct (matches_returns_keyword text) as [Hm | (kw & Hm & Hkw)];
      rewrite Hm.
    + destruct (IH acc) as (new & Hrun & Hl & Hall). exists new.
      split; [exact Hrun|]. split; [|done].
      rewrite filter_cons_False by (by intros H). exact Hl.
    + rewrite (keywords_truthy kw Hkw).
      destruct (IH (acc ++ [{| c_source := "journalctl"; c_line := text;
                               c_keyword := kw; c_now := now |}]))
        as (new & Hrun & Hl & Hall).
      eexists (_ :: new). split; [|split].
      * intros rest. rewrite Hrun. by rewrite <- app_assoc.
      * rewrite filter_cons_True by (rewrite Hm; congruence).
        rewrite fmap_cons. cbn [c_line]. f_equal. exact Hl.
      * by constructor.
Qed.

Lemma hit_of_recorded (src : string) (c : call) :
  recorded src c ->
  source (make_hit c) = src /\ strip (line (make_hit c)) = line (make_hit c) /\
  _matches (line (make_hit c)) = Ret (Some (keyword (make_hit c))).
Proof.
  intros (Hs & Hm). unfold make_hit. cbn [source line keyword].
  split; [done|]. split; [apply strip_strip|]. by rewrite matches_strip.
Qed.

Lemma hits_of_recorded (src : string) (lines : list (string * Z)) (calls : list call) :
  c_line <$> calls = noteworthy lines -> Forall (recorded src) calls ->
  line <$> hits_of calls = strip <$> noteworthy lines /\
  Forall (fun h => source h = src /\ strip (line h) = line h /\
                   _matches (line h) = Ret (Some (keyword h))) (hits_of calls).
Proof.
  intros Hl Hall. split.
  - unfold hits_of. rewrite <- Hl, <- !list_fmap_compose. done.
  - unfold hits_of. apply Forall_fmap. eapply Forall_impl; [exact Hall|].
    intros c Hc. by apply (hit_of_recorded src).
Qed.

(** X13.  The watcher of a file, over the lines it reads before it is
    stopped: it records, in order, exactly the lines in which [_matches]
    finds a keyword, each with the file as source, its text without
    surrounding white space and the keyword [_matches] finds in the stored
    text.  When a reading then fails, the hits recorded so far stay, and the
    watcher ends silently for an [OSError] and passes on an exception of
    any other class.  When the file cannot be opened nothing is recorded,
    with the same treatment of the exception. *)
Theorem tail_file_records_noteworthy_lines (path : string) (lines : list (string * Z)) :
  exists calls,
    _tail_file (Ret tt) path (read lines) = (calls, Ret tt) /\
    line <$> hits_of calls = strip <$> noteworthy lines /\
    Forall (fun h => source h = path /\ strip (line h) = line h /\
                     _matches (line h) = Ret (Some (keyword h))) (hits_of calls) /\
    (forall e rest,
       _tail_file (Ret tt) path (read lines ++ ReadRaise e :: rest)
       = (calls, if bool_decide (e = OSError) then Ret tt else Raise e)) /\
    (forall e readings,
       _tail_file (Raise e) path readings
       = ([], if bool_decide (e = OSError) then Ret tt else Raise e)).
Proof.
  destruct (tail_loop_lines path lines []) as (calls & Hrun & Hl & Hall).
  cbn [app] in Hrun.
  destruct (hits_of_recorded path lines calls Hl Hall) as [Hlines Hhits].
  exists calls. split; [|split; [done|split; [done|split]]].
  - unfold _tail_file. rewrite <- (app_nil_r (read lines)), Hrun. reflexivity.
  - intros e rest. unfold _tail_file. rewrite Hrun. cbn [tail_loop].
    by destruct e.
  - intros e readings. unfold _tail_file. by destruct e.
Qed.

Lemma journal_loop_app (before rest : list reading) (now : Z) :
  forall acc,
    journal_loop (before ++ ReadLine "" now :: rest) acc = journal_loop before acc.
Proof.
  induction before as [|r before IH]; intros acc; cbn [app journal_loop].
  - done.
  - destruct r as [text now'|e]; [|done].
    destruct (negb (truthy text)); [done|].
    destruct (_matches text) as [[kw|]|e]; [|apply IH|done].
    destruct (truthy kw); apply IH.
Qed.

(** X14.  The journal watcher stops at the first empty reading, the end of
    the stream: what comes after it is never looked at.  Over the non-empty
    lines read before that, it records, in order, exactly the lines in
    which [_matches] finds a keyword, each with the source [journalctl],
    its text without surrounding white space and the keyword [_matches]
    finds in the stored text; a reading that fails leaves the loop with
    its exception and the hits recorded so far. *)
Theorem journal_loop_stops_at_end_of_stream
    (before rest : list reading) (now : Z) :
  journal_loop (before ++ ReadLine "" now :: rest) [] = journal_loop before [] /\
  (forall lines,
     Forall (fun p => p.1 <> "") lines ->
     exists calls,
       journal_loop (read lines) [] = (calls, None) /\
       line <$> hits_of calls = strip <$> noteworthy lines /\
       Forall (fun h => source h = "journalctl" /\ strip (line h) = line h /\
                        _matches (line h) = Ret (Some (keyword h)))
         (hits_of calls) /\
       (forall e rest',
          journal_loop (read lines ++ ReadRaise e :: rest') [] = (calls, Some e))).
Proof.
  split; [apply journal_loop_app|].
  intros lines Hne.
  destruct (journal_loop_lines lines Hne []) as (calls & Hrun & Hl & Hall).
  cbn [app] in Hrun.
  destruct (hits_of_recorded "journalctl" lines calls Hl Hall) as [Hlines Hhits].
  exists calls. split; [|split; [done|split; [done|]]].
  - rewrite <- (app_nil_r (read lines)), Hrun. reflexivity.
  - intros e rest'. rewrite Hrun. reflexivity.
Qed.

End watchers.

Section custom_sources.
Import base store.
Variable Compiled : Type.
Variable re_compile : string -> re.flags -> res Compiled.
Variable compiled_search : Compiled -> string -> bool.
Variable sorted_glob : string -> list string.
Variable readlines : string -> res (list string).

(** A stripped line passes when it is not empty and the filter, if there
    is one, finds a match in it. *)
Let passes (pattern : option Compiled) (line : string) : Prop :=
  line <> "" /\
  match pattern with
  | Some compiled => compiled_search compiled line
  | None => true
  end = true.

Let from_source (src : CustomSource) (e : LogEntry) : Prop :=
  source e = "custom:" +:+ cs_name src /\ level e = default_level src /\
  message e = raw e /\ raw e <> "" /\ strip (raw e) = raw e.

Lemma lines_loop_spec (src : CustomSource) (pattern : option Compiled)
    (lines : list string) :
  forall acc, exists new,
    custom.lines_loop Compiled compiled_search src pattern lines acc = acc ++ new /\
    raw <$> new = filter (passes pattern) (strip <$> lines) /\
    Forall (from_source src) new.
Proof.
  induction lines as [|l lines IH]; intros acc; cbn [custom.lines_loop].
  - exists []. by rewrite app_nil_r.
  - rewrite fmap_cons. destruct (truthy (strip l)) eqn:Ht; cbn [negb].
    + destruct (match pattern with
                | Some compiled => negb (compiled_search compiled (strip l))
                | None => false
                end) eqn:Hp.
      * destruct (IH acc) as (new & -> & Hraw & Hall). exists new.
        split; [done|]. split; [|done].
        rewrite filter_cons_False; [done|]. intros [_ Hpass].
        destruct pattern as [compiled|]; [|done].
        rewrite Hpass in Hp. done.
      * destruct (IH (acc ++ [{| source := "custom:" +:+ cs_name src;
                                 message := strip l; raw := strip l;
                                 timestamp := None; level := default_level src;
                                 extra := ∅ |}])) as (new & -> & Hraw & Hall).
        eexists (_ :: new). split; [by rewrite <- app_assoc|]. split.
        -- rewrite filter_cons_True.
           ++ rewrite fmap_cons. by f_equal.
           ++ split; [by apply truthy_true|].
              destruct pattern as [compiled|]; [|done].
              by apply negb_false_iff.
        -- constructor; [|done]. unfold from_source. cbn.
           split; [done|]. split; [done|]. split; [done|].
           split; [by apply truthy_true | apply strip_strip].
    + destruct (IH acc) as (new & -> & Hraw & Hall). exists new.
      split; [done|]. split; [|done].
      rewrite filter_cons_False; [done|]. intros [Hne _].
      by apply truthy_false in Ht.
Qed.

Hypothesis readlines_raises :
  forall path e, readlines path = Raise e -> e = OSError.

Lemma paths_loop_spec (src : CustomSource) (pattern : option Compiled)
    (line_count : Z) (paths : list string) :
  forall acc, exists new,
    custom.paths_loop Compiled compiled_search readlines src pattern line_count
      paths acc = Ret (acc ++ new) /\
    raw <$> new =
      paths ≫= (fun path =>
        match readlines path with
        | Ret lines =>
            filter (passes pattern) (strip <$> slice_from (- line_count) lines)
        | Raise _ => []
        end) /\
    Forall (from_source src) new.
Proof using readlines_raises.
  induction paths as [|path paths IH]; intros acc; cbn [custom.paths_loop].
  - exists []. by rewrite app_nil_r.
  - rewrite bind_cons.
    destruct (readlines path) as [lines|e] eqn:Hr.
    + destruct (lines_loop_spec src pattern (slice_from (- line_count) lines) acc)
        as (new1 & -> & Hraw1 & Hall1).
      destruct (IH (acc ++ new1)) as (new2 & -> & Hraw2 & Hall2).
      exists (new1 ++ new2). split; [by rewrite app_assoc|]. split.
      * by rewrite fmap_app, Hraw1, Hraw2.
      * by apply Forall_app.
    + rewrite (readlines_raises path e Hr).
      change (bool_decide (OSError ∈ [OSError])) with true. cbn iota.
      destruct (IH acc) as (new & -> & Hraw & Hall). by exists new.
Qed.

(** X15.  A source whose filter pattern is not a valid pattern is
    collected as if it had no filter: every non-empty line of its files is
    taken.  The bad pattern is not reported. *)
Theorem collect_source_invalid_filter_is_no_filter
    (src : CustomSource) (line_count : Z) :
  re_compile (filter_pattern src) re.IGNORECASE = Raise re_error ->
  custom._collect_source Compiled re_compile compiled_search sorted_glob readlines
    src line_count =
  custom._collect_source Compiled re_compile compiled_search sorted_glob readlines
    {| cs_name := cs_name src; path_glob := path_glob src;
       filter_pattern := ""; default_level := default_level src |} line_count /\
  exists entries,
    custom._collect_source Compiled re_compile compiled_search sorted_glob readlines
      src line_count = Ret entries /\
    raw <$> entries =
      sorted_glob (path_glob src) ≫= (fun path =>
        match readlines path with
        | Ret lines =>
            filter (fun l => l <> "") (strip <$> slice_from (- line_count) lines)
        | Raise _ => []
        end).
Proof using readlines_raises.
  intros Hbad.
  assert (custom._collect_source Compiled re_compile compiled_search sorted_glob
            readlines src line_count =
          custom.paths_loop Compiled compiled_search readlines src None line_count
            (sorted_glob (path_glob src)) []) as Hsrc.
  { unfold custom._collect_source, custom.compile_filter.
    destruct (truthy (filter_pattern src)); [|done]. by rewrite Hbad. }
  split.
  - rewrite Hsrc. unfold custom._collect_source, custom.compile_filter.
    cbn [filter_pattern truthy path_glob mbind res_bind].
    clear Hsrc Hbad. generalize (sorted_glob (path_glob src)), (@nil LogEntry).
    intros paths. induction paths as [|path paths IH]; intros acc;
      cbn [custom.paths_loop]; [done|].
    destruct (readlines path) as [lines|e].
    + rewrite !IH. f_equal. clear IH.
      generalize (slice_from (- line_count) lines). intros ls. revert acc.
      induction ls as [|l ls IHl]; intros acc; cbn [custom.lines_loop]; [done|].
      destruct (negb (truthy (strip l))); [apply IHl|]. cbn iota. apply IHl.
    + destruct (bool_decide (e ∈ [OSError])); [apply IH | done].
  - rewrite Hsrc.
    destruct (paths_loop_spec src None line_count (sorted_glob (path_glob src)) [])
      as (entries & -> & Hraw & _).
    exists entries. split; [done|]. rewrite Hraw.
    generalize (sorted_glob (path_glob src)). intros paths.
    induction paths as [|path paths IH]; [done|]. rewrite !bind_cons, IH.
    f_equal. destruct (readlines path) as [lines|]; [|done].
    apply list_filter_iff. intros l. unfold passes. tauto.
Qed.

Hypothesis compile_raises :
  forall pattern f e, re_compile pattern f = Raise e -> e = re_error.

Lemma compile_filter_returns (src : CustomSource) :
  exists pattern,
    custom.compile_filter Compiled re_compile src = Ret pattern /\
    (filter_pattern src = "" -> pattern = None).
Proof using compile_raises.
  unfold custom.compile_filter. destruct (truthy (filter_pattern src)) eqn:Ht.
  - destruct (re_compile (filter_pattern src) re.IGNORECASE) as [c|e] eqn:Hc.
    + exists (Some c). split; [done|]. intros E. rewrite E in Ht. done.
    + rewrite (compile_raises _ _ _ Hc). exists None. by split.
  - exists None. by split.
Qed.

(** X16.  Provided the library raises only [re.error] for a pattern and
    only [OSError] for a file, [_collect_source] never fails: a file that
    cannot be read is passed over and the other files are still collected.
    The entries are, file after file, the stripped lines of [lines[-line_count:]]
    that are not empty and pass the filter.  Every entry carries the source
    [custom:] followed by the source's name, the source's default level
    whatever the line says, and as message and raw text a non-empty line
    without surrounding white space.  For a positive [line_count], as
    [collect] always passes, these are the last [line_count] lines of each
    file, so that there are at most [line_count] entries per file. *)
Theorem collect_source_skips_unreadable_files
    (src : CustomSource) (line_count : Z) :
  exists entries pattern,
    custom._collect_source Compiled re_compile compiled_search sorted_glob readlines
      src line_count = Ret entries /\
    custom.compile_filter Compiled re_compile src = Ret pattern /\
    raw <$> entries =
      sorted_glob (path_glob src) ≫= (fun path =>
        match readlines path with
        | Ret lines =>
            filter (passes pattern) (strip <$> slice_from (- line_count) lines)
        | Raise _ => []
        end) /\
    Forall (from_source src) entries /\
    ((0 < line_count)%Z ->
     raw <$> entries =
       sorted_glob (path_glob src) ≫= (fun path =>
         match readlines path with
         | Ret lines =>
             filter (passes pattern)
               (strip <$> drop (length lines - Z.to_nat line_count) lines)
         | Raise _ => []
         end) /\
     length entries <= length (sorted_glob (path_glob src)) * Z.to_nat line_count).
Proof using readlines_raises compile_raises.
  destruct (compile_filter_returns src) as (pattern & Hc & _).
  destruct (paths_loop_spec src pattern line_count (sorted_glob (path_glob src)) [])
    as (entries & Hl & Hraw & Hall).
  exists entries, pattern. unfold custom._collect_source. rewrite Hc.
  cbn [mbind res_bind]. split; [done|]. split; [done|].
  split; [done|]. split; [done|]. intros Hn.
  assert (raw <$> entries =
          sorted_glob (path_glob src) ≫= (fun path =>
            match readlines path with
            | Ret lines =>
                filter (passes pattern)
                  (strip <$> drop (length lines - Z.to_nat line_count) lines)
            | Raise _ => []
            end)) as Hraw'.
  { rewrite Hraw. clear -Hn. generalize (sorted_glob (path_glob src)).
    intros paths. induction paths as [|path paths IH]; [done|].
    rewrite !bind_cons, IH. f_equal.
    destruct (readlines path) as [lines|]; [|done].
    by rewrite slice_from_last. }
  split; [done|].
  apply (f_equal length) in Hraw'. rewrite length_fmap in Hraw'. rewrite Hraw'.
  clear -Hn. generalize (sorted_glob (path_glob src)). intros paths.
  induction paths as [|path paths IH]; [done|].
  rewrite bind_cons, length_app. cbn [length].
  assert (length (match readlines path with
                  | Ret lines =>
                      filter (passes pattern)
                        (strip <$> drop (length lines - Z.to_nat line_count) lines)
                  | Raise _ => []
                  end) <= Z.to_nat line_count); [|lia].
  destruct (readlines path) as [lines|]; [|cbn; lia].
  etrans; [apply length_filter|]. rewrite length_fmap, length_drop. lia.
Qed.

Lemma collect_source_returns (src : CustomSource) (line_count : Z) :
  exists entries,
    custom._collect_source Compiled re_compile compiled_search sorted_glob readlines
      src line_count = Ret entries.
Proof using readlines_raises compile_raises.
  destruct (compile_filter_returns src) as (pattern & Hc & _).
  destruct (paths_loop_spec src pattern line_count (sorted_glob (path_glob src)) [])
    as (entries & Hl & _).
  exists entries. unfold custom._collect_source. by rewrite Hc.
Qed.

Lemma collect_loop_spec (sources : list CustomSource) (line_count : Z) :
  forall acc, exists per_source,
    custom.collect_loop Compiled re_compile compiled_search sorted_glob readlines
      sources line_count acc = Ret (acc ++ concat per_source) /\
    Forall2 (fun src found =>
               custom._collect_source Compiled re_compile compiled_search
                 sorted_glob readlines src line_count = Ret found)
      sources per_source.
Proof using readlines_raises compile_raises.
  induction sources as [|src sources IH]; intros acc; cbn [custom.collect_loop].
  - exists []. cbn. rewrite app_nil_r. by split.
  - destruct (collect_source_returns src line_count) as (found & Hf).
    rewrite Hf. cbn [mbind res_bind].
    destruct (IH (acc ++ found)) as (per_source & -> & Hall).
    exists (found :: per_source). cbn [concat]. rewrite app_assoc.
    split; [done | by constructor].
Qed.

(** X17.  Under the same provisos [collect] never fails and returns the
    entries of its sources one source after the other, in the order of the
    sources, each collected with the line count [max(500, hours*100)]. *)
Theorem collect_concatenates_sources (sources : list CustomSource) (hours : Z) :
  exists per_source,
    custom.collect Compiled re_compile compiled_search sorted_glob readlines
      sources hours = Ret (concat per_source) /\
    Forall2 (fun src found =>
               custom._collect_source Compiled re_compile compiled_search
                 sorted_glob readlines src (Z.max 500 (hours * 100)) = Ret found)
      sources per_source.
Proof using readlines_raises compile_raises.
  unfold custom.collect.
  destruct (collect_loop_spec sources (Z.max 500 (hours * 100)) [])
    as (per_source & -> & Hall).
  by exists per_source.
Qed.

End custom_sources.

Lemma app_readlines_raises (path : string) (e : exn) :
  examples.app_readlines path = Raise e -> e = OSError.
Proof.
  unfold examples.app_readlines.
  destruct (String.eqb path "/srv/app/a.log"); congruence.
Qed.

Lemma custom_compile_raises (pattern : string) (f : re.flags) (e : exn) :
  examples.custom_compile pattern f = Raise e -> e = re_error.
Proof.
  unfold examples.custom_compile. destruct (re.compile pattern f); congruence.
Qed.

Lemma collect_source_invalid_filter_is_no_filter_witness :
  exists entries,
    custom._collect_source re.Pattern examples.custom_compile examples.custom_search
      examples.app_glob examples.app_readlines examples.source_bad_filter 500 =
      Ret entries /\
    base.raw <$> entries = ["started"; "ERROR disk full"].
Proof.
  destruct (collect_source_invalid_filter_is_no_filter re.Pattern
              examples.custom_compile examples.custom_search examples.app_glob
              examples.app_readlines app_readlines_raises
              examples.source_bad_filter 500 eq_refl)
    as [_ (entries & E & Hraw)].
  exists entries. split; [exact E|]. rewrite Hraw. reflexivity.
Defined.

Lemma collect_source_skips_unreadable_files_witness :
  exists entries,
    custom._collect_source re.Pattern examples.custom_compile examples.custom_search
      examples.app_glob examples.app_readlines examples.source_error_filter 500 =
      Ret entries /\
    length entries <= 2 * 500.
Proof.
  destruct (collect_source_skips_unreadable_files re.Pattern
              examples.custom_compile examples.custom_search examples.app_glob
              examples.app_readlines app_readlines_raises custom_compile_raises
              examples.source_error_filter 500)
    as (entries & pattern & E & _ & _ & _ & Hpos).
  exists entries. split; [exact E | exact (proj2 (Hpos eq_refl))].
Defined.

Lemma collect_concatenates_sources_witness :
  exists entries,
    custom.collect re.Pattern examples.custom_compile examples.custom_search
      examples.app_glob examples.app_readlines
      [examples.source_bad_filter; examples.source_error_filter] 1 = Ret entries.
Proof.
  destruct (collect_concatenates_sources re.Pattern
              examples.custom_compile examples.custom_search examples.app_glob
              examples.app_readlines app_readlines_raises custom_compile_raises
              [examples.source_bad_filter; examples.source_error_filter] 1)
    as (per_source & E & _).
  exists (concat per_source). exact E.
Defined.
